(** * pdf_split: a shallow embedding of [pdf_split.cpp]

    The program extracts the text layer of every page of every PDF found in
    an input directory.  Per document it runs a pool of worker threads that
    claim page indices from a shared [std::atomic<int>], a mutex-protected
    queue of [PageResult]s, and a single writer thread that owns all
    filesystem output.

    The embedding follows the source top to bottom: the library calls the
    program relies on ([std::filesystem], [std::stoi], [std::to_string],
    poppler) are modelled first, then [process_page], [PageResultQueue],
    [writer_thread], the threads of [process_pdf] as an interleaving
    small-step semantics, and finally [process_directory] and [main]. *)

From Stdlib Require Import ZArith Lia Ascii String DecimalString DecimalZ.
From stdpp Require Import base option list strings gmap fin_maps relations.

Local Open Scope Z_scope.

(** ** [int]: 32-bit two's complement *)

Module Int32.
Definition min_signed : Z := - 2 ^ 31.
Definition max_signed : Z := 2 ^ 31 - 1.
Definition modulus : Z := 2 ^ 32.

Definition in_range (z : Z) : Prop := min_signed <= z <= max_signed.

Definition in_rangeb (z : Z) : bool :=
  (min_signed <=? z) && (z <=? max_signed).

(** Two's complement reduction, the result of arithmetic on
    [std::atomic<int>]. *)
Definition wrap (z : Z) : Z :=
  (z + 2 ^ 31) mod modulus - 2 ^ 31.
End Int32.

(** ** Strings *)

Definition starts_with (c : ascii) (s : string) : bool :=
  match s with
  | String a _ => Ascii.eqb a c
  | EmptyString => false
  end.

Fixpoint drop_str (n : nat) (s : string) : string :=
  match n, s with
  | O, _ => s
  | S n', String _ s' => drop_str n' s'
  | S _, EmptyString => EmptyString
  end.

Fixpoint take_str (n : nat) (s : string) : string :=
  match n, s with
  | O, _ => EmptyString
  | S n', String a s' => String a (take_str n' s')
  | S _, EmptyString => EmptyString
  end.

(** [std::string::rfind(c)]: position of the last occurrence. *)
Fixpoint rfind (c : ascii) (s : string) : option nat :=
  match s with
  | EmptyString => None
  | String a s' =>
      match rfind c s' with
      | Some i => Some (S i)
      | None => if Ascii.eqb a c then Some O else None
      end
  end.

(** [std::to_string(int)]. *)
Definition to_string (z : Z) : string :=
  NilZero.string_of_int (Z.to_int z).

(** The character [std::quoted] delimits and escapes with. *)
Definition dquote : ascii := Ascii.ascii_of_nat 34.
Definition backslash : ascii := Ascii.ascii_of_nat 92.
Definition newline : string := String (Ascii.ascii_of_nat 10) EmptyString.

Fixpoint escape_quoted (s : string) : string :=
  match s with
  | EmptyString => EmptyString
  | String a s' =>
      if Ascii.eqb a dquote || Ascii.eqb a backslash
      then String backslash (String a (escape_quoted s'))
      else String a (escape_quoted s')
  end.

(** [operator<<(ostream&, const fs::path&)] writes the path through
    [std::quoted]. *)
Definition quoted (s : string) : string :=
  String dquote (escape_quoted s +:+ String dquote EmptyString).

(** ** [std::stoi] *)

Inductive stoi_result :=
| StoiOk (value : Z)
| StoiInvalidArgument
| StoiOutOfRange.

Fixpoint skip_space (s : string) : string :=
  match s with
  | String a s' => if Ascii.is_space a then skip_space s' else s
  | EmptyString => EmptyString
  end.

(** Reads the longest prefix of decimal digits; [None] when there is none. *)
Fixpoint read_digits (s : string) (acc : option Z) : option Z :=
  match s with
  | String a s' =>
      match Ascii.is_nat a with
      | Some d => read_digits s' (Some (10 * default 0 acc + Z.of_nat d))
      | None => acc
      end
  | EmptyString => acc
  end.

Definition stoi (s : string) : stoi_result :=
  let s1 := skip_space s in
  let '(negative, s2) :=
    match s1 with
    | String a s' =>
        if Ascii.eqb a "-" then (true, s')
        else if Ascii.eqb a "+" then (false, s')
        else (false, s1)
    | EmptyString => (false, s1)
    end in
  match read_digits s2 None with
  | None => StoiInvalidArgument
  | Some n =>
      let v := if negative then - n else n in
      if Int32.in_rangeb v then StoiOk v else StoiOutOfRange
  end.

(** ** [std::filesystem::path], generic format with [/] as separator *)

Module Path.
(** [path::filename()]: what follows the last separator. *)
Definition filename (p : string) : string :=
  match rfind "/" p with
  | Some i => drop_str (S i) p
  | None => p
  end.

(** Position of the period that starts the extension of a filename: the
    last period, unless the filename is dot or dot-dot or the period is the
    first character. *)
Definition find_extension (f : string) : option nat :=
  if (String.length f <=? 2)%nat && starts_with "." f then None
  else match rfind "." f with
       | Some (S i) => Some (S i)
       | _ => None
       end.

Definition extension (p : string) : string :=
  let f := filename p in
  match find_extension f with
  | Some i => drop_str i f
  | None => EmptyString
  end.

Definition stem (p : string) : string :=
  let f := filename p in
  match find_extension f with
  | Some i => take_str i f
  | None => f
  end.

Definition has_filename (p : string) : bool :=
  negb (String.eqb (filename p) EmptyString).

Definition is_absolute (p : string) : bool := starts_with "/" p.

(** [operator/]. *)
Definition append (p q : string) : string :=
  if is_absolute q then q
  else if has_filename p then p +:+ String "/" q
  else p +:+ q.

(** The names between the separators of a path, in the order in which they
    are written.  A doubled or trailing separator leaves an empty name, and
    so does the separator an absolute path starts with. *)
Fixpoint split (s cur : string) : list string :=
  match s with
  | EmptyString => [cur]
  | String a s' =>
      if Ascii.eqb a "/" then cur :: split s' EmptyString
      else split s' (cur +:+ String a EmptyString)
  end.

Definition names (p : string) : list string := split p EmptyString.

Definition nonempty (s : string) : bool := negb (String.eqb s EmptyString).

(** The elements of a path as written, without the empty names, the root
    directory of an absolute path being written as the empty name.  Dot and
    dot-dot are elements like any other: where a path leads is a matter of
    the filesystem, see [FS.locate]. *)
Definition components (p : string) : list string :=
  (if is_absolute p then [EmptyString] else []) ++
  List.filter nonempty (split p EmptyString).
End Path.

(** ** The filesystem *)

Inductive node :=
| Dir
| File (content : string).

#[global] Instance node_eq_dec : EqDecision node.
Proof. solve_decision. Defined.

(** What the process sees of the filesystem: the directories and regular
    files, each under the names that lead to it from the root directory, and
    the working directory of the process.  There are no symbolic links, and
    permissions stand in the way of nothing. *)
Record filesystem := {
  fs_cwd : list string;
  fs_tree : gmap (list string) node;
}.

Module FS.
Definition parent (p : list string) : list string :=
  take (length p - 1)%nat p.

(** What is found at a place; the root directory is always there. *)
Definition lookup (t : gmap (list string) node) (p : list string) : option node :=
  match p with
  | [] => Some Dir
  | _ => t !! p
  end.

(** One name further from the directory [cur]: the empty name and dot stay
    in [cur], dot-dot goes to its parent (the root directory being its own),
    any other name goes to the entry of that name. *)
Definition enter (cur : list string) (name : string) : list string :=
  if String.eqb name EmptyString || String.eqb name "." then cur
  else if String.eqb name ".." then parent cur
  else cur ++ [name].

(** Where the resolution of a path starts. *)
Definition start (cwd : list string) (path : string) : list string :=
  if Path.is_absolute path then [] else cwd.

(** The places a walk from [cur] along [names] comes to, one per name. *)
Fixpoint visits (cur : list string) (names : list string) : list (list string) :=
  match names with
  | [] => []
  | c :: rest => enter cur c :: visits (enter cur c) rest
  end.

(** The places on the way along a path, from where its resolution starts
    to where it ends. *)
Definition way (cwd : list string) (path : string) : list (list string) :=
  start cwd path :: visits (start cwd path) (Path.names path).

(** The place a path names, whatever exists on the way. *)
Definition locate (cwd : list string) (path : string) : list string :=
  foldl enter (start cwd path) (Path.names path).

(** Path resolution: every name is looked up in a directory, so the walk
    fails at a place that is missing or a regular file when a name follows,
    were it the empty name after a trailing separator. *)
Fixpoint walk (t : gmap (list string) node) (cur : list string) (names : list string)
  : option (list string) :=
  match names with
  | [] => Some cur
  | c :: rest =>
      match lookup t cur with
      | Some Dir => walk t (enter cur c) rest
      | _ => None
      end
  end.

Definition resolve (fs : filesystem) (path : string) : option (list string) :=
  if String.eqb path EmptyString then None
  else walk (fs_tree fs) (start (fs_cwd fs) path) (Path.names path).

(** [fs::status(path)]; [None] is the status of what is not found. *)
Definition status (fs : filesystem) (path : string) : option node :=
  p ← resolve fs path; lookup (fs_tree fs) p.

Definition exists_ (fs : filesystem) (path : string) : bool :=
  match status fs path with Some _ => true | None => false end.

Definition is_directory (fs : filesystem) (path : string) : bool :=
  match status fs path with Some Dir => true | _ => false end.

Definition is_regular_file (fs : filesystem) (path : string) : bool :=
  match status fs path with Some (File _) => true | _ => false end.

(** Walks from [cur] along [names] and makes a directory of every place that
    is missing; stops at a place taken by a regular file.  The flag tells
    whether the walk came to its end; what was made before it stopped
    stays. *)
Fixpoint mkdirs (t : gmap (list string) node) (cur : list string) (names : list string)
  : gmap (list string) node * bool :=
  match names with
  | [] => (t, true)
  | c :: rest =>
      let d := enter cur c in
      match lookup t d with
      | Some Dir => mkdirs t d rest
      | Some (File _) => (t, false)
      | None => mkdirs (<[d := Dir]> t) d rest
      end
  end.

(** [fs::create_directories(path)].  The flag is false when it throws a
    [filesystem_error]: on the empty path, on a regular file on the way, and
    when the directory the path starts from is gone. *)
Definition create_directories (fs : filesystem) (path : string) : filesystem * bool :=
  if String.eqb path EmptyString then (fs, false)
  else
    match lookup (fs_tree fs) (start (fs_cwd fs) path) with
    | Some Dir =>
        let '(t, ok) := mkdirs (fs_tree fs) (start (fs_cwd fs) path) (Path.names path) in
        ({| fs_cwd := fs_cwd fs; fs_tree := t |}, ok)
    | _ => (fs, false)
    end.

(** [std::ofstream ofs(path); ofs << text;], the stream opened for
    truncating output.  When the open fails, the path not resolving or
    naming a directory, the stream ignores what is written to it. *)
Definition write_file (fs : filesystem) (path text : string) : filesystem :=
  match resolve fs path with
  | Some p =>
      match lookup (fs_tree fs) p with
      | Some Dir => fs
      | _ => {| fs_cwd := fs_cwd fs; fs_tree := <[p := File text]> (fs_tree fs) |}
      end
  | None => fs
  end.

(** [Some name] when [k] is [dir] followed by the one name [name]. *)
Fixpoint child_of (dir k : list string) : option string :=
  match dir, k with
  | [], [name] => Some name
  | d :: dir', c :: k' => if String.eqb d c then child_of dir' k' else None
  | _, _ => None
  end.
End FS.

Record directory_entry := {
  entry_path : string;
  entry_status : node;
}.

Definition entry_is_regular_file (e : directory_entry) : bool :=
  match entry_status e with File _ => true | Dir => false end.

(** [fs::directory_iterator(dir)]: the entries directly inside [dir], each
    with the path [dir / name]; [None] when [dir] is not a directory. *)
Definition directory_iterator (fs : filesystem) (dir : string)
  : option (list directory_entry) :=
  if FS.is_directory fs dir then
    Some (omap (fun kn : list string * node =>
                  name ← FS.child_of (FS.locate (fs_cwd fs) dir) kn.1;
                  Some {| entry_path := Path.append dir name; entry_status := kn.2 |})
               (map_to_list (fs_tree fs)))
  else None.

(** ** poppler *)

Record page := { page_text : string }.

Inductive image := OpaqueImage.

(** [pages()] returns an [int]; the record carries the range of that type.
    [create_page] may return null for any index. *)
Record document := {
  doc_pages : Z;
  doc_pages_int : Int32.in_rangeb doc_pages = true;
  doc_create_page : Z -> option page;
}.

(** ** [PageResult] and [process_page] *)

Record PageResult := {
  pdf_name : string;
  page_id : Z;
  text : string;
  images : list (Z * image);
}.

Definition process_page (pg : option page) (name : string) (id : Z) : PageResult :=
  match pg with
  | None => {| pdf_name := name; page_id := id; text := EmptyString; images := [] |}
  | Some p => {| pdf_name := name; page_id := id; text := page_text p; images := [] |}
  end.

(** ** [PageResultQueue] *)

Record PageResultQueue := {
  queue_ : list PageResult;
  finished_ : bool;
}.

Definition new_queue : PageResultQueue := {| queue_ := []; finished_ := false |}.

Definition push (r : PageResult) (q : PageResultQueue) : PageResultQueue :=
  {| queue_ := queue_ q ++ [r]; finished_ := finished_ q |}.

(** [pop] under the lock.  [None]: the wait predicate is false and the caller
    stays blocked.  [Some (None, q)]: returns [false].  [Some (Some r, q')]:
    returns [true] with [r] moved out of the front. *)
Definition pop (q : PageResultQueue) : option (option PageResult * PageResultQueue) :=
  if negb (bool_decide (queue_ q = [])) || finished_ q then
    match queue_ q with
    | [] => Some (None, q)
    | r :: rest => Some (Some r, {| queue_ := rest; finished_ := finished_ q |})
    end
  else None.

Definition set_finished (q : PageResultQueue) : PageResultQueue :=
  {| queue_ := queue_ q; finished_ := true |}.

(** ** [writer_thread]: the body of its loop *)

Definition text_layer : string := "text_layer.txt".

Definition page_dir (output_dir : string) (r : PageResult) : string :=
  Path.append output_dir (pdf_name r +:+ "/" +:+ to_string (page_id r)).

(** One iteration of the loop for the result [r] just popped; the flag is
    false when [create_directories] throws. *)
Definition write_page (output_dir : string) (r : PageResult) (fs : filesystem)
  : filesystem * bool :=
  let '(fs1, ok) := FS.create_directories fs (page_dir output_dir r) in
  if ok
  then (FS.write_file fs1 (Path.append (page_dir output_dir r) text_layer) (text r), true)
  else (fs1, false).

(** ** [process_pdf] as a system of threads *)

(** What the program can touch outside its own memory: the filesystem, the
    lines sent to [std::cerr], and the paths handed to
    [poppler::document::load_from_file]. *)
Record world := {
  w_fs : filesystem;
  w_stderr : list string;
  w_loaded : list string;
}.

(** The arguments of [process_pdf], and poppler's view of the files. *)
Record env := {
  load_from_file : string -> option document;
  pdf_path : string;
  output_dir : string;
  thread_count : Z;
}.

(** Program points of the worker lambda. *)
Inductive worker_pc :=
| WFetch                       (* about to [current_page.fetch_add(1)] *)
| WCheck (id : Z)              (* holds [page_id], about to test and open it *)
| WPush (r : PageResult)       (* holds the result, about to push it *)
| WDone.                       (* left the loop *)

(** Program points of [writer_thread]. *)
Inductive writer_pc :=
| WrPop                        (* about to call [queue.pop] *)
| WrWrite (r : PageResult)     (* in the loop body with [result] *)
| WrDone.                      (* [pop] returned false *)

(** Program points of the thread that runs [process_pdf]. *)
Inductive coord_pc :=
| CLoad                        (* about to load the document *)
| CSpawn (i : Z)               (* at the test of the spawning loop *)
| CSpawnWriter
| CJoin (k : nat)              (* at thread [k] of the joining loop *)
| CSetFinished
| CJoinWriter
| CReturned.

(** History variables; the program does not have them.  [h_claims] lists
    every value a worker obtained from [fetch_add], [h_pushed] every result
    handed to [push], [h_written] every result the writer has finished
    with, all in the order of the events. *)
Record history := {
  h_claims : list (nat * Z);
  h_pushed : list PageResult;
  h_written : list PageResult;
}.

Record state := {
  st_coord : coord_pc;
  st_doc : option document;
  st_num_pages : Z;
  st_current_page : Z;
  st_queue : PageResultQueue;
  st_threads : list worker_pc;
  st_writer : option writer_pc;
  st_world : world;
  st_terminated : bool;        (* [std::terminate] was called *)
  st_hist : history;
}.

Definition set_coord (c : coord_pc) (s : state) : state :=
  {| st_coord := c; st_doc := st_doc s; st_num_pages := st_num_pages s;
     st_current_page := st_current_page s; st_queue := st_queue s;
     st_threads := st_threads s; st_writer := st_writer s;
     st_world := st_world s; st_terminated := st_terminated s;
     st_hist := st_hist s |}.

Definition set_doc (d : option document) (s : state) : state :=
  {| st_coord := st_coord s; st_doc := d; st_num_pages := st_num_pages s;
     st_current_page := st_current_page s; st_queue := st_queue s;
     st_threads := st_threads s; st_writer := st_writer s;
     st_world := st_world s; st_terminated := st_terminated s;
     st_hist := st_hist s |}.

Definition set_num_pages (n : Z) (s : state) : state :=
  {| st_coord := st_coord s; st_doc := st_doc s; st_num_pages := n;
     st_current_page := st_current_page s; st_queue := st_queue s;
     st_threads := st_threads s; st_writer := st_writer s;
     st_world := st_world s; st_terminated := st_terminated s;
     st_hist := st_hist s |}.

Definition set_current_page (n : Z) (s : state) : state :=
  {| st_coord := st_coord s; st_doc := st_doc s; st_num_pages := st_num_pages s;
     st_current_page := n; st_queue := st_queue s;
     st_threads := st_threads s; st_writer := st_writer s;
     st_world := st_world s; st_terminated := st_terminated s;
     st_hist := st_hist s |}.

Definition set_queue (q : PageResultQueue) (s : state) : state :=
  {| st_coord := st_coord s; st_doc := st_doc s; st_num_pages := st_num_pages s;
     st_current_page := st_current_page s; st_queue := q;
     st_threads := st_threads s; st_writer := st_writer s;
     st_world := st_world s; st_terminated := st_terminated s;
     st_hist := st_hist s |}.

Definition set_threads (l : list worker_pc) (s : state) : state :=
  {| st_coord := st_coord s; st_doc := st_doc s; st_num_pages := st_num_pages s;
     st_current_page := st_current_page s; st_queue := st_queue s;
     st_threads := l; st_writer := st_writer s;
     st_world := st_world s; st_terminated := st_terminated s;
     st_hist := st_hist s |}.

Definition set_writer (w : option writer_pc) (s : state) : state :=
  {| st_coord := st_coord s; st_doc := st_doc s; st_num_pages := st_num_pages s;
     st_current_page := st_current_page s; st_queue := st_queue s;
     st_threads := st_threads s; st_writer := w;
     st_world := st_world s; st_terminated := st_terminated s;
     st_hist := st_hist s |}.

Definition set_world (w : world) (s : state) : state :=
  {| st_coord := st_coord s; st_doc := st_doc s; st_num_pages := st_num_pages s;
     st_current_page := st_current_page s; st_queue := st_queue s;
     st_threads := st_threads s; st_writer := st_writer s;
     st_world := w; st_terminated := st_terminated s;
     st_hist := st_hist s |}.

Definition set_terminated (b : bool) (s : state) : state :=
  {| st_coord := st_coord s; st_doc := st_doc s; st_num_pages := st_num_pages s;
     st_current_page := st_current_page s; st_queue := st_queue s;
     st_threads := st_threads s; st_writer := st_writer s;
     st_world := st_world s; st_terminated := b;
     st_hist := st_hist s |}.

Definition set_hist (h : history) (s : state) : state :=
  {| st_coord := st_coord s; st_doc := st_doc s; st_num_pages := st_num_pages s;
     st_current_page := st_current_page s; st_queue := st_queue s;
     st_threads := st_threads s; st_writer := st_writer s;
     st_world := st_world s; st_terminated := st_terminated s;
     st_hist := h |}.

Definition log_claim (i : nat) (id : Z) (h : history) : history :=
  {| h_claims := h_claims h ++ [(i, id)]; h_pushed := h_pushed h;
     h_written := h_written h |}.

Definition log_push (r : PageResult) (h : history) : history :=
  {| h_claims := h_claims h; h_pushed := h_pushed h ++ [r];
     h_written := h_written h |}.

Definition log_write (r : PageResult) (h : history) : history :=
  {| h_claims := h_claims h; h_pushed := h_pushed h;
     h_written := h_written h ++ [r] |}.

Definition with_fs (fs : filesystem) (w : world) : world :=
  {| w_fs := fs; w_stderr := w_stderr w; w_loaded := w_loaded w |}.

Definition report (line : string) (w : world) : world :=
  {| w_fs := w_fs w; w_stderr := w_stderr w ++ [line]; w_loaded := w_loaded w |}.

Definition note_load (path : string) (w : world) : world :=
  {| w_fs := w_fs w; w_stderr := w_stderr w; w_loaded := w_loaded w ++ [path] |}.

Definition failed_to_open (path : string) : string :=
  "Failed to open PDF: " +:+ quoted path +:+ newline.

(** The state [process_pdf] is entered in. *)
Definition init_state (w : world) : state :=
  {| st_coord := CLoad; st_doc := None; st_num_pages := 0;
     st_current_page := 0; st_queue := new_queue; st_threads := [];
     st_writer := None; st_world := w; st_terminated := false;
     st_hist := {| h_claims := []; h_pushed := []; h_written := [] |} |}.

(** The thread running [process_pdf].  [join] is enabled only once the
    joined thread has finished. *)
Definition coord_step (e : env) (s : state) : option state :=
  match st_coord s with
  | CLoad =>
      match load_from_file e (pdf_path e) with
      | None =>
          Some (set_coord CReturned
                  (set_world (report (failed_to_open (pdf_path e))
                                (note_load (pdf_path e) (st_world s))) s))
      | Some d =>
          Some (set_coord (CSpawn 0)
                  (set_queue new_queue
                     (set_current_page 0
                        (set_num_pages (doc_pages d)
                           (set_doc (Some d)
                              (set_world (note_load (pdf_path e) (st_world s)) s))))))
      end
  | CSpawn i =>
      if i <? thread_count e
      then Some (set_coord (CSpawn (i + 1)) (set_threads (st_threads s ++ [WFetch]) s))
      else Some (set_coord CSpawnWriter s)
  | CSpawnWriter => Some (set_coord (CJoin 0) (set_writer (Some WrPop) s))
  | CJoin k =>
      match st_threads s !! k with
      | None => Some (set_coord CSetFinished s)
      | Some WDone => Some (set_coord (CJoin (S k)) s)
      | Some _ => None
      end
  | CSetFinished =>
      Some (set_coord CJoinWriter (set_queue (set_finished (st_queue s)) s))
  | CJoinWriter =>
      match st_writer s with
      | Some WrDone => Some (set_coord CReturned (set_doc None s))
      | _ => None
      end
  | CReturned => None
  end.

(** Worker [i], one atomic action at a time: the [fetch_add], the test with
    the opening and extraction of the page (which touch nothing shared but
    the read-only document), and the [push]. *)
Definition worker_step (e : env) (i : nat) (s : state) : option state :=
  match st_threads s !! i with
  | Some WFetch =>
      let id := st_current_page s in
      Some (set_threads (<[i := WCheck id]> (st_threads s))
              (set_current_page (Int32.wrap (id + 1))
                 (set_hist (log_claim i id (st_hist s)) s)))
  | Some (WCheck id) =>
      if id >=? st_num_pages s
      then Some (set_threads (<[i := WDone]> (st_threads s)) s)
      else
        match st_doc s with
        | None => None
        | Some d =>
            match doc_create_page d id with
            | Some pg =>
                let r := process_page (Some pg) (Path.stem (pdf_path e)) id in
                Some (set_threads (<[i := WPush r]> (st_threads s)) s)
            | None => Some (set_threads (<[i := WFetch]> (st_threads s)) s)
            end
        end
  | Some (WPush r) =>
      Some (set_threads (<[i := WFetch]> (st_threads s))
              (set_queue (push r (st_queue s))
                 (set_hist (log_push r (st_hist s)) s)))
  | Some WDone | None => None
  end.

(** The writer.  An exception leaving the thread function calls
    [std::terminate]. *)
Definition writer_step (e : env) (s : state) : option state :=
  match st_writer s with
  | Some WrPop =>
      match pop (st_queue s) with
      | None => None
      | Some (Some r, q) => Some (set_writer (Some (WrWrite r)) (set_queue q s))
      | Some (None, _) => Some (set_writer (Some WrDone) s)
      end
  | Some (WrWrite r) =>
      match write_page (output_dir e) r (w_fs (st_world s)) with
      | (fs, true) =>
          Some (set_writer (Some WrPop)
                  (set_world (with_fs fs (st_world s))
                     (set_hist (log_write r (st_hist s)) s)))
      | (fs, false) =>
          Some (set_terminated true (set_world (with_fs fs (st_world s)) s))
      end
  | Some WrDone | None => None
  end.

Inductive tid :=
| Coordinator
| Writer
| Worker (i : nat).

Definition step_thread (e : env) (t : tid) (s : state) : option state :=
  if st_terminated s then None
  else match t with
       | Coordinator => coord_step e s
       | Writer => writer_step e s
       | Worker i => worker_step e i s
       end.

(** One step of the system: some thread takes its next action. *)
Definition step (e : env) (s s' : state) : Prop :=
  ∃ t, step_thread e t s = Some s'.

Definition reachable (e : env) (w : world) (s : state) : Prop :=
  rtc (step e) (init_state w) s.

(** *** Running under a scheduler *)

Definition threads_of (s : state) : list tid :=
  Coordinator :: Writer :: (Worker <$> seq 0 (length (st_threads s))).

Definition successors (e : env) (s : state) : list state :=
  omap (fun t => step_thread e t s) (threads_of s).

(** A scheduler picks, from the state, which of the enabled actions goes
    next. *)
Definition step_sched (sched : state -> nat) (e : env) (s : state) : state :=
  let next := successors e s in
  match next !! (sched s mod length next)%nat with
  | Some s' => s'
  | None => s
  end.

Definition halted (e : env) (s : state) : bool :=
  match successors e s with [] => true | _ => false end.

(** [p] scheduler steps, stopping early in a state without successors. *)
Fixpoint run (sched : state -> nat) (e : env) (p : positive) (s : state) : state :=
  if halted e s then s
  else match p with
       | xH => step_sched sched e s
       | xO p' => run sched e p' (run sched e p' s)
       | xI p' => step_sched sched e (run sched e p' (run sched e p' s))
       end.

(** *** A bound on the number of steps left *)

Definition BIG : Z := 5 * Int32.modulus.

Definition worker_rank (P : Z) (w : worker_pc) : Z :=
  match w with
  | WFetch => BIG
  | WCheck id => if id >=? P then 1 else BIG + 4
  | WPush _ => BIG + 3
  | WDone => 0
  end.

Definition sum_over (f : worker_pc -> Z) (l : list worker_pc) : Z :=
  foldr (fun w acc => f w + acc) 0 l.

Definition workers_rank (P : Z) (l : list worker_pc) : Z :=
  sum_over (worker_rank P) l.

Definition writer_rank (w : option writer_pc) : Z :=
  match w with
  | None | Some WrPop => 1
  | Some (WrWrite _) => 2
  | Some WrDone => 0
  end.

Definition coord_rank (e : env) (c : coord_pc) (n : nat) : Z :=
  match c with
  | CLoad => 0
  | CSpawn i => Z.max 0 (thread_count e - i) * (BIG + 2) + Z.of_nat n + 5
  | CSpawnWriter => Z.of_nat n + 4
  | CJoin k => Z.of_nat (n - k) + 3
  | CSetFinished => 2
  | CJoinWriter => 1
  | CReturned => 0
  end.

Definition rank_body (e : env) (s : state) : Z :=
  if st_terminated s then 0
  else 1 + coord_rank e (st_coord s) (length (st_threads s))
         + workers_rank (st_num_pages s) (st_threads s)
         + 5 * Z.max 0 (st_num_pages s - st_current_page s)
         + writer_rank (st_writer s)
         + 2 * Z.of_nat (length (queue_ (st_queue s))).

Definition rank (e : env) (s : state) : Z :=
  match st_coord s with
  | CLoad =>
      match coord_step e s with
      | Some s' => 1 + rank_body e s'
      | None => 0
      end
  | _ => rank_body e s
  end.

(** ** [process_pdf], [process_directory] and [main] *)

(** [process_pdf] returns when its threads have nothing left to do; the
    scheduler resolves the order of their actions. *)
Definition process_pdf (sched : state -> nat) (e : env) (w : world) : state :=
  run sched e (Z.to_pos (rank e (init_state w))) (init_state w).

Definition is_pdf (en : directory_entry) : bool :=
  entry_is_regular_file en && String.eqb (Path.extension (entry_path en)) ".pdf".

(** The loop of [process_directory] over the entries the iterator yields.
    The flag tells whether [std::terminate] was called. *)
Fixpoint process_entries (sched : state -> nat) (lf : string -> option document)
    (out : string) (tc : Z) (entries : list directory_entry) (w : world)
  : bool * world :=
  match entries with
  | [] => (false, w)
  | en :: rest =>
      if is_pdf en then
        let s := process_pdf sched
                   {| load_from_file := lf; pdf_path := entry_path en;
                      output_dir := out; thread_count := tc |} w in
        if st_terminated s then (true, st_world s)
        else process_entries sched lf out tc rest (st_world s)
      else process_entries sched lf out tc rest w
  end.

Definition process_directory (sched : state -> nat) (lf : string -> option document)
    (input_dir out : string) (tc : Z) (w : world) : bool * world :=
  match directory_iterator (w_fs w) input_dir with
  | None => (true, w)
  | Some entries => process_entries sched lf out tc entries w
  end.

(** How the process ends: [return] from [main] with a code, or
    [std::terminate] after an exception nobody catches. *)
Inductive outcome :=
| Exit (code : Z)
| Terminated.

Definition usage (argv0 : string) : string :=
  "Usage: " +:+ argv0 +:+ " <input_dir> <output_dir> <thread_count>" +:+ newline.

Definition bad_input_dir : string :=
  "Input directory does not exist or is not a directory." +:+ newline.

(** [main]; [argv] holds the program name and the arguments, [argc] is its
    length. *)
Definition main (sched : state -> nat) (lf : string -> option document)
    (argv : list string) (w : world) : outcome * world :=
  if (length argv <? 4)%nat then
    (Exit 1, report (usage (nth 0 argv EmptyString)) w)
  else
    let input_dir := nth 1 argv EmptyString in
    let out := nth 2 argv EmptyString in
    match stoi (nth 3 argv EmptyString) with
    | StoiOk tc =>
        if negb (FS.exists_ (w_fs w) input_dir) || negb (FS.is_directory (w_fs w) input_dir)
        then (Exit 1, report bad_input_dir w)
        else
          match FS.create_directories (w_fs w) out with
          | (fs, false) => (Terminated, with_fs fs w)
          | (fs, true) =>
              match process_directory sched lf input_dir out tc (with_fs fs w) with
              | (true, w') => (Terminated, w')
              | (false, w') => (Exit 0, w')
              end
          end
    | _ => (Terminated, w)
    end.

(** ** A sample run *)

Definition sample_doc : document :=
  {| doc_pages := 2;
     doc_pages_int := eq_refl;
     doc_create_page := fun i =>
       if i =? 0 then Some {| page_text := "Hello" |}
       else if i =? 1 then Some {| page_text := "World" |}
       else None |}.

Definition sample_engine (path : string) : option document :=
  if String.eqb path "in/report.pdf" then Some sample_doc else None.

(** The process runs in [/home/user], which holds the directory [in]. *)
Definition sample_cwd : list string := ["home"; "user"].

Definition sample_fs : filesystem :=
  {| fs_cwd := sample_cwd;
     fs_tree :=
       <[ ["home"] := Dir ]>
         (<[ sample_cwd := Dir ]>
            (<[ sample_cwd ++ ["in"] := Dir ]>
               (<[ sample_cwd ++ ["in"; "report.pdf"] := File "%PDF" ]>
                  (<[ sample_cwd ++ ["in"; "notes.PDF"] := File "%PDF" ]>
                     (<[ sample_cwd ++ ["in"; "broken.pdf"] := File "junk" ]> ∅))))) |}.

Definition sample_world : world :=
  {| w_fs := sample_fs; w_stderr := []; w_loaded := [] |}.

(** Two schedulers: always the first enabled thread, and one that spreads
    its choices with the number of claims made so far. *)
Definition first_enabled (s : state) : nat := 0%nat.

Definition rotating (s : state) : nat :=
  (length (h_claims (st_hist s)) + length (queue_ (st_queue s)) + 1)%nat.

(** ** The steps, case by case

    [transition] lists the actions of [coord_step], [worker_step] and
    [writer_step] one constructor each; [step_transition] below shows that
    it is the same relation as [step]. *)

Inductive transition (e : env) (s : state) : state -> Prop :=
| T_load_fail :
    st_coord s = CLoad ->
    load_from_file e (pdf_path e) = None ->
    transition e s
      (set_coord CReturned
         (set_world (report (failed_to_open (pdf_path e))
                       (note_load (pdf_path e) (st_world s))) s))
| T_load_ok d :
    st_coord s = CLoad ->
    load_from_file e (pdf_path e) = Some d ->
    transition e s
      (set_coord (CSpawn 0)
         (set_queue new_queue
            (set_current_page 0
               (set_num_pages (doc_pages d)
                  (set_doc (Some d)
                     (set_world (note_load (pdf_path e) (st_world s)) s))))))
| T_spawn i :
    st_coord s = CSpawn i ->
    i < thread_count e ->
    transition e s
      (set_coord (CSpawn (i + 1)) (set_threads (st_threads s ++ [WFetch]) s))
| T_spawn_end i :
    st_coord s = CSpawn i ->
    thread_count e <= i ->
    transition e s (set_coord CSpawnWriter s)
| T_spawn_writer :
    st_coord s = CSpawnWriter ->
    transition e s (set_coord (CJoin 0) (set_writer (Some WrPop) s))
| T_join k :
    st_coord s = CJoin k ->
    st_threads s !! k = Some WDone ->
    transition e s (set_coord (CJoin (S k)) s)
| T_join_end k :
    st_coord s = CJoin k ->
    st_threads s !! k = None ->
    transition e s (set_coord CSetFinished s)
| T_set_finished :
    st_coord s = CSetFinished ->
    transition e s (set_coord CJoinWriter (set_queue (set_finished (st_queue s)) s))
| T_join_writer :
    st_coord s = CJoinWriter ->
    st_writer s = Some WrDone ->
    transition e s (set_coord CReturned (set_doc None s))
| T_fetch i :
    st_threads s !! i = Some WFetch ->
    transition e s
      (set_threads (<[i := WCheck (st_current_page s)]> (st_threads s))
         (set_current_page (Int32.wrap (st_current_page s + 1))
            (set_hist (log_claim i (st_current_page s) (st_hist s)) s)))
| T_exit i id :
    st_threads s !! i = Some (WCheck id) ->
    st_num_pages s <= id ->
    transition e s (set_threads (<[i := WDone]> (st_threads s)) s)
| T_open i id d pg :
    st_threads s !! i = Some (WCheck id) ->
    id < st_num_pages s ->
    st_doc s = Some d ->
    doc_create_page d id = Some pg ->
    transition e s
      (set_threads
         (<[i := WPush (process_page (Some pg) (Path.stem (pdf_path e)) id)]>
            (st_threads s)) s)
| T_skip i id d :
    st_threads s !! i = Some (WCheck id) ->
    id < st_num_pages s ->
    st_doc s = Some d ->
    doc_create_page d id = None ->
    transition e s (set_threads (<[i := WFetch]> (st_threads s)) s)
| T_push i r :
    st_threads s !! i = Some (WPush r) ->
    transition e s
      (set_threads (<[i := WFetch]> (st_threads s))
         (set_queue (push r (st_queue s))
            (set_hist (log_push r (st_hist s)) s)))
| T_pop r rest :
    st_writer s = Some WrPop ->
    queue_ (st_queue s) = r :: rest ->
    transition e s
      (set_writer (Some (WrWrite r))
         (set_queue {| queue_ := rest; finished_ := finished_ (st_queue s) |} s))
| T_pop_end :
    st_writer s = Some WrPop ->
    queue_ (st_queue s) = [] ->
    finished_ (st_queue s) = true ->
    transition e s (set_writer (Some WrDone) s)
| T_write r fs :
    st_writer s = Some (WrWrite r) ->
    write_page (output_dir e) r (w_fs (st_world s)) = (fs, true) ->
    transition e s
      (set_writer (Some WrPop)
         (set_world (with_fs fs (st_world s))
            (set_hist (log_write r (st_hist s)) s)))
| T_write_throw r fs :
    st_writer s = Some (WrWrite r) ->
    write_page (output_dir e) r (w_fs (st_world s)) = (fs, false) ->
    transition e s (set_terminated true (set_world (with_fs fs (st_world s)) s)).

(** ** Invariants of [process_pdf] *)

(** The number of workers the spawning loop creates. *)
Definition pool_size (e : env) : Z := Z.max 0 (thread_count e).

(** The result the writer holds between [pop] and the end of its loop
    body. *)
Definition inflight (w : option writer_pc) : list PageResult :=
  match w with
  | Some (WrWrite r) => [r]
  | _ => []
  end.

Definition doc_open (e : env) (d : option document) (P : Z) : Prop :=
  ∃ d0, d = Some d0 ∧ P = doc_pages d0 ∧ load_from_file e (pdf_path e) = Some d0.

Definition coord_inv (e : env) (c : coord_pc) (l : list worker_pc)
    (w : option writer_pc) (q : PageResultQueue) (d : option document) (P : Z)
  : Prop :=
  match c with
  | CLoad => l = [] ∧ w = None ∧ q = new_queue
  | CSpawn i =>
      0 <= i <= pool_size e ∧ Z.of_nat (length l) = i
      ∧ w = None ∧ finished_ q = false ∧ doc_open e d P
  | CSpawnWriter =>
      Z.of_nat (length l) = pool_size e
      ∧ w = None ∧ finished_ q = false ∧ doc_open e d P
  | CJoin k =>
      Z.of_nat (length l) = pool_size e
      ∧ w ≠ None ∧ finished_ q = false
      ∧ (k <= length l)%nat
      ∧ (∀ j, (j < k)%nat → l !! j = Some WDone)
      ∧ doc_open e d P
  | CSetFinished =>
      Z.of_nat (length l) = pool_size e
      ∧ w ≠ None ∧ finished_ q = false
      ∧ Forall (eq WDone) l ∧ doc_open e d P
  | CJoinWriter =>
      Z.of_nat (length l) = pool_size e
      ∧ w ≠ None ∧ finished_ q = true ∧ doc_open e d P
  | CReturned =>
      (w = None ∧ l = [] ∧ load_from_file e (pdf_path e) = None ∧ q = new_queue)
      ∨ (w = Some WrDone
         ∧ Z.of_nat (length l) = pool_size e
         ∧ is_Some (load_from_file e (pdf_path e)))
  end.

Definition coord_ok (e : env) (s : state) : Prop :=
  coord_inv e (st_coord s) (st_threads s) (st_writer s) (st_queue s)
    (st_doc s) (st_num_pages s).

Record wf (e : env) (s : state) : Prop := {
  wf_counter : Int32.in_range (st_current_page s);
  wf_pages : Int32.in_range (st_num_pages s);
  wf_fifo :
    h_pushed (st_hist s)
    = h_written (st_hist s) ++ inflight (st_writer s) ++ queue_ (st_queue s);
  wf_finished :
    finished_ (st_queue s) = true → Forall (eq WDone) (st_threads s);
  wf_writer_done :
    st_writer s = Some WrDone →
    finished_ (st_queue s) = true ∧ queue_ (st_queue s) = [];
  wf_coord : coord_ok e s;
}.

(** The page indices workers currently hold. *)
Definition pending_of (w : worker_pc) : list Z :=
  match w with
  | WCheck id => [id]
  | WPush r => [page_id r]
  | WFetch | WDone => []
  end.

Definition pending (l : list worker_pc) : list Z := l ≫= pending_of.

(** The result a worker builds for page [i] of the document [d]. *)
Definition result_of (e : env) (pg : page) (i : Z) : PageResult :=
  process_page (Some pg) (Path.stem (pdf_path e)) i.

(** What the claims log says about the counter, the workers and the
    results. *)
Record claims_ok (e : env) (s : state) : Prop := {
  ck_fresh :
    st_coord s = CLoad →
    h_claims (st_hist s) = [] ∧ h_pushed (st_hist s) = [];
  ck_ahead :
    ∀ i, 0 <= i < st_num_pages s →
         i ∈ (h_claims (st_hist s)).*2 ∨ 0 <= st_current_page s <= i;
  ck_end :
    ∀ id, id ∈ (h_claims (st_hist s)).*2 → st_num_pages s <= id →
          ∀ i, 0 <= i < st_num_pages s → i ∈ (h_claims (st_hist s)).*2;
  ck_held :
    ∀ w id, st_threads s !! w = Some (WCheck id) →
            (w, id) ∈ h_claims (st_hist s);
  ck_done :
    ∀ w, st_threads s !! w = Some WDone →
         ∃ id, (w, id) ∈ h_claims (st_hist s) ∧ st_num_pages s <= id;
  ck_result :
    ∀ w i d pg,
      (w, i) ∈ h_claims (st_hist s) → i < st_num_pages s →
      load_from_file e (pdf_path e) = Some d →
      doc_create_page d i = Some pg →
      st_threads s !! w = Some (WCheck i)
      ∨ st_threads s !! w = Some (WPush (result_of e pg i))
      ∨ result_of e pg i ∈ h_pushed (st_hist s);
  ck_origin :
    ∀ r, (r ∈ h_pushed (st_hist s) ∨ ∃ w, st_threads s !! w = Some (WPush r)) →
         ∃ d pg, load_from_file e (pdf_path e) = Some d
                 ∧ page_id r ∈ (h_claims (st_hist s)).*2
                 ∧ page_id r < st_num_pages s
                 ∧ doc_create_page d (page_id r) = Some pg
                 ∧ r = result_of e pg (page_id r);
}.

(** A worker that has drawn an index at or past the end makes no further
    claim. *)
Definition exhausted (P : Z) (w : worker_pc) : Z :=
  match w with
  | WDone => 1
  | WCheck id => if P <=? id then 1 else 0
  | WFetch | WPush _ => 0
  end.

(** The counter never wraps when the pages and the workers together stay
    within what an [int] counts up to. *)
Definition no_wrap (e : env) : Prop :=
  ∀ d, load_from_file e (pdf_path e) = Some d →
       Z.max 0 (doc_pages d) + pool_size e <= 2 ^ 31.

(** While the counter has not wrapped, the claims are [0, 1, 2, ...] in
    this order and no page index is held or pushed twice. *)
Record claims_unique (s : state) : Prop := {
  cu_seq :
    (h_claims (st_hist s)).*2
    = seqZ 0 (Z.of_nat (length (h_claims (st_hist s))));
  cu_counter :
    st_current_page s = Int32.wrap (Z.of_nat (length (h_claims (st_hist s))));
  cu_bound :
    Z.of_nat (length (h_claims (st_hist s)))
    <= Z.max 0 (st_num_pages s)
       + sum_over (exhausted (st_num_pages s)) (st_threads s);
  cu_nodup :
    NoDup ((page_id <$> h_pushed (st_hist s)) ++ pending (st_threads s));
  cu_sub :
    ∀ x, x ∈ (page_id <$> h_pushed (st_hist s)) ++ pending (st_threads s) →
         x ∈ (h_claims (st_hist s)).*2;
}.

(** ** Explicit schedules *)

(** Runs the threads named in [ts], in this order; [None] when one of them
    is not enabled at its turn. *)
Fixpoint exec (e : env) (ts : list tid) (s : state) : option state :=
  match ts with
  | [] => Some s
  | t :: ts' => s' ← step_thread e t s; exec e ts' s'
  end.

(** ** The claiming scheme, as the specification words it *)

(** Every page index of [0, P) goes to exactly one worker, none twice and
    none skipped; a worker leaves its loop exactly on an index at or past
    [P]; [P] results are produced, indexed [0..P-1]. *)
Definition claims_exactly_once (e : env) (w : world) (P : Z) : Prop :=
  ∀ s, reachable e w s →
    (∀ i, 0 <= i < P →
          (length (filter (λ c : nat * Z, c.2 = i) (h_claims (st_hist s))) <= 1)%nat)
    ∧ NoDup (page_id <$> h_pushed (st_hist s))
    ∧ (∀ k s', worker_step e k s = Some s' →
               (st_threads s' !! k = Some WDone
                ↔ ∃ id, st_threads s !! k = Some (WCheck id) ∧ P <= id))
    ∧ (st_coord s = CReturned →
       (∀ i, 0 <= i < P →
             length (filter (λ c : nat * Z, c.2 = i) (h_claims (st_hist s))) = 1%nat)
       ∧ page_id <$> h_pushed (st_hist s) ≡ₚ seqZ 0 P
       ∧ Z.of_nat (length (h_pushed (st_hist s))) = P).

(** ** A document at the limit of [int] *)

Definition sample_env : env :=
  {| load_from_file := sample_engine; pdf_path := "in/report.pdf";
     output_dir := "out"; thread_count := 4 |}.

(** [INT_MAX] pages, all of which open. *)
Definition big_doc : document :=
  {| doc_pages := Int32.max_signed;
     doc_pages_int := eq_refl;
     doc_create_page := fun i =>
       if (0 <=? i) && negb (Int32.max_signed <=? i)
       then Some {| page_text := EmptyString |}
       else None |}.

(** Nothing but the root directory, in which the process runs. *)
Definition empty_world : world :=
  {| w_fs := {| fs_cwd := []; fs_tree := ∅ |}; w_stderr := []; w_loaded := [] |}.

Definition big_env : env :=
  {| load_from_file := fun _ => Some big_doc; pdf_path := "in/big.pdf";
     output_dir := "out"; thread_count := 2 |}.

(** The queue a caller of [pop] leaves behind (unchanged while it waits). *)
Definition after_pop (q : PageResultQueue) : PageResultQueue :=
  match pop q with
  | Some (_, q') => q'
  | None => q
  end.

(** The sample document with an empty pool of workers. *)
Definition idle_env : env :=
  {| load_from_file := sample_engine; pdf_path := "in/report.pdf";
     output_dir := "out"; thread_count := 0 |}.

(** The state after the schedule [ts], or the initial one when [ts] cannot
    be followed. *)
Definition state_after (e : env) (ts : list tid) (w : world) : state :=
  default (init_state w) (exec e ts (init_state w)).

(** The state [process_pdf] returns in when the document cannot be
    loaded. *)
Definition load_failed (e : env) (w : world) : state :=
  set_coord CReturned
    (set_world (report (failed_to_open (pdf_path e)) (note_load (pdf_path e) w))
       (init_state w)).

(** ** The exit codes, as the specification words them *)




Definition sample_entries : list directory_entry :=
  default [] (directory_iterator sample_fs "in").

(** A string without separator. *)
Fixpoint no_slash (s : string) : bool :=
  match s with
  | EmptyString => true
  | String a s' => negb (Ascii.eqb a "/") && no_slash s'
  end.


(** The sample run up to the point where the writer holds the result of
    page 0. *)
Definition writing_schedule : list tid :=
  replicate 7 Coordinator ++ [Worker 0; Worker 0; Worker 0; Writer].

Definition hello_result : PageResult :=
  {| pdf_name := "report"; page_id := 0; text := "Hello"; images := [] |}.

Definition sample_argv : list string := ["pdf_split"; "in"; "out"; "4"].

(** A name an entry of a directory can have, as opposed to the empty name,
    dot and dot-dot. *)
Definition proper_name (s : string) : Prop :=
  s <> EmptyString /\ s <> "." /\ s <> "..".

#[global] Instance proper_name_dec s : Decision (proper_name s).
Proof. unfold proper_name. apply _. Defined.

Definition not_file (n : option node) : Prop :=
  match n with
  | Some (File _) => False
  | _ => True
  end.

#[global] Instance not_file_dec n : Decision (not_file n).
Proof. destruct n as [[|c]|]; apply _. Defined.

(** A place on the way to the output directory [base]: no regular file is
    there, and it does not lie three levels or more below [base]. *)
Definition clear_way (t : gmap (list string) node) (base p : list string) : Prop :=
  not_file (t !! p) /\ (base `prefix_of` p -> (length p <= length base + 2)%nat).

#[global] Instance clear_way_dec t base p : Decision (clear_way t base p).
Proof. unfold clear_way. apply _. Defined.

(** Below [base] the regular files sit three levels down, where
    [document/page/text_layer.txt] puts them. *)
Definition tidy_at (base p : list string) (n : node) : Prop :=
  match n with
  | Dir => True
  | File _ => base `prefix_of` p -> length p = (length base + 3)%nat
  end.

#[global] Instance tidy_at_dec base p n : Decision (tidy_at base p n).
Proof. destruct n; apply _. Defined.

(** The filesystem leaves room for the output layout: the walk to the output
    directory starts from a directory and meets no regular file, and the
    regular files below the output directory sit three levels down. *)
Definition tidy_output (out : string) (fs : filesystem) : Prop :=
  let base := FS.locate (fs_cwd fs) out in
  FS.lookup (fs_tree fs) (FS.start (fs_cwd fs) out) = Some Dir
  /\ Forall (clear_way (fs_tree fs) base) (FS.way (fs_cwd fs) out)
  /\ map_Forall (tidy_at base) (fs_tree fs).

#[global] Instance tidy_output_dec out fs : Decision (tidy_output out fs).
Proof. unfold tidy_output. apply _. Defined.

(** Where [writer_thread] puts the text of the result [r]. *)
Definition text_file (out : string) (r : PageResult) : string :=
  Path.append (page_dir out r) text_layer.

(** The sample run up to the call of [set_finished]: the first worker has
    pushed the results of both pages, every worker has left its loop and been
    joined, and the writer has not run yet. *)
Definition joined_schedule : list tid :=
  replicate 7 Coordinator
  ++ replicate 8 (Worker 0) ++ replicate 2 (Worker 1)
  ++ replicate 2 (Worker 2) ++ replicate 2 (Worker 3)
  ++ replicate 5 Coordinator.

(** ** Further definitions: the queue, the output layout, other runs *)

(** ** A single consumer and a single producer on the queue *)

(** [n] calls of [pop] in a row: the results moved out and the queue left
    behind.  Stops at the first call that returns false or would wait. *)
Fixpoint pop_n (n : nat) (q : PageResultQueue) : list PageResult * PageResultQueue :=
  match n with
  | O => ([], q)
  | S n' =>
      match pop q with
      | Some (Some r, q') => let '(rs, q'') := pop_n n' q' in (r :: rs, q'')
      | _ => ([], q)
      end
  end.

(** The results of [rs] pushed one after the other. *)
Definition push_all (rs : list PageResult) (q : PageResultQueue) : PageResultQueue :=
  foldl (fun q r => push r q) q rs.

(** An entry that [process_directory] hands to [process_pdf] and that
    poppler cannot load. *)
Definition fails_to_load (lf : string -> option document) (en : directory_entry) : bool :=
  is_pdf en && match lf (entry_path en) with None => true | Some _ => false end.

(** Below the output directory the directories lie at most two levels down,
    at [output_dir/document] and [output_dir/document/page]. *)
Definition shallow_at (base p : list string) (n : node) : Prop :=
  match n with
  | Dir => base `prefix_of` p -> (length p <= length base + 2)%nat
  | File _ => True
  end.

#[global] Instance shallow_at_dec base p n : Decision (shallow_at base p n).
Proof. destruct n; apply _. Defined.

(** The filesystem is ready for the output: it is tidy, and no directory
    sits where a [text_layer.txt] goes. *)
Definition ready_output (out : string) (fs : filesystem) : Prop :=
  tidy_output out fs
  /\ map_Forall (shallow_at (FS.locate (fs_cwd fs) out)) (fs_tree fs).

#[global] Instance ready_output_dec out fs : Decision (ready_output out fs).
Proof. unfold ready_output. apply _. Defined.

(** The place [p] is that of the text file of [r], or lies on the way to the
    directory of its page. *)
Definition output_name (cwd : list string) (out : string) (p : list string)
    (r : PageResult) : Prop :=
  p = FS.locate cwd (text_file out r)
  \/ (p ∈ FS.way cwd (page_dir out r) /\ p <> []).

#[global] Instance output_name_dec cwd out p r : Decision (output_name cwd out p r).
Proof. unfold output_name. apply _. Defined.



(** A regular file sits where the output directory should go. *)
Definition blocked_world : world :=
  {| w_fs := {| fs_cwd := sample_cwd;
                fs_tree := <[ sample_cwd ++ ["out"] := File "not a directory" ]>
                             (fs_tree sample_fs) |};
     w_stderr := []; w_loaded := [] |}.

(** The sample directory and the output directory named with dots, and an
    engine that knows the sample document under the path the listing then
    gives it. *)
Definition dotted_argv : list string :=
  ["pdf_split"; "./in/"; "../user/./out"; "4"].

Definition dotted_engine (path : string) : option document :=
  if String.eqb path "./in/report.pdf" then Some sample_doc else None.

(** A directory that holds a file named [...pdf], whose stem is dot-dot, and
    an engine that loads it. *)
Definition escaping_world : world :=
  {| w_fs := {| fs_cwd := ["work"];
                fs_tree := <[ ["work"] := Dir ]>
                             (<[ ["work"; "in"] := Dir ]>
                                (<[ ["work"; "in"; "...pdf"] := File "%PDF" ]> ∅)) |};
     w_stderr := []; w_loaded := [] |}.

Definition escaping_engine (path : string) : option document :=
  if String.eqb path "in/...pdf" then Some sample_doc else None.

(** ** The documents of a directory, in any order *)






(** * Proofs *)

(** Equations between closed terms are decided by evaluating both sides in
    the virtual machine. *)
Ltac evaluate :=
  lazymatch goal with
  | |- _ = true => vm_cast_no_check (@eq_refl bool true)
  | |- _ = false => vm_cast_no_check (@eq_refl bool false)
  | |- _ = ?rhs =>
      let n := eval vm_compute in rhs in
      refine (@eq_trans _ _ n _ _ _);
      [vm_cast_no_check (@eq_refl _ n) | vm_cast_no_check (@eq_refl _ n)]
  end.

(** ** 32-bit arithmetic *)

Lemma in_rangeb_spec z : Int32.in_rangeb z = true <-> Int32.in_range z.
Proof.
  unfold Int32.in_rangeb, Int32.in_range.
  rewrite andb_true_iff, !Z.leb_le. tauto.
Qed.

Lemma wrap_in_range z : Int32.in_range (Int32.wrap z).
Proof.
  unfold Int32.in_range, Int32.wrap, Int32.min_signed, Int32.max_signed, Int32.modulus.
  pose proof (Z.mod_pos_bound (z + 2 ^ 31) (2 ^ 32) eq_refl). lia.
Qed.

Lemma wrap_id z : Int32.in_range z -> Int32.wrap z = z.
Proof.
  unfold Int32.in_range, Int32.wrap, Int32.min_signed, Int32.max_signed, Int32.modulus.
  intros H. rewrite Z.mod_small by lia. lia.
Qed.

(** ** Paths as lists of names *)

Lemma append_nil_l (s : string) : EmptyString +:+ s = s.
Proof. reflexivity. Qed.

Lemma append_cons a (s t : string) : String a s +:+ t = String a (s +:+ t).
Proof. reflexivity. Qed.

Lemma append_nil_r (s : string) : s +:+ EmptyString = s.
Proof. induction s as [|a s IH]; [done|]. by rewrite append_cons, IH. Qed.

Lemma append_assoc (a b c : string) : (a +:+ b) +:+ c = a +:+ (b +:+ c).
Proof. induction a as [|x a IH]; [done|]. by rewrite !append_cons, IH. Qed.

Lemma split_no_slash s cur : no_slash s = true -> Path.split s cur = [cur +:+ s].
Proof.
  revert cur. induction s as [|a s IH]; intros cur H; simpl in *.
  - by rewrite append_nil_r.
  - apply andb_true_iff in H as [Ha Hs]. apply negb_true_iff in Ha. rewrite Ha.
    rewrite (IH _ Hs), append_assoc. done.
Qed.

Lemma split_nonempty s cur : Path.split s cur <> [].
Proof.
  revert cur. induction s as [|a s IH]; intros cur; simpl; [done|].
  destruct (Ascii.eqb a "/"); [done|apply IH].
Qed.

(** The last name [split] yields is [path::filename()]. *)
Lemma last_split s cur :
  last (Path.split s cur)
  = Some match rfind "/" s with
         | Some i => drop_str (S i) s
         | None => cur +:+ s
         end.
Proof.
  revert cur. induction s as [|a s IH]; intros cur; simpl.
  - by rewrite append_nil_r.
  - destruct (Ascii.eqb a "/") eqn:Ha.
    + rewrite last_cons, IH. destruct (rfind "/" s); done.
    + rewrite IH. destruct (rfind "/" s); [done|]. by rewrite append_assoc.
Qed.





(** ** Paths, name by name *)

Lemma filename_last p : last (Path.split p EmptyString) = Some (Path.filename p).
Proof. rewrite last_split. unfold Path.filename. by destruct (rfind "/" p). Qed.

Lemma split_app_slash a b cur :
  Path.split (a +:+ String "/" b) cur = Path.split a cur ++ Path.split b EmptyString.
Proof.
  revert cur. induction a as [|c a IH]; intros cur; [done|].
  rewrite append_cons. simpl. destruct (Ascii.eqb c "/"); by rewrite IH.
Qed.

Lemma split_app_open a b : forall cur l,
  Path.split a cur = l ++ [EmptyString] ->
  Path.split (a +:+ b) cur = l ++ Path.split b EmptyString.
Proof.
  induction a as [|c a IH]; intros cur l H.
  - simpl in H. destruct l as [|x [|y l]]; by simplify_eq/=.
  - rewrite append_cons. simpl in *. destruct (Ascii.eqb c "/"); [|by apply IH].
    destruct l as [|x l]; simpl in H.
    + injection H as _ H. by destruct (split_nonempty a EmptyString).
    + injection H as -> H. simpl. f_equal. by apply IH.
Qed.

Lemma names_plain name : no_slash name = true -> Path.names name = [name].
Proof. intros H. unfold Path.names. by rewrite (split_no_slash _ _ H). Qed.

Lemma relative_plain name :
  no_slash name = true -> Path.is_absolute name = false.
Proof.
  destruct name as [|c name]; [done|]. simpl.
  intros [Hc _]%andb_true_iff. by apply negb_true_iff in Hc.
Qed.

(** The names of [d / q] for a relative [q]: those of [d], without the empty
    name a trailing separator leaves, followed by those of [q]. *)
Lemma names_append d q :
  Path.is_absolute q = false ->
  (Path.names (Path.append d q) = Path.names d ++ Path.names q)
  \/ (exists l, Path.names d = l ++ [EmptyString]
                /\ Path.names (Path.append d q) = l ++ Path.names q).
Proof.
  intros Hq. unfold Path.append. rewrite Hq.
  destruct (Path.has_filename d) eqn:Hf.
  - left. apply split_app_slash.
  - right. pose proof (filename_last d) as Hl.
    unfold Path.has_filename in Hf. apply negb_false_iff, String.eqb_eq in Hf.
    rewrite Hf in Hl. apply last_Some in Hl as [l Hl]. exists l. split; [done|].
    by apply split_app_open.
Qed.

Lemma is_absolute_append_relative d q :
  Path.is_absolute q = false ->
  Path.is_absolute (Path.append d q) = Path.is_absolute d.
Proof.
  intros Hq. unfold Path.append. rewrite Hq.
  destruct d as [|c d]; [|by destruct (Path.has_filename _)].
  by rewrite (append_nil_l q).
Qed.

(** ** Walking a path *)

Lemma enter_proper cur c : proper_name c -> FS.enter cur c = cur ++ [c].
Proof.
  intros (H1 & H2 & H3). unfold FS.enter.
  destruct (String.eqb_spec c EmptyString) as [|_]; [done|].
  destruct (String.eqb_spec c ".") as [|_]; [done|]. simpl.
  by destruct (String.eqb_spec c "..").
Qed.

Lemma visits_app cur l1 l2 :
  FS.visits cur (l1 ++ l2)
  = FS.visits cur l1 ++ FS.visits (foldl FS.enter cur l1) l2.
Proof.
  revert cur. induction l1 as [|c l1 IH]; intros cur; simpl; [done|].
  by rewrite IH.
Qed.

Lemma last_visits l : forall cur,
  last (cur :: FS.visits cur l) = Some (foldl FS.enter cur l).
Proof.
  induction l as [|c l IH]; intros cur; simpl; [done|].
  rewrite <- IH. by destruct (FS.visits (FS.enter cur c) l).
Qed.

Lemma locate_on_way cwd path : FS.locate cwd path ∈ FS.way cwd path.
Proof.
  unfold FS.way, FS.locate.
  pose proof (last_visits (Path.names path) (FS.start cwd path)) as H.
  apply last_Some in H as [l ->]. apply elem_of_app. right. apply list_elem_of_here.
Qed.

Lemma start_on_way cwd path : FS.start cwd path ∈ FS.way cwd path.
Proof. apply list_elem_of_here. Qed.

Lemma start_append cwd d q :
  Path.is_absolute q = false -> FS.start cwd (Path.append d q) = FS.start cwd d.
Proof. intros Hq. unfold FS.start. by rewrite is_absolute_append_relative. Qed.

Lemma locate_append cwd d q :
  Path.is_absolute q = false ->
  FS.locate cwd (Path.append d q) = foldl FS.enter (FS.locate cwd d) (Path.names q).
Proof.
  intros Hq. unfold FS.locate. rewrite (start_append _ _ _ Hq).
  destruct (names_append d q Hq) as [->|(l & Hl & ->)].
  - by rewrite foldl_app.
  - by rewrite Hl, !foldl_app.
Qed.

Lemma elem_of_way_append cwd d q p :
  Path.is_absolute q = false ->
  p ∈ FS.way cwd (Path.append d q)
  <-> p ∈ FS.way cwd d \/ p ∈ FS.visits (FS.locate cwd d) (Path.names q).
Proof.
  intros Hq. unfold FS.way, FS.locate. rewrite (start_append _ _ _ Hq).
  set (s := FS.start cwd d).
  destruct (names_append d q Hq) as [->|(l & Hl & ->)].
  - rewrite visits_app, app_comm_cons, elem_of_app. done.
  - rewrite Hl, !visits_app, foldl_app. simpl.
    rewrite !app_comm_cons, !elem_of_app, list_elem_of_singleton.
    pose proof (last_visits l s) as Hlast. apply last_Some in Hlast as [l' Hl'].
    rewrite Hl'. rewrite elem_of_app, list_elem_of_singleton. tauto.
Qed.

Lemma walk_app t l1 : forall cur l2,
  FS.walk t cur (l1 ++ l2) = p ← FS.walk t cur l1; FS.walk t p l2.
Proof.
  induction l1 as [|c l1 IH]; intros cur l2; simpl; [done|].
  destruct (FS.lookup t cur) as [[|?]|]; done.
Qed.

(** A walk through directories comes to its end. *)
Lemma walk_dirs t l : forall cur,
  FS.lookup t cur = Some Dir ->
  (forall p, p ∈ FS.visits cur l -> FS.lookup t p = Some Dir) ->
  FS.walk t cur l = Some (foldl FS.enter cur l).
Proof.
  induction l as [|c l IH]; intros cur Hcur H; simpl; [done|].
  rewrite Hcur. apply IH.
  - apply H. simpl. apply list_elem_of_here.
  - intros p Hp. apply H. simpl. by apply list_elem_of_further.
Qed.

Lemma walk_locate t l : forall cur p,
  FS.walk t cur l = Some p -> p = foldl FS.enter cur l.
Proof.
  induction l as [|c l IH]; intros cur p H; simpl in *; [congruence|].
  destruct (FS.lookup t cur) as [[|?]|]; try done. by apply IH.
Qed.

(** What a walk needs is directories: it goes through on every filesystem
    that has them. *)
Lemma walk_mono t t' l : forall cur p,
  (forall q, FS.lookup t q = Some Dir -> FS.lookup t' q = Some Dir) ->
  FS.walk t cur l = Some p -> FS.walk t' cur l = Some p.
Proof.
  induction l as [|c l IH]; intros cur p Hdirs H; simpl in *; [done|].
  destruct (FS.lookup t cur) as [[|?]|] eqn:Hc; try done.
  rewrite (Hdirs _ Hc). by apply IH.
Qed.

Lemma is_directory_mono fs fs' path :
  fs_cwd fs' = fs_cwd fs ->
  (forall q, FS.lookup (fs_tree fs) q = Some Dir -> FS.lookup (fs_tree fs') q = Some Dir) ->
  FS.is_directory fs path = true -> FS.is_directory fs' path = true.
Proof.
  intros Hcwd Hdirs. unfold FS.is_directory, FS.status, FS.resolve. rewrite Hcwd.
  destruct (String.eqb path EmptyString); [done|].
  destruct (FS.walk (fs_tree fs) _ _) as [p|] eqn:Hw; [|done]. simpl.
  rewrite (walk_mono _ _ _ _ _ Hdirs Hw). simpl.
  destruct (FS.lookup (fs_tree fs) p) as [[|?]|] eqn:Hp; try done.
  by rewrite (Hdirs _ Hp).
Qed.

Lemma resolve_locate fs path p :
  FS.resolve fs path = Some p -> p = FS.locate (fs_cwd fs) path.
Proof.
  unfold FS.resolve. destruct (String.eqb path EmptyString); [done|].
  apply walk_locate.
Qed.

(** A path all of whose way is made of directories names a directory. *)
Lemma is_directory_way fs path :
  path <> EmptyString ->
  (forall p, p ∈ FS.way (fs_cwd fs) path -> FS.lookup (fs_tree fs) p = Some Dir) ->
  FS.is_directory fs path = true.
Proof.
  intros Hne H. unfold FS.is_directory, FS.status, FS.resolve.
  destruct (String.eqb_spec path EmptyString) as [|_]; [done|].
  rewrite walk_dirs; simpl.
  - fold (FS.locate (fs_cwd fs) path). by rewrite (H _ (locate_on_way _ _)).
  - apply H, start_on_way.
  - intros p Hp. apply H. unfold FS.way. by apply list_elem_of_further.
Qed.

Lemma append_nonempty_r (a b : string) : b <> EmptyString -> a +:+ b <> EmptyString.
Proof. destruct a; [done|]. by rewrite append_cons. Qed.

Lemma append_name_nonempty d name :
  name <> EmptyString -> Path.append d name <> EmptyString.
Proof.
  intros Hne. unfold Path.append. destruct (Path.is_absolute name); [done|].
  destruct (Path.has_filename d); by apply append_nonempty_r.
Qed.

(** The names of [d / name] are a list [l] followed by [name], and walking
    along [l] is walking along [d]. *)
Lemma names_append_name cwd d name :
  no_slash name = true ->
  exists l, Path.names (Path.append d name) = l ++ [name]
            /\ foldl FS.enter (FS.start cwd d) l = FS.locate cwd d
            /\ forall p, p ∈ FS.visits (FS.start cwd d) l -> p ∈ FS.way cwd d.
Proof.
  intros Hn. pose proof (relative_plain _ Hn) as Hrel.
  destruct (names_append d name Hrel) as [H|(l & Hl & H)];
    rewrite (names_plain _ Hn) in H.
  - exists (Path.names d). split; [done|]. split; [done|].
    intros p Hp. unfold FS.way. by apply list_elem_of_further.
  - exists l. split; [done|]. unfold FS.locate, FS.way. rewrite Hl, foldl_app.
    split; [done|]. intros p Hp. rewrite visits_app.
    apply list_elem_of_further, elem_of_app. by left.
Qed.

(** The file [d / name], for a proper name, once the way along [d] is made
    of directories. *)
Lemma resolve_append_name fs d name :
  no_slash name = true -> proper_name name ->
  (forall p, p ∈ FS.way (fs_cwd fs) d -> FS.lookup (fs_tree fs) p = Some Dir) ->
  FS.resolve fs (Path.append d name) = Some (FS.locate (fs_cwd fs) d ++ [name]).
Proof.
  intros Hn Hp H. pose proof (relative_plain _ Hn) as Hrel. unfold FS.resolve.
  destruct (String.eqb_spec (Path.append d name) EmptyString) as [He|_].
  { destruct (append_name_nonempty d name); [apply Hp|done]. }
  rewrite (start_append _ _ _ Hrel).
  destruct (names_append_name (fs_cwd fs) d name Hn) as (l & -> & Hloc & Hl).
  rewrite walk_app, walk_dirs; simpl.
  - rewrite Hloc, (H _ (locate_on_way _ _)). by rewrite (enter_proper _ _ Hp).
  - apply H, start_on_way.
  - intros p Hin. by apply H, Hl.
Qed.

Lemma locate_append_name cwd d name :
  no_slash name = true -> proper_name name ->
  FS.locate cwd (Path.append d name) = FS.locate cwd d ++ [name].
Proof.
  intros Hn Hp. rewrite (locate_append _ _ _ (relative_plain _ Hn)).
  rewrite (names_plain _ Hn). simpl. by apply enter_proper.
Qed.

Lemma elem_of_way_append_name cwd d name p :
  no_slash name = true -> proper_name name ->
  p ∈ FS.way cwd (Path.append d name)
  <-> p ∈ FS.way cwd d \/ p = FS.locate cwd d ++ [name].
Proof.
  intros Hn Hp. rewrite (elem_of_way_append _ _ _ _ (relative_plain _ Hn)).
  rewrite (names_plain _ Hn). simpl. rewrite (enter_proper _ _ Hp).
  by rewrite list_elem_of_singleton.
Qed.

(** ** [create_directories] *)

Lemma lookup_raw t p : p <> [] -> FS.lookup t p = t !! p.
Proof. by destruct p. Qed.

Lemma lookup_missing t p : FS.lookup t p = None -> p <> [] /\ t !! p = None.
Proof. by destruct p. Qed.

Lemma lookup_insert_other t d n p :
  p <> d -> FS.lookup (<[d := n]> t) p = FS.lookup t p.
Proof.
  intros Hne. destruct p as [|x p]; [done|]. simpl. by rewrite lookup_insert_ne.
Qed.

Lemma lookup_inserted t d n : d <> [] -> FS.lookup (<[d := n]> t) d = Some n.
Proof. intros Hne. rewrite lookup_raw by done. by rewrite lookup_insert_eq. Qed.

(** What [mkdirs] does: whatever existed is kept; what is new is a directory
    at a place of the walk; when the walk comes to its end every place of it
    is a directory, and it stops only at a regular file that was there from
    the start. *)
Lemma mkdirs_spec l : forall t cur t' ok,
  FS.mkdirs t cur l = (t', ok) ->
  (forall p n, t !! p = Some n -> t' !! p = Some n)
  /\ (forall p, t' !! p <> t !! p ->
        p ∈ FS.visits cur l /\ FS.lookup t p = None /\ t' !! p = Some Dir)
  /\ (ok = true -> forall p, p ∈ FS.visits cur l -> FS.lookup t' p = Some Dir)
  /\ (ok = false ->
      exists p c, p ∈ FS.visits cur l /\ FS.lookup t p = Some (File c)).
Proof.
  induction l as [|c l IH]; intros t cur t' ok H; simpl in H.
  - simplify_eq. split; [done|]. split; [done|]. split; [|done].
    intros _ p Hp. by apply elem_of_nil in Hp.
  - simpl. set (d := FS.enter cur c) in *.
    destruct (FS.lookup t d) as [[|content]|] eqn:Hd.
    + destruct (IH _ _ _ _ H) as (K & N & D & B).
      split; [done|]. split; [|split].
      * intros p Hp. destruct (N p Hp) as (? & ? & ?).
        split; [by apply list_elem_of_further|done].
      * intros Hok p [->|Hp]%elem_of_cons; [|by apply D].
        destruct d as [|x d]; [done|]. simpl in *. by apply K.
      * intros Hok. destruct (B Hok) as (p & c' & Hp & Hf).
        exists p, c'. split; [by apply list_elem_of_further|done].
    + simplify_eq. split; [done|]. split; [done|]. split; [done|].
      intros _. exists d, content. split; [apply list_elem_of_here|done].
    + destruct (lookup_missing _ _ Hd) as [Hnil Hnone].
      destruct (IH _ _ _ _ H) as (K & N & D & B).
      assert (t' !! d = Some Dir) as Hd' by (apply K; by rewrite lookup_insert_eq).
      split; [|split; [|split]].
      * intros p n Hp. apply K. rewrite lookup_insert_ne; [done|]. congruence.
      * intros p Hp. destruct (decide (p = d)) as [->|Hne].
        { split; [apply list_elem_of_here|done]. }
        destruct (N p) as (H1 & H2 & H3); [by rewrite lookup_insert_ne|].
        split; [by apply list_elem_of_further|].
        split; [|done]. by rewrite lookup_insert_other in H2.
      * intros Hok p [->|Hp]%elem_of_cons; [|by apply D].
        by rewrite lookup_raw.
      * intros Hok. destruct (B Hok) as (p & c' & Hp & Hf).
        exists p, c'. split; [by apply list_elem_of_further|].
        destruct (decide (p = d)) as [->|Hne].
        -- by rewrite lookup_inserted in Hf.
        -- by rewrite lookup_insert_other in Hf.
Qed.


Lemma create_directories_cwd fs path :
  fs_cwd (FS.create_directories fs path).1 = fs_cwd fs.
Proof.
  unfold FS.create_directories. destruct (String.eqb path EmptyString); [done|].
  destruct (FS.lookup _ _) as [[|?]|]; try done.
  by destruct (FS.mkdirs _ _ _).
Qed.

Lemma create_directories_spec fs path fs' ok :
  FS.create_directories fs path = (fs', ok) ->
  fs_cwd fs' = fs_cwd fs
  /\ (forall p n, fs_tree fs !! p = Some n -> fs_tree fs' !! p = Some n)
  /\ (forall p, fs_tree fs' !! p <> fs_tree fs !! p ->
        p ∈ FS.way (fs_cwd fs) path /\ FS.lookup (fs_tree fs) p = None
        /\ fs_tree fs' !! p = Some Dir)
  /\ (ok = true ->
      path <> EmptyString
      /\ forall p, p ∈ FS.way (fs_cwd fs) path -> FS.lookup (fs_tree fs') p = Some Dir).
Proof.
  intros H. pose proof (create_directories_cwd fs path) as Hcwd. rewrite H in Hcwd.
  split; [done|]. unfold FS.create_directories in H.
  destruct (String.eqb_spec path EmptyString) as [->|Hne]; [by simplify_eq|].
  destruct (FS.lookup (fs_tree fs) (FS.start (fs_cwd fs) path)) as [[|?]|] eqn:Hs;
    try (by simplify_eq).
  destruct (FS.mkdirs _ _ _) as [t ok'] eqn:Hmk. simplify_eq. simpl.
  destruct (mkdirs_spec _ _ _ _ _ Hmk) as (K & N & D & _).
  split; [done|]. split.
  - intros p Hp. destruct (N p Hp) as (? & ? & ?).
    split; [by apply list_elem_of_further|done].
  - intros ->. split; [done|]. intros p [->|Hp]%elem_of_cons; [|by apply D].
    destruct (FS.start (fs_cwd fs) path) as [|x s] eqn:Hst; [done|].
    simpl in *. by apply K.
Qed.




(** ** The output stream *)

Lemma write_file_cwd fs path text : fs_cwd (FS.write_file fs path text) = fs_cwd fs.
Proof.
  unfold FS.write_file. destruct (FS.resolve fs path) as [p|]; [|done].
  by destruct (FS.lookup (fs_tree fs) p) as [[|?]|].
Qed.

Lemma write_file_in_dir fs d name content :
  no_slash name = true -> proper_name name ->
  (forall p, p ∈ FS.way (fs_cwd fs) d -> FS.lookup (fs_tree fs) p = Some Dir) ->
  fs_tree (FS.write_file fs (Path.append d name) content)
  = match fs_tree fs !! (FS.locate (fs_cwd fs) d ++ [name]) with
    | Some Dir => fs_tree fs
    | _ => <[FS.locate (fs_cwd fs) d ++ [name] := File content]> (fs_tree fs)
    end.
Proof.
  intros Hn Hp H. unfold FS.write_file.
  rewrite (resolve_append_name _ _ _ Hn Hp H).
  rewrite lookup_raw by (by destruct (FS.locate (fs_cwd fs) d)).
  by destruct (fs_tree fs !! _) as [[|?]|].
Qed.

Lemma snoc_not_nil {A} (l : list A) x : l ++ [x] <> [].
Proof. by destruct l. Qed.

Lemma create_directories_lookup fs path fs' p :
  FS.create_directories fs path = (fs', true) ->
  fs_tree fs' !! p
  = if decide (p ∈ FS.way (fs_cwd fs) path /\ FS.lookup (fs_tree fs) p = None)
    then Some Dir else fs_tree fs !! p.
Proof.
  intros H. destruct (create_directories_spec _ _ _ _ H) as (_ & K & N & D).
  destruct (D eq_refl) as [_ Hd]. case_decide as Hc.
  - destruct Hc as [Hv Hnone]. destruct (lookup_missing _ _ Hnone) as [Hnil _].
    rewrite <- lookup_raw by done. by apply Hd.
  - destruct (decide (fs_tree fs' !! p = fs_tree fs !! p)) as [|Hne]; [done|].
    destruct (N p Hne) as (? & ? & _). by destruct Hc.
Qed.

(** Directories stay directories under [create_directories]. *)
Lemma create_directories_dirs fs path p :
  FS.lookup (fs_tree fs) p = Some Dir ->
  FS.lookup (fs_tree (FS.create_directories fs path).1) p = Some Dir.
Proof.
  destruct (FS.create_directories fs path) as [fs' ok] eqn:H.
  destruct (create_directories_spec _ _ _ _ H) as (_ & K & _).
  destruct p as [|x p]; [done|]. simpl. apply K.
Qed.

(** ** The paths the writer builds *)

Lemma no_slash_uint d : no_slash (NilEmpty.string_of_uint d) = true.
Proof. induction d; simpl; done. Qed.

Lemma to_string_plain z :
  no_slash (to_string z) = true /\ Path.nonempty (to_string z) = true.
Proof.
  unfold to_string, NilZero.string_of_int, NilZero.string_of_uint.
  destruct (Z.to_int z) as [d|d]; destruct d; simpl; rewrite ?no_slash_uint; done.
Qed.

Lemma to_string_proper z : proper_name (to_string z).
Proof.
  unfold proper_name, to_string, NilZero.string_of_int, NilZero.string_of_uint.
  destruct (Z.to_int z) as [d|d]; destruct d; simpl; done.
Qed.


Lemma locate_text_file cwd out r :
  FS.locate cwd (text_file out r) = FS.locate cwd (page_dir out r) ++ [text_layer].
Proof. by apply locate_append_name. Qed.

(** For a document whose name is a proper name, the directory of a page
    lies two levels below the output directory. *)
Lemma page_names r :
  no_slash (pdf_name r) = true -> pdf_name r <> EmptyString ->
  Path.is_absolute (pdf_name r +:+ "/" +:+ to_string (page_id r)) = false
  /\ Path.names (pdf_name r +:+ "/" +:+ to_string (page_id r))
     = [pdf_name r; to_string (page_id r)].
Proof.
  intros Hn Hne. split.
  - destruct (pdf_name r) as [|c s]; [done|]. simpl in *.
    apply andb_true_iff in Hn as [Hc _]. by apply negb_true_iff in Hc.
  - unfold Path.names. change ("/" +:+ to_string (page_id r))
      with (String "/" (to_string (page_id r))).
    rewrite split_app_slash, (split_no_slash _ _ Hn).
    by rewrite (split_no_slash _ _ (proj1 (to_string_plain (page_id r)))).
Qed.




(** ** One round of the writer's loop body *)

Lemma write_page_thrown out r fs fs' :
  write_page out r fs = (fs', false) ->
  FS.create_directories fs (page_dir out r) = (fs', false).
Proof.
  unfold write_page. destruct (FS.create_directories fs (page_dir out r)) as [fs1 []];
    congruence.
Qed.


(** One round of the writer's loop body, place by place, when
    [create_directories] does not throw: the missing places on the way to the
    directory of the page become directories, the text file is written unless
    a directory has its place, and nothing else changes. *)
Lemma write_page_lookup out r fs fs' p :
  write_page out r fs = (fs', true) ->
  let file := FS.locate (fs_cwd fs) (text_file out r) in
  fs_cwd fs' = fs_cwd fs
  /\ (forall q, q ∈ FS.way (fs_cwd fs) (page_dir out r) ->
        FS.lookup (fs_tree fs') q = Some Dir)
  /\ fs_tree fs' !! p
     = if decide (p ∈ FS.way (fs_cwd fs) (page_dir out r)
                  /\ FS.lookup (fs_tree fs) p = None)
       then Some Dir
       else if decide (p = file) then
              match fs_tree fs !! file with
              | Some Dir => Some Dir
              | _ => Some (File (text r))
              end
            else fs_tree fs !! p.
Proof.
  intros H file. unfold write_page in H.
  destruct (FS.create_directories fs (page_dir out r)) as [fs1 ok] eqn:Hmk.
  destruct ok; [|done]. injection H as <-.
  destruct (create_directories_spec _ _ _ _ Hmk) as (Hcwd & K & _ & D).
  destruct (D eq_refl) as [_ Hdirs]. rewrite <- Hcwd in Hdirs.
  rewrite write_file_cwd. split; [done|].
  assert (fs_tree (FS.write_file fs1 (Path.append (page_dir out r) text_layer) (text r))
          = match fs_tree fs1 !! file with
            | Some Dir => fs_tree fs1
            | _ => <[file := File (text r)]> (fs_tree fs1)
            end) as Hw.
  { rewrite write_file_in_dir by done. unfold file. by rewrite locate_text_file, Hcwd. }
  assert (file <> []) as Hfile
    by (unfold file; rewrite locate_text_file; apply snoc_not_nil).
  split.
  - intros q Hq. rewrite Hcwd in Hdirs. specialize (Hdirs q Hq).
    destruct q as [|x q]; [done|]. simpl in *. rewrite Hw.
    destruct (fs_tree fs1 !! file) as [[|c]|] eqn:Hf; try done;
      (rewrite lookup_insert_ne; [done|]; intros Heq; rewrite Heq in Hf; congruence).
  - rewrite Hw.
    pose proof (create_directories_lookup _ _ _ p Hmk) as Hp1.
    pose proof (create_directories_lookup _ _ _ file Hmk) as Hf1.
    destruct (decide (p = file)) as [->|Hne].
    + case_decide as Hc.
      * by rewrite Hf1.
      * rewrite Hf1.
        destruct (fs_tree fs !! file) as [[|c]|]; by rewrite ?lookup_insert_eq.
    + assert (match fs_tree fs1 !! file with
              | Some Dir => fs_tree fs1
              | _ => <[file:=File (text r)]> (fs_tree fs1)
              end !! p = fs_tree fs1 !! p) as ->
        by (destruct (fs_tree fs1 !! file) as [[|c]|]; by rewrite ?lookup_insert_ne).
      rewrite Hp1. by case_decide.
Qed.

(** ** A filesystem with room for the output *)









Lemma write_page_cwd out r fs : fs_cwd (write_page out r fs).1 = fs_cwd fs.
Proof.
  unfold write_page.
  pose proof (create_directories_cwd fs (page_dir out r)) as H.
  destruct (FS.create_directories fs (page_dir out r)) as [fs1 []]; simpl in *; [|done].
  by rewrite write_file_cwd.
Qed.

(** Whether it throws or not, the loop body keeps every directory. *)
Lemma write_page_dirs out r fs p :
  FS.lookup (fs_tree fs) p = Some Dir ->
  FS.lookup (fs_tree (write_page out r fs).1) p = Some Dir.
Proof.
  intros Hp. destruct (write_page out r fs) as [fs' ok] eqn:H. simpl.
  destruct ok.
  - destruct p as [|x p]; [done|]. simpl in *.
    destruct (write_page_lookup out r fs fs' (x :: p) H) as (_ & _ & ->).
    case_decide; [done|]. case_decide as Hf; [|done]. by rewrite <- Hf, Hp.
  - apply write_page_thrown in H.
    pose proof (create_directories_dirs fs (page_dir out r) p Hp) as Hd.
    by rewrite H in Hd.
Qed.

(** Whether it throws or not, the loop body keeps every entry, but for a
    regular file at the place of the text file. *)
Lemma write_page_keeps out r fs p n :
  fs_tree fs !! p = Some n ->
  fs_tree (write_page out r fs).1 !! p = Some n
  \/ (exists c, n = File c) /\ p = FS.locate (fs_cwd fs) (text_file out r)
     /\ (write_page out r fs).2 = true
     /\ fs_tree (write_page out r fs).1 !! p = Some (File (text r)).
Proof.
  intros Hp. destruct (write_page out r fs) as [fs' ok] eqn:H. simpl.
  destruct ok.
  - destruct (write_page_lookup out r fs fs' p H) as (_ & _ & Hl). rewrite Hl.
    case_decide as Hc.
    { destruct Hc as [_ Hc]. destruct (lookup_missing _ _ Hc). congruence. }
    case_decide as Hf; [|by left]. rewrite <- Hf, Hp.
    destruct n as [|c]; [by left|right]. split; [by exists c|done].
  - left. apply write_page_thrown in H.
    destruct (create_directories_spec _ _ _ _ H) as (_ & K & _). by apply K.
Qed.

(** Whether it throws or not, what the loop body adds is on the way to the
    directory of the page, or is the text file. *)
Lemma write_page_adds out r fs p :
  fs_tree fs !! p = None -> fs_tree (write_page out r fs).1 !! p <> None ->
  output_name (fs_cwd fs) out p r.
Proof.
  intros Hp Hnew. destruct (write_page out r fs) as [fs' ok] eqn:H. simpl in *.
  destruct ok.
  - destruct (write_page_lookup out r fs fs' p H) as (_ & _ & Hl). rewrite Hl in Hnew.
    case_decide as Hc.
    + destruct Hc as [Hc Hnone]. right. split; [done|]. by destruct p.
    + case_decide; [by left|done].
  - apply write_page_thrown in H.
    destruct (create_directories_spec _ _ _ _ H) as (_ & _ & N & _).
    destruct (N p) as (Hw & Hnone & _); [congruence|].
    right. split; [done|]. by destruct p.
Qed.

(** ** [step] and [transition] agree *)

Lemma step_transition e s s' :
  step e s s' <-> st_terminated s = false /\ transition e s s'.
Proof.
  split.
  - intros [t Ht]. unfold step_thread in Ht.
    destruct (st_terminated s) eqn:Hterm; [discriminate|]. split; [done|].
    destruct t as [| |i].
    + unfold coord_step in Ht. destruct (st_coord s) eqn:Hc.
      * destruct (load_from_file e (pdf_path e)) eqn:Hl; simplify_eq.
        -- by eapply T_load_ok.
        -- by apply T_load_fail.
      * destruct (i <? thread_count e) eqn:Hi; simplify_eq.
        -- apply T_spawn; [done|]. by apply Z.ltb_lt.
        -- eapply T_spawn_end; [done|]. by apply Z.ltb_ge.
      * simplify_eq. by apply T_spawn_writer.
      * destruct (st_threads s !! k) as [[]|] eqn:Hk; simplify_eq.
        -- by apply T_join.
        -- by eapply T_join_end.
      * simplify_eq. by apply T_set_finished.
      * destruct (st_writer s) as [[]|] eqn:Hw; simplify_eq. by apply T_join_writer.
      * discriminate.
    + unfold writer_step in Ht. destruct (st_writer s) as [[]|] eqn:Hw; simplify_eq.
      * unfold pop in Ht. destruct (st_queue s) as [q f] eqn:Hq. simpl in Ht.
        destruct q as [|r rest]; simpl in Ht.
        -- destruct f; simplify_eq. apply T_pop_end; by rewrite ?Hq.
        -- simplify_eq. replace f with (finished_ (st_queue s)) by by rewrite Hq.
           apply T_pop; [done|]. by rewrite Hq.
      * destruct (write_page _ _ _) as [fs []] eqn:Hwp; simplify_eq.
        -- by apply T_write.
        -- by eapply T_write_throw.
    + unfold worker_step in Ht. destruct (st_threads s !! i) as [[]|] eqn:Hi; simplify_eq.
      * by apply T_fetch.
      * destruct (id >=? st_num_pages s) eqn:Hge.
        -- simplify_eq. eapply T_exit; [done|]. apply Z.geb_le in Hge. lia.
        -- assert (id < st_num_pages s).
           { destruct (Z.geb_spec id (st_num_pages s)); [discriminate|lia]. }
           destruct (st_doc s) as [d|] eqn:Hd; [|discriminate].
           destruct (doc_create_page d id) eqn:Hp; simplify_eq.
           ++ by eapply T_open.
           ++ by eapply T_skip.
      * by apply T_push.
  - intros [Hterm Ht]. unfold step, step_thread. rewrite Hterm.
    destruct Ht;
      repeat match goal with
        | H : ?a < ?b |- _ =>
            assert ((a <? b) = true) by (by apply Z.ltb_lt);
            assert ((a >=? b) = false) by (rewrite Z.geb_leb; by apply Z.leb_gt);
            clear H
        | H : ?b <= ?a |- _ =>
            assert ((a <? b) = false) by (by apply Z.ltb_ge);
            assert ((a >=? b) = true) by (rewrite Z.geb_leb; by apply Z.leb_le);
            clear H
        end;
      first
        [ solve [exists Coordinator; unfold coord_step;
                 repeat match goal with H : _ = _ |- _ => rewrite H end; done]
        | solve [exists Writer; unfold writer_step, pop;
                 repeat match goal with H : _ = _ |- _ => rewrite H end; done]
        | solve [exists (Worker i); unfold worker_step;
                 repeat match goal with H : _ = _ |- _ => rewrite H end; done] ].
Qed.

(** ** The structural invariant *)

Lemma Forall_done_insert (l : list worker_pc) i w :
  Forall (eq WDone) l -> l !! i = Some w -> w = WDone.
Proof.
  intros Hall Hi. rewrite Forall_forall in Hall.
  symmetry. apply Hall. eapply list_elem_of_lookup_2, Hi.
Qed.

Lemma wf_init e w : wf e (init_state w).
Proof.
  constructor; simpl; try done.
Qed.

Lemma coord_inv_worker e c l w q q' d P i x y :
  coord_inv e c l w q d P ->
  l !! i = Some x -> x <> WDone -> finished_ q' = finished_ q ->
  coord_inv e c (<[i:=y]> l) w q' d P.
Proof.
  intros Hco Hi Hx Hq. destruct c; simpl in *; rewrite ?length_insert, ?Hq.
  - destruct Hco as [-> _]. discriminate.
  - done.
  - done.
  - destruct Hco as (? & ? & ? & ? & Hj & ?). repeat split; try done.
    intros j Hjk. destruct (decide (i = j)) as [->|Hne].
    + rewrite (Hj j Hjk) in Hi. congruence.
    + rewrite list_lookup_insert_ne by done. by apply Hj.
  - destruct Hco as (? & ? & ? & Hall & ?).
    destruct Hx. eapply Forall_done_insert; eauto.
  - done.
  - destruct Hco as [(? & -> & ?)|(? & ? & ?)]; [discriminate|]. by right.
Qed.

Lemma coord_inv_writer e c l w1 w2 q q' d P :
  coord_inv e c l (Some w1) q d P ->
  w1 <> WrDone -> finished_ q' = finished_ q ->
  coord_inv e c l (Some w2) q' d P.
Proof.
  intros Hco Hw Hq. destruct c; simpl in *; rewrite ?Hq;
    try (destruct_and?; done).
  destruct Hco as [(? & ?)|(? & ?)]; simplify_eq.
Qed.

Lemma not_finished_if_running (q : PageResultQueue) (l : list worker_pc) i x :
  (finished_ q = true -> Forall (eq WDone) l) ->
  l !! i = Some x -> x <> WDone -> finished_ q = false.
Proof.
  intros Hfin Hi Hx. destruct (finished_ q); [|done].
  destruct Hx. eapply Forall_done_insert; [by apply Hfin|done].
Qed.

Lemma wf_transition e s s' : wf e s -> transition e s s' -> wf e s'.
Proof.
  intros [Hc Hp Hfifo Hfin Hwd Hco] Ht.
  destruct s as [c d P cp q l w wo tm h]. unfold coord_ok in *. simpl in *.
  destruct Ht; simpl in *; subst; simpl in *.
  - (* load fails *)
    constructor; unfold coord_ok; simpl; try done.
    destruct Hco as (-> & -> & ->). by left.
  - (* load *)
    destruct Hco as (-> & -> & ->).
    constructor; unfold coord_ok; simpl; try done.
    + by apply in_rangeb_spec, doc_pages_int.
    + repeat split; try done. unfold pool_size; lia. by exists d0.
  - (* spawn *)
    destruct Hco as (? & ? & ? & Hf & ?).
    constructor; unfold coord_ok; simpl; try done.
    + rewrite Hf. done.
    + rewrite length_app. simpl. repeat split; try done; unfold pool_size in *; lia.
  - (* end of the spawning loop *)
    destruct Hco as (? & ? & ? & Hf & ?).
    constructor; unfold coord_ok; simpl; try done.
    repeat split; try done. unfold pool_size in *; lia.
  - (* the writer starts *)
    destruct Hco as (? & -> & Hf & ?).
    constructor; unfold coord_ok; simpl; try done.
    repeat split; try done; lia.
  - (* join *)
    destruct Hco as (? & ? & Hf & ? & Hj & ?).
    constructor; unfold coord_ok; simpl; try done.
    repeat split; try done.
    + apply lookup_lt_Some in H0. lia.
    + intros j Hjk. destruct (decide (j = k)) as [->|]; [done|]. apply Hj. lia.
  - (* end of the joining loop *)
    destruct Hco as (? & ? & Hf & ? & Hj & ?).
    constructor; unfold coord_ok; simpl; try done.
    repeat split; try done.
    apply lookup_ge_None in H0. apply Forall_lookup. intros j x Hx.
    rewrite Hj in Hx; [congruence|]. apply lookup_lt_Some in Hx. lia.
  - (* set_finished *)
    destruct Hco as (? & ? & Hf & ? & ?).
    constructor; unfold coord_ok; simpl; try done.
    intros Hw. destruct (Hwd Hw). congruence.
  - (* the writer is joined *)
    destruct Hco as (? & ? & Hf & d0 & ? & ? & ?).
    constructor; unfold coord_ok; simpl; try done.
    right. repeat split; try done; by exists d0.
  - (* fetch_add *)
    assert (finished_ q = false) as Hf by (eapply not_finished_if_running; eauto; done).
    constructor; unfold coord_ok; simpl; try done;
      first [ apply wrap_in_range
            | solve [rewrite Hf; done]
            | solve [intros Hw; destruct (Hwd Hw); congruence]
            | solve [eapply coord_inv_worker; eauto; done]
            | solve [rewrite Hfifo; by rewrite <- !app_assoc] ].
  - (* leaving the loop *)
    constructor; unfold coord_ok; simpl; try done.
    + intros Hq. specialize (Hfin Hq). by apply Forall_insert.
    + by eapply coord_inv_worker; eauto.
  - (* page opened *)
    assert (finished_ q = false) as Hf by (eapply not_finished_if_running; eauto; done).
    constructor; unfold coord_ok; simpl; try done;
      first [ apply wrap_in_range
            | solve [rewrite Hf; done]
            | solve [intros Hw; destruct (Hwd Hw); congruence]
            | solve [eapply coord_inv_worker; eauto; done]
            | solve [rewrite Hfifo; by rewrite <- !app_assoc] ].
  - (* page could not be opened *)
    assert (finished_ q = false) as Hf by (eapply not_finished_if_running; eauto; done).
    constructor; unfold coord_ok; simpl; try done;
      first [ apply wrap_in_range
            | solve [rewrite Hf; done]
            | solve [intros Hw; destruct (Hwd Hw); congruence]
            | solve [eapply coord_inv_worker; eauto; done]
            | solve [rewrite Hfifo; by rewrite <- !app_assoc] ].
  - (* push *)
    assert (finished_ q = false) as Hf by (eapply not_finished_if_running; eauto; done).
    constructor; unfold coord_ok; simpl; try done;
      first [ apply wrap_in_range
            | solve [rewrite Hf; done]
            | solve [intros Hw; destruct (Hwd Hw); congruence]
            | solve [eapply coord_inv_worker; eauto; done]
            | solve [rewrite Hfifo; by rewrite <- !app_assoc] ].
  - (* pop *)
    constructor; unfold coord_ok; simpl; try done.
    + rewrite Hfifo, H0. done.
    + by eapply coord_inv_writer; eauto.
  - (* pop at the end *)
    constructor; unfold coord_ok; simpl; try done.
    by eapply coord_inv_writer; eauto.
  - (* the writer's loop body *)
    constructor; unfold coord_ok; simpl; try done.
    + rewrite Hfifo. simpl. by rewrite <- app_assoc.
    + by eapply coord_inv_writer; eauto.
  - (* create_directories throws *)
    constructor; unfold coord_ok; simpl; try done.
Qed.

Lemma wf_step e s s' : wf e s -> step e s s' -> wf e s'.
Proof. intros Hwf [_ Ht]%step_transition. eauto using wf_transition. Qed.

(** Induction along an execution of [process_pdf]. *)
Lemma reachable_ind e w (P : state -> Prop) :
  P (init_state w) ->
  (forall s s', reachable e w s -> P s -> step e s s' -> P s') ->
  forall s, reachable e w s -> P s.
Proof.
  intros Hinit Hstep. unfold reachable. apply rtc_ind_r; [done|].
  intros y z Hy Hyz IH. by eapply Hstep.
Qed.

Lemma wf_reachable e w s : reachable e w s -> wf e s.
Proof.
  revert s. apply reachable_ind; [apply wf_init|].
  intros s s' _ Hwf Hst. eauto using wf_step.
Qed.

(** ** Termination: [rank] decreases along every step *)

Lemma in_range_bounds z : Int32.in_range z <-> -2147483648 <= z <= 2147483647.
Proof. reflexivity. Qed.

Lemma BIG_value : BIG = 21474836480.
Proof. reflexivity. Qed.

Lemma worker_rank_bounds P w : 0 <= worker_rank P w <= BIG + 4.
Proof.
  rewrite BIG_value. destruct w; simpl; rewrite ?BIG_value; try lia.
  destruct (id >=? P); lia.
Qed.

Lemma sum_over_app f l1 l2 : sum_over f (l1 ++ l2) = sum_over f l1 + sum_over f l2.
Proof. induction l1 as [|w l1 IH]; simpl; lia. Qed.

Lemma sum_over_insert f l i x y :
  l !! i = Some x -> sum_over f (<[i:=y]> l) = sum_over f l - f x + f y.
Proof.
  revert i. induction l as [|w l IH]; intros [|i] Hi; simplify_eq/=; [lia|].
  rewrite (IH i Hi). lia.
Qed.

Lemma sum_over_bounds f l a b :
  (forall w, a <= f w <= b) ->
  a * Z.of_nat (length l) <= sum_over f l <= b * Z.of_nat (length l).
Proof.
  intros Hf. induction l as [|w l IH]; simpl; [lia|].
  pose proof (Hf w). lia.
Qed.

Lemma workers_rank_nonneg P l : 0 <= workers_rank P l.
Proof.
  pose proof (sum_over_bounds (worker_rank P) l 0 (BIG + 4) (worker_rank_bounds P)).
  unfold workers_rank. lia.
Qed.

Lemma workers_rank_app P l1 l2 :
  workers_rank P (l1 ++ l2) = workers_rank P l1 + workers_rank P l2.
Proof. apply sum_over_app. Qed.

Lemma workers_rank_insert P l i x y :
  l !! i = Some x ->
  workers_rank P (<[i:=y]> l) = workers_rank P l - worker_rank P x + worker_rank P y.
Proof. apply sum_over_insert. Qed.

Lemma coord_rank_nonneg e c n : 0 <= coord_rank e c n.
Proof. pose proof BIG_value. destruct c; simpl; nia. Qed.

Lemma writer_rank_nonneg w : 0 <= writer_rank w.
Proof. destruct w as [[]|]; simpl; lia. Qed.

Lemma rank_body_nonneg e s : 0 <= rank_body e s.
Proof.
  unfold rank_body. destruct (st_terminated s); [lia|].
  pose proof (workers_rank_nonneg (st_num_pages s) (st_threads s)).
  pose proof (coord_rank_nonneg e (st_coord s) (length (st_threads s))).
  pose proof (writer_rank_nonneg (st_writer s)).
  lia.
Qed.

Lemma rank_nonneg e s : 0 <= rank e s.
Proof.
  unfold rank. destruct (st_coord s); try apply rank_body_nonneg.
  destruct (coord_step e s) as [s'|]; [|lia].
  pose proof (rank_body_nonneg e s'). lia.
Qed.

Lemma rank_not_load e s : st_coord s <> CLoad -> rank e s = rank_body e s.
Proof. unfold rank. by destruct (st_coord s). Qed.

Lemma running_not_load e s i x :
  coord_ok e s -> st_threads s !! i = Some x -> st_coord s <> CLoad.
Proof.
  unfold coord_ok. intros Hco Hi Hload. rewrite Hload in Hco.
  destruct Hco as (Hnil & _). by rewrite Hnil in Hi.
Qed.

Lemma writing_not_load e s w :
  coord_ok e s -> st_writer s = Some w -> st_coord s <> CLoad.
Proof.
  unfold coord_ok. intros Hco Hi Hload. rewrite Hload in Hco.
  destruct Hco as (_ & Hnone & _). congruence.
Qed.

Lemma rank_decreases e s s' :
  wf e s -> st_terminated s = false -> transition e s s' ->
  rank e s' < rank e s.
Proof.
  intros [Hc Hp _ _ _ Hco] Hterm Ht.
  assert (-2147483648 <= st_current_page s <= 2147483647) as Hc' by exact Hc.
  assert (-2147483648 <= st_num_pages s <= 2147483647) as Hp' by exact Hp.
  pose proof BIG_value as HB.
  pose proof (workers_rank_nonneg (st_num_pages s) (st_threads s)) as Hl.
  pose proof (writer_rank_nonneg (st_writer s)) as Hw.
  destruct Ht.
  1-9: unfold coord_ok in Hco.
  1-9: unfold rank, coord_step; repeat match goal with H : _ = _ |- _ => rewrite H end;
       unfold rank_body; simpl; rewrite ?Hterm; rewrite ?H in *; simpl in *.
  1-9: rewrite ?workers_rank_app, ?length_app; simpl.
  - pose proof (coord_rank_nonneg e CReturned (length (st_threads s))). simpl in *. lia.
  - lia.
  - nia.
  - nia.
  - destruct Hco as (_ & Hwn & _). rewrite Hwn in *. simpl. lia.
  - apply lookup_lt_Some in H0. lia.
  - lia.
  - lia.
  - rewrite H0 in *. simpl in *. lia.
  - (* fetch_add *)
    rewrite !rank_not_load by (simpl; eauto using running_not_load).
    unfold rank_body; simpl. rewrite Hterm, length_insert.
    rewrite (workers_rank_insert _ _ _ _ _ H). simpl.
    pose proof (wrap_in_range (st_current_page s + 1)) as Hwr.
    assert (-2147483648 <= Int32.wrap (st_current_page s + 1) <= 2147483647) as Hwr'
      by exact Hwr.
    destruct (Z.geb_spec (st_current_page s) (st_num_pages s)).
    + lia.
    + rewrite wrap_id in * by (apply in_range_bounds; lia). lia.
  - (* leaving the loop *)
    rewrite !rank_not_load by (simpl; eauto using running_not_load).
    unfold rank_body; simpl. rewrite Hterm, length_insert.
    rewrite (workers_rank_insert _ _ _ _ _ H). simpl.
    destruct (Z.geb_spec id (st_num_pages s)); lia.
  - (* page opened *)
    rewrite !rank_not_load by (simpl; eauto using running_not_load).
    unfold rank_body; simpl. rewrite Hterm, length_insert.
    rewrite (workers_rank_insert _ _ _ _ _ H). simpl.
    destruct (Z.geb_spec id (st_num_pages s)); lia.
  - (* page could not be opened *)
    rewrite !rank_not_load by (simpl; eauto using running_not_load).
    unfold rank_body; simpl. rewrite Hterm, length_insert.
    rewrite (workers_rank_insert _ _ _ _ _ H). simpl.
    destruct (Z.geb_spec id (st_num_pages s)); lia.
  - (* push *)
    rewrite !rank_not_load by (simpl; eauto using running_not_load).
    unfold rank_body; simpl. rewrite Hterm, length_insert.
    rewrite (workers_rank_insert _ _ _ _ _ H). simpl.
    rewrite length_app. simpl. lia.
  - (* pop *)
    rewrite !rank_not_load by (simpl; eauto using writing_not_load).
    unfold rank_body; simpl. rewrite Hterm, H, H0. simpl. lia.
  - rewrite !rank_not_load by (simpl; eauto using writing_not_load).
    unfold rank_body; simpl. rewrite Hterm, H. simpl. lia.
  - rewrite !rank_not_load by (simpl; eauto using writing_not_load).
    unfold rank_body; simpl. rewrite Hterm, H. simpl. lia.
  - (* std::terminate *)
    rewrite !rank_not_load by (simpl; eauto using writing_not_load).
    unfold rank_body; simpl. rewrite Hterm.
    pose proof (coord_rank_nonneg e (st_coord s) (length (st_threads s))).
    pose proof (Zle_0_nat (length (queue_ (st_queue s)))). lia.
Qed.

(** ** What the claims log records *)

Lemma running_doc_open e s i x :
  wf e s -> st_threads s !! i = Some x -> x <> WDone ->
  doc_open e (st_doc s) (st_num_pages s).
Proof.
  intros [_ _ _ Hfin Hwd Hco] Hi Hx. unfold coord_ok in Hco.
  assert (finished_ (st_queue s) = false) as Hf
    by eauto using not_finished_if_running.
  destruct (st_coord s); simpl in Hco.
  - destruct Hco as (Hnil & _). by rewrite Hnil in Hi.
  - by destruct_and?.
  - by destruct_and?.
  - by destruct_and?.
  - by destruct_and?.
  - by destruct_and?.
  - destruct Hco as [(_ & Hnil & _)|(Hw & _)].
    + by rewrite Hnil in Hi.
    + destruct (Hwd Hw). congruence.
Qed.

Lemma claims_ok_init e w : claims_ok e (init_state w).
Proof.
  constructor; simpl; try done.
  - lia.
  - intros id Hid. by apply elem_of_nil in Hid.
  - intros ???? Hin. by apply elem_of_nil in Hin.
  - intros r [Hin|[w' Hw]]; [by apply elem_of_nil in Hin|done].
Qed.

Lemma lookup_snoc_running (l : list worker_pc) w x :
  (l ++ [WFetch]) !! w = Some x -> x <> WFetch -> l !! w = Some x.
Proof.
  intros Hl Hx. apply lookup_app_Some in Hl as [Hl|[_ Hl]]; [done|].
  apply list_lookup_singleton_Some in Hl as [_ <-]. done.
Qed.

Lemma elem_of_snoc {A} (l : list A) (x y : A) : y ∈ l ++ [x] <-> y ∈ l \/ y = x.
Proof. rewrite elem_of_app, list_elem_of_singleton. done. Qed.

Lemma elem_of_snd_snoc (l : list (nat * Z)) (w : nat) (x y : Z) :
  y ∈ (l ++ [(w, x)]).*2 <-> y ∈ l.*2 \/ y = x.
Proof. rewrite fmap_app. simpl. apply elem_of_snoc. Qed.

Lemma claims_ok_transition e s s' :
  wf e s -> claims_ok e s -> transition e s s' -> claims_ok e s'.
Proof.
  intros Hwf [Hfresh Hahead Hend Hheld Hdone Hres Horig] Ht.
  destruct Ht.
  all: try (constructor; simpl; solve [done | intros; congruence]).
  - (* load *)
    destruct (Hfresh H) as [Hcl Hpu].
    destruct Hwf as [_ _ _ _ _ Hco]. unfold coord_ok in Hco. rewrite H in Hco.
    destruct Hco as (Hnil & _).
    constructor; simpl; rewrite ?Hcl, ?Hpu, ?Hnil; simpl; try done.
    + intros; lia.
    + intros id Hid. by apply elem_of_nil in Hid.
    + intros ???? Hin. by apply elem_of_nil in Hin.
    + intros r [Hin|[w' Hw]]; [by apply elem_of_nil in Hin|done].
  - (* spawn *)
    constructor; simpl; try done.
    + intros w id Hw. apply Hheld. by apply lookup_snoc_running in Hw.
    + intros w Hw. apply Hdone. by apply lookup_snoc_running in Hw.
    + intros w j d pg Hin Hj Hd Hpg.
      destruct (Hres w j d pg Hin Hj Hd Hpg) as [Hw|[Hw|Hw]];
        [left|right; left|right; right]; try done; by apply lookup_app_l_Some.
    + intros r [Hin|[w Hw]]; apply Horig; [by left|right].
      exists w. by apply lookup_snoc_running in Hw.
  - (* fetch_add *)
    pose proof (lookup_lt_Some _ _ _ H) as Hlen.
    constructor; simpl.
    + intros Hload. exfalso. eapply running_not_load; eauto using wf_coord.
    + intros j Hj. rewrite elem_of_snd_snoc.
      destruct (Hahead j Hj) as [Hin|Hcp]; [by left; left|].
      destruct (decide (j = st_current_page s)) as [->|Hne]; [by left; right|].
      right. pose proof (wf_pages _ _ Hwf) as HP.
      assert (st_num_pages s <= 2147483647) by apply HP.
      rewrite wrap_id by (apply in_range_bounds; lia). lia.
    + intros id Hid HP j Hj. rewrite elem_of_snd_snoc in *.
      destruct Hid as [Hid| ->].
      * left. eauto.
      * destruct (Hahead j Hj) as [Hin|Hcp]; [by left|lia].
    + intros w id Hw. rewrite elem_of_snoc.
      apply list_lookup_insert_Some in Hw as [(-> & Heq & _)|(Hne & Hw)].
      * simplify_eq. by right.
      * left. eauto.
    + intros w Hw.
      apply list_lookup_insert_Some in Hw as [(-> & Heq & _)|(Hne & Hw)]; [done|].
      destruct (Hdone w Hw) as (id & Hid & HP). exists id.
      rewrite elem_of_snoc. by split; [left|].
    + intros w j d pg Hin Hj Hd Hpg. apply elem_of_snoc in Hin as [Hin|Hin].
      * destruct (Hres w j d pg Hin Hj Hd Hpg) as [Hw|[Hw|Hw]];
          [left|right; left|by right; right];
          (rewrite list_lookup_insert_ne; [done|congruence]).
      * simplify_eq. left. by apply list_lookup_insert_eq.
    + intros r Hr.
      destruct (Horig r) as (d & pg & ? & ? & ? & ? & ?).
      { destruct Hr as [Hin|[w Hw]]; [by left|right].
        apply list_lookup_insert_Some in Hw as [(-> & Heq & _)|(Hne & Hw)]; [done|eauto]. }
      exists d, pg. repeat split; try done. rewrite elem_of_snd_snoc. by left.
  - (* leaving the loop *)
    constructor; simpl; try done.
    + intros w id' Hw.
      apply list_lookup_insert_Some in Hw as [(-> & Heq & _)|(Hne & Hw)]; [done|eauto].
    + intros w Hw.
      apply list_lookup_insert_Some in Hw as [(-> & Heq & _)|(Hne & Hw)]; [|eauto].
      exists id. split; [eauto|lia].
    + intros w j d pg Hin Hj Hd Hpg.
      destruct (Hres w j d pg Hin Hj Hd Hpg) as [Hw|[Hw|Hw]];
        [left|right; left|by right; right];
        (rewrite list_lookup_insert_ne; [done|]); intros ->; simplify_eq; lia.
    + intros r Hr. apply Horig.
      destruct Hr as [Hin|[w Hw]]; [by left|right].
      apply list_lookup_insert_Some in Hw as [(-> & Heq & _)|(Hne & Hw)]; [done|eauto].
  - (* page opened *)
    destruct (running_doc_open e s i (WCheck id) Hwf H ltac:(done))
      as (d0 & Hd0 & HP & Hlf).
    assert (d0 = d) as -> by congruence.
    pose proof (lookup_lt_Some _ _ _ H) as Hlen.
    constructor; simpl; try done.
    + intros w id' Hw.
      apply list_lookup_insert_Some in Hw as [(-> & Heq & _)|(Hne & Hw)]; [done|eauto].
    + intros w Hw.
      apply list_lookup_insert_Some in Hw as [(-> & Heq & _)|(Hne & Hw)]; [done|eauto].
    + intros w j d' pg' Hin Hj Hd Hpg.
      destruct (decide (w = i)) as [->|Hne].
      * destruct (Hres i j d' pg' Hin Hj Hd Hpg) as [Hw|[Hw|Hw]]; [|congruence|by right; right].
        right; left. simplify_eq. by apply list_lookup_insert_eq.
      * rewrite list_lookup_insert_ne by done. eauto.
    + intros r Hr.
      destruct Hr as [Hin|[w Hw]]; [apply Horig; by left|].
      apply list_lookup_insert_Some in Hw as [(-> & Heq & _)|(Hne & Hw)]; [|apply Horig; eauto].
      simplify_eq. exists d, pg. simpl. repeat split; try done.
      apply (list_elem_of_fmap_2 snd _ _ (Hheld _ _ H)).
  - (* page could not be opened *)
    destruct (running_doc_open e s i (WCheck id) Hwf H ltac:(done))
      as (d0 & Hd0 & HP & Hlf).
    assert (d0 = d) as -> by congruence.
    constructor; simpl; try done.
    + intros w id' Hw.
      apply list_lookup_insert_Some in Hw as [(-> & Heq & _)|(Hne & Hw)]; [done|eauto].
    + intros w Hw.
      apply list_lookup_insert_Some in Hw as [(-> & Heq & _)|(Hne & Hw)]; [done|eauto].
    + intros w j d' pg' Hin Hj Hd Hpg.
      destruct (Hres w j d' pg' Hin Hj Hd Hpg) as [Hw|[Hw|Hw]];
        [left|right; left|by right; right];
        (rewrite list_lookup_insert_ne; [done|]); intros ->; simplify_eq.
    + intros r Hr. apply Horig.
      destruct Hr as [Hin|[w Hw]]; [by left|right].
      apply list_lookup_insert_Some in Hw as [(-> & Heq & _)|(Hne & Hw)]; [done|eauto].
  - (* push *)
    constructor; simpl.
    + intros Hload. exfalso. eapply running_not_load; eauto using wf_coord.
    + done.
    + done.
    + intros w id' Hw.
      apply list_lookup_insert_Some in Hw as [(-> & Heq & _)|(Hne & Hw)]; [done|eauto].
    + intros w Hw.
      apply list_lookup_insert_Some in Hw as [(-> & Heq & _)|(Hne & Hw)]; [done|eauto].
    + intros w j d' pg' Hin Hj Hd Hpg. rewrite elem_of_snoc.
      destruct (Hres w j d' pg' Hin Hj Hd Hpg) as [Hw|[Hw|Hw]].
      * left. rewrite list_lookup_insert_ne; [done|congruence].
      * destruct (decide (w = i)) as [->|Hne].
        -- right; right; right. congruence.
        -- right; left. by rewrite list_lookup_insert_ne.
      * by right; right; left.
    + intros r' Hr. apply Horig. rewrite elem_of_snoc in Hr.
      destruct Hr as [[Hin| ->]|[w Hw]]; [by left|eauto|right].
      apply list_lookup_insert_Some in Hw as [(-> & Heq & _)|(Hne & Hw)]; [done|eauto].
Qed.

Lemma claims_ok_reachable e w s : reachable e w s -> claims_ok e s.
Proof.
  revert s. apply reachable_ind; [apply claims_ok_init|].
  intros s s' Hr Hck [_ Ht]%step_transition.
  eauto using claims_ok_transition, wf_reachable.
Qed.

(** ** Progress: only a finished or terminated system has no step *)

Lemma progress e s :
  wf e s -> st_terminated s = false -> st_coord s <> CReturned ->
  exists s', step e s s'.
Proof.
  intros [_ _ _ _ _ Hco] Hterm Hret. unfold coord_ok in Hco.
  cut (exists s', transition e s s').
  { intros [s' Ht]. exists s'. by apply step_transition. }
  destruct (st_coord s) eqn:Hc; simpl in Hco; [| | | | | |done].
  - destruct (load_from_file e (pdf_path e)) eqn:Hl;
      eauto using T_load_ok, T_load_fail.
  - destruct (Z.lt_ge_cases i (thread_count e)); eauto using T_spawn, T_spawn_end.
  - eauto using T_spawn_writer.
  - destruct Hco as (_ & _ & _ & _ & _ & d & Hd & HP & _).
    destruct (st_threads s !! k) as [[| id | r |]|] eqn:Hk;
      eauto using T_fetch, T_push, T_join, T_join_end.
    destruct (Z.le_gt_cases (st_num_pages s) id); [eauto using T_exit|].
    destruct (doc_create_page d id) eqn:Hpg; eauto using T_open, T_skip.
  - eauto using T_set_finished.
  - destruct Hco as (_ & Hw & Hf & _).
    destruct (st_writer s) as [[| r |]|] eqn:Hwr; [| | |done].
    + destruct (queue_ (st_queue s)) eqn:Hq; eauto using T_pop, T_pop_end.
    + destruct (write_page (output_dir e) r (w_fs (st_world s))) as [fs []] eqn:Hwp;
        eauto using T_write, T_write_throw.
    + eauto using T_join_writer.
Qed.

Lemma elem_of_successors e s s' : s' ∈ successors e s <-> step e s s'.
Proof.
  unfold successors, step. rewrite list_elem_of_omap. split.
  - intros (t & _ & Ht). eauto.
  - intros (t & Ht). exists t. split; [|done].
    unfold threads_of. destruct t as [| |i]; [set_solver|set_solver|].
    do 2 apply list_elem_of_further. apply list_elem_of_fmap_2, elem_of_seq.
    unfold step_thread, worker_step in Ht.
    destruct (st_terminated s); [done|].
    destruct (st_threads s !! i) eqn:Hi; [|done].
    apply lookup_lt_Some in Hi. lia.
Qed.

Lemma halted_true e s : halted e s = true <-> forall s', ~ step e s s'.
Proof.
  unfold halted. split.
  - intros H s' Hs. apply elem_of_successors in Hs.
    destruct (successors e s); [by apply elem_of_nil in Hs|done].
  - intros H. destruct (successors e s) as [|s' l] eqn:Hsucc; [done|].
    destruct (H s'). apply elem_of_successors. rewrite Hsucc. left.
Qed.

Lemma step_sched_step sched e s :
  halted e s = false -> step e s (step_sched sched e s).
Proof.
  unfold halted, step_sched. intros H.
  destruct (successors e s) as [|s0 l] eqn:Hsucc; [done|].
  destruct ((s0 :: l) !! (sched s mod length (s0 :: l))%nat) as [s'|] eqn:Hl.
  - apply elem_of_successors. rewrite Hsucc. eapply list_elem_of_lookup_2, Hl.
  - apply lookup_ge_None in Hl.
    pose proof (Nat.mod_upper_bound (sched s) (length (s0 :: l))). simpl in *. lia.
Qed.

Lemma step_sched_halted sched e s :
  halted e s = true -> step_sched sched e s = s.
Proof.
  unfold halted, step_sched. by destruct (successors e s).
Qed.

Lemma run_unfold sched e p s :
  run sched e p s =
  if halted e s then s
  else match p with
       | xH => step_sched sched e s
       | xO p' => run sched e p' (run sched e p' s)
       | xI p' => step_sched sched e (run sched e p' (run sched e p' s))
       end.
Proof. by destruct p. Qed.

Lemma step_sched_rtc sched e s : rtc (step e) s (step_sched sched e s).
Proof.
  destruct (halted e s) eqn:Hh.
  - by rewrite step_sched_halted.
  - apply rtc_once. by apply step_sched_step.
Qed.

Lemma run_rtc sched e p s : rtc (step e) s (run sched e p s).
Proof.
  revert s. induction p as [p IH|p IH|]; intros s; rewrite run_unfold;
    destruct (halted e s) eqn:Hh; try done.
  - etrans; [apply IH|]. etrans; [apply IH|]. apply step_sched_rtc.
  - etrans; [apply IH|]. apply IH.
  - apply step_sched_rtc.
Qed.

Lemma wf_rtc e s s' : wf e s -> rtc (step e) s s' -> wf e s'.
Proof. intros Hwf Hrtc. induction Hrtc; eauto using wf_step. Qed.

Lemma step_rank e s s' : wf e s -> step e s s' -> rank e s' < rank e s.
Proof. intros Hwf [Hterm Ht]%step_transition. by apply rank_decreases. Qed.

Lemma step_sched_rank sched e s :
  wf e s ->
  halted e (step_sched sched e s) = true
  \/ rank e (step_sched sched e s) + 1 <= rank e s.
Proof.
  intros Hwf. destruct (halted e s) eqn:Hh.
  - left. by rewrite step_sched_halted.
  - right. pose proof (step_rank e s _ Hwf (step_sched_step sched e s Hh)). lia.
Qed.

Lemma run_rank sched e p s :
  wf e s ->
  halted e (run sched e p s) = true
  \/ rank e (run sched e p s) + Z.pos p <= rank e s.
Proof.
  revert s. induction p as [p IH|p IH|]; intros s Hwf; rewrite run_unfold;
    destruct (halted e s) eqn:Hh; try (by left).
  - set (s1 := run sched e p s). set (s2 := run sched e p s1).
    assert (wf e s1) as Hwf1 by (eapply wf_rtc; [done|apply run_rtc]).
    assert (wf e s2) as Hwf2 by (eapply wf_rtc; [exact Hwf1|apply run_rtc]).
    destruct (IH s Hwf) as [H1|H1]; fold s1 in H1.
    { left. subst s2. rewrite (run_unfold _ _ _ s1), H1.
      by rewrite step_sched_halted. }
    destruct (IH s1 Hwf1) as [H2|H2]; fold s2 in H2.
    { left. by rewrite step_sched_halted. }
    destruct (step_sched_rank sched e s2 Hwf2) as [H3|H3]; [by left|right]. lia.
  - set (s1 := run sched e p s). set (s2 := run sched e p s1).
    assert (wf e s1) as Hwf1 by (eapply wf_rtc; [done|apply run_rtc]).
    destruct (IH s Hwf) as [H1|H1]; fold s1 in H1.
    { left. subst s2. by rewrite (run_unfold _ _ _ s1), H1. }
    destruct (IH s1 Hwf1) as [H2|H2]; fold s2 in H2; [by left|right]. lia.
  - apply step_sched_rank; done.
Qed.

Lemma run_halts sched e p s :
  wf e s -> rank e s <= Z.pos p -> halted e (run sched e p s) = true.
Proof.
  intros Hwf Hp. destruct (run_rank sched e p s Hwf) as [H|H]; [done|].
  destruct (halted e (run sched e p s)) eqn:Hh; [done|].
  assert (wf e (run sched e p s)) as Hwf' by (eapply wf_rtc; [done|apply run_rtc]).
  pose proof (step_rank _ _ _ Hwf' (step_sched_step sched e _ Hh)).
  pose proof (rank_nonneg e (step_sched sched e (run sched e p s))). lia.
Qed.

(** [process_pdf] returns: under every scheduler the run stops in a state
    that is reachable and has no step left. *)
Lemma process_pdf_halts sched e w :
  reachable e w (process_pdf sched e w)
  /\ halted e (process_pdf sched e w) = true.
Proof.
  unfold process_pdf. split; [apply run_rtc|].
  apply run_halts; [apply wf_init|].
  pose proof (rank_nonneg e (init_state w)).
  destruct (rank e (init_state w)); simpl; lia.
Qed.


(** ** Without wrap-around every index is claimed once *)

Lemma exhausted_bounds P w : 0 <= exhausted P w <= 1.
Proof. destruct w; simpl; try lia. destruct (P <=? id); lia. Qed.

Lemma pool_bound e s : wf e s -> Z.of_nat (length (st_threads s)) <= pool_size e.
Proof.
  intros [_ _ _ _ _ Hco]. unfold coord_ok in Hco.
  assert (0 <= pool_size e) by (unfold pool_size; lia).
  destruct (st_coord s); simpl in Hco.
  - destruct Hco as (-> & _). simpl. lia.
  - destruct Hco as (? & ? & _). lia.
  - destruct Hco as (? & _). lia.
  - destruct Hco as (? & _). lia.
  - destruct Hco as (? & _). lia.
  - destruct Hco as (? & _). lia.
  - destruct Hco as [(_ & -> & _)|(_ & ? & _)]; simpl; lia.
Qed.

Lemma pending_app l1 l2 : pending (l1 ++ l2) = pending l1 ++ pending l2.
Proof. apply bind_app. Qed.

Lemma pending_cons w l : pending (w :: l) = pending_of w ++ pending l.
Proof. reflexivity. Qed.

(** Replacing the program point of one worker replaces what it holds. *)
Lemma pending_insert l i x y :
  l !! i = Some x ->
  exists rest, pending l ≡ₚ pending_of x ++ rest
            /\ pending (<[i:=y]> l) ≡ₚ pending_of y ++ rest.
Proof.
  intros Hi. exists (pending (take i l) ++ pending (drop (S i) l)).
  pose proof (lookup_lt_Some _ _ _ Hi) as Hlen.
  rewrite insert_take_drop by done.
  rewrite <- (take_drop_middle l i x Hi) at 1.
  rewrite !pending_app, !pending_cons.
  split; apply Permutation_app_swap_app.
Qed.

Lemma claims_unique_init w : claims_unique (init_state w).
Proof.
  constructor; simpl; try done.
  - apply NoDup_nil_2.
Qed.

Lemma claims_unique_transition e s s' :
  no_wrap e -> wf e s -> claims_ok e s -> claims_unique s ->
  transition e s s' -> claims_unique s'.
Proof.
  intros Hnw Hwf Hck [Hseq Hcnt Hbound Hnd Hsub] Ht.
  destruct Ht.
  all: try (constructor; simpl; done).
  - (* load *)
    destruct (ck_fresh _ _ Hck H) as [Hcl Hpu].
    pose proof (wf_coord _ _ Hwf) as Hco. unfold coord_ok in Hco. rewrite H in Hco.
    destruct Hco as (Hnil & _).
    constructor; simpl; rewrite ?Hcl, ?Hpu, ?Hnil; simpl; try done.
    + lia.
    + apply NoDup_nil_2.
  - (* spawn *)
    constructor; simpl; try done.
    + rewrite sum_over_app. simpl. lia.
    + rewrite pending_app. simpl. by rewrite app_nil_r.
    + rewrite pending_app. simpl. by rewrite app_nil_r.
  - (* fetch_add *)
    destruct (running_doc_open e s i WFetch Hwf H ltac:(done)) as (d & Hd & HP & Hlf).
    pose proof (Hnw d Hlf) as Hb. rewrite <- HP in Hb.
    change (2 ^ 31) with 2147483648 in Hb.
    pose proof (pool_bound e s Hwf) as Hpool.
    assert (sum_over (exhausted (st_num_pages s)) (st_threads s) + 1
            <= Z.of_nat (length (st_threads s))) as HE.
    { pose proof (sum_over_insert (exhausted (st_num_pages s)) _ i WFetch WDone H) as Hi.
      pose proof (sum_over_bounds (exhausted (st_num_pages s))
                    (<[i:=WDone]> (st_threads s)) 0 1
                    (exhausted_bounds (st_num_pages s))) as Hs.
      rewrite length_insert in Hs. simpl in Hi. lia. }
    assert (st_current_page s = Z.of_nat (length (h_claims (st_hist s)))) as Hcp.
    { rewrite Hcnt. apply wrap_id, in_range_bounds. lia. }
    destruct (pending_insert _ i WFetch (WCheck (st_current_page s)) H)
      as (rest & Hp1 & Hp2). simpl in Hp1, Hp2.
    constructor; simpl.
    + rewrite fmap_app, length_app, Hseq. simpl.
      rewrite Hcp, Nat.add_1_r, seqZ_S. done.
    + rewrite length_app. simpl. rewrite Hcp. f_equal. lia.
    + rewrite length_app, (sum_over_insert _ _ _ _ _ H). simpl.
      pose proof (sum_over_bounds (exhausted (st_num_pages s)) (st_threads s) 0 1
                    (exhausted_bounds (st_num_pages s))).
      rewrite Hcp. destruct (Z.leb_spec (st_num_pages s)
                               (Z.of_nat (length (h_claims (st_hist s))))); lia.
    + rewrite Hp2, <- Permutation_middle. apply NoDup_cons. split.
      * intros Hin. rewrite <- Hp1 in Hin. apply Hsub in Hin.
        rewrite Hseq in Hin. apply elem_of_seqZ in Hin. lia.
      * by rewrite <- Hp1.
    + intros x Hx. rewrite Hp2, <- Permutation_middle in Hx.
      rewrite elem_of_snd_snoc. apply elem_of_cons in Hx as [->|Hx]; [by right|left].
      apply Hsub. by rewrite Hp1.
  - (* leaving the loop *)
    destruct (pending_insert _ i (WCheck id) WDone H) as (rest & Hp1 & Hp2).
    simpl in Hp1, Hp2. rewrite Hp1 in Hnd. rewrite <- Permutation_middle in Hnd.
    apply NoDup_cons in Hnd as [_ Hnd].
    constructor; simpl; try done.
    + rewrite (sum_over_insert _ _ _ _ _ H). simpl.
      destruct (Z.leb_spec (st_num_pages s) id); lia.
    + by rewrite Hp2.
    + intros x Hx. apply Hsub. rewrite Hp1, <- Permutation_middle.
      apply elem_of_cons. right. by rewrite <- Hp2.
  - (* page opened *)
    destruct (pending_insert _ i (WCheck id)
                (WPush (process_page (Some pg) (Path.stem (pdf_path e)) id)) H)
      as (rest & Hp1 & Hp2).
    simpl in Hp1, Hp2. rewrite <- Hp1 in Hp2.
    constructor; simpl; try done.
    + rewrite (sum_over_insert _ _ _ _ _ H). simpl.
      destruct (Z.leb_spec (st_num_pages s) id); lia.
    + by rewrite Hp2.
    + intros x Hx. apply Hsub. by rewrite <- Hp2.
  - (* page could not be opened *)
    destruct (pending_insert _ i (WCheck id) WFetch H) as (rest & Hp1 & Hp2).
    simpl in Hp1, Hp2. rewrite Hp1 in Hnd. rewrite <- Permutation_middle in Hnd.
    apply NoDup_cons in Hnd as [_ Hnd].
    constructor; simpl; try done.
    + rewrite (sum_over_insert _ _ _ _ _ H). simpl.
      destruct (Z.leb_spec (st_num_pages s) id); lia.
    + by rewrite Hp2.
    + intros x Hx. apply Hsub. rewrite Hp1, <- Permutation_middle.
      apply elem_of_cons. right. by rewrite <- Hp2.
  - (* push *)
    destruct (pending_insert _ i (WPush r) WFetch H) as (rest & Hp1 & Hp2).
    simpl in Hp1, Hp2.
    assert ((page_id <$> h_pushed (st_hist s) ++ [r])
              ++ pending (<[i:=WFetch]> (st_threads s))
            ≡ₚ (page_id <$> h_pushed (st_hist s)) ++ pending (st_threads s)) as HL.
    { rewrite Hp1, Hp2, fmap_app. simpl. by rewrite <- app_assoc. }
    constructor; simpl; try done.
    + rewrite (sum_over_insert _ _ _ _ _ H). simpl. lia.
    + by rewrite HL.
    + intros x Hx. apply Hsub. by rewrite <- HL.
Qed.

Lemma claims_unique_reachable e w s :
  no_wrap e -> reachable e w s -> claims_unique s.
Proof.
  intros Hnw. revert s. apply reachable_ind; [apply claims_unique_init|].
  intros s s' Hr Hcu [_ Ht]%step_transition.
  eauto using claims_unique_transition, wf_reachable, claims_ok_reachable.
Qed.

(** ** What holds when [process_pdf] returns *)

Lemma exec_rtc e ts s s' : exec e ts s = Some s' -> rtc (step e) s s'.
Proof.
  revert s. induction ts as [|t ts IH]; intros s H; simpl in H.
  - by simplify_eq.
  - destruct (step_thread e t s) as [s1|] eqn:Hs; [|done]. simpl in H.
    eapply rtc_l; [by exists t|]. by apply IH.
Qed.

Lemma exec_reachable e w ts s : exec e ts (init_state w) = Some s -> reachable e w s.
Proof. apply exec_rtc. Qed.

Lemma returned_all_done e s :
  wf e s -> st_coord s = CReturned -> Forall (eq WDone) (st_threads s).
Proof.
  intros Hwf Hc. pose proof (wf_coord _ _ Hwf) as Hco.
  unfold coord_ok in Hco. rewrite Hc in Hco.
  destruct Hco as [(_ & -> & _)|(Hw & _)]; [done|].
  apply (wf_finished _ _ Hwf). by destruct (wf_writer_done _ _ Hwf Hw).
Qed.

Lemma returned_loaded e s :
  wf e s -> st_coord s = CReturned -> is_Some (load_from_file e (pdf_path e)) ->
  st_writer s = Some WrDone
  /\ Z.of_nat (length (st_threads s)) = pool_size e
  /\ finished_ (st_queue s) = true
  /\ h_written (st_hist s) = h_pushed (st_hist s).
Proof.
  intros Hwf Hc [d Hd]. pose proof (wf_coord _ _ Hwf) as Hco.
  unfold coord_ok in Hco. rewrite Hc in Hco.
  destruct Hco as [(_ & _ & Hl & _)|(Hw & Hlen & _)]; [congruence|].
  destruct (wf_writer_done _ _ Hwf Hw) as [Hf Hq].
  repeat split; try done.
  rewrite (wf_fifo _ _ Hwf), Hw, Hq. simpl. by rewrite app_nil_r.
Qed.

(** With at least one worker, every page of the document has been claimed
    when [process_pdf] returns. *)
Lemma returned_all_claimed e s :
  wf e s -> claims_ok e s -> st_coord s = CReturned ->
  is_Some (load_from_file e (pdf_path e)) -> 1 <= thread_count e ->
  forall i, 0 <= i < st_num_pages s -> i ∈ (h_claims (st_hist s)).*2.
Proof.
  intros Hwf Hck Hc Hl Htc i Hi.
  destruct (returned_loaded e s Hwf Hc Hl) as (_ & Hlen & _).
  pose proof (returned_all_done e s Hwf Hc) as Hall.
  destruct (st_threads s !! 0%nat) as [x|] eqn:H0.
  - pose proof (Forall_done_insert _ _ _ Hall H0) as ->.
    destruct (ck_done _ _ Hck _ H0) as (id & Hid & HP).
    eapply (ck_end _ _ Hck id); eauto.
    apply (list_elem_of_fmap_2 snd _ _ Hid).
  - apply lookup_ge_None in H0. unfold pool_size in Hlen. lia.
Qed.

(** Every claimed page that opens has its result pushed by then. *)
Lemma returned_results e s d i pg w0 :
  wf e s -> claims_ok e s -> st_coord s = CReturned ->
  load_from_file e (pdf_path e) = Some d ->
  (w0, i) ∈ h_claims (st_hist s) -> i < st_num_pages s ->
  doc_create_page d i = Some pg ->
  result_of e pg i ∈ h_pushed (st_hist s).
Proof.
  intros Hwf Hck Hc Hl Hin Hi Hpg.
  pose proof (returned_all_done e s Hwf Hc) as Hall.
  destruct (ck_result _ _ Hck w0 i d pg Hin Hi Hl Hpg) as [Hw|[Hw|Hw]]; [| |done].
  - by pose proof (Forall_done_insert _ _ _ Hall Hw).
  - by pose proof (Forall_done_insert _ _ _ Hall Hw).
Qed.

(** The page count is the document's once it is loaded. *)
Lemma num_pages_loaded e w s d :
  reachable e w s -> load_from_file e (pdf_path e) = Some d ->
  st_coord s <> CLoad -> st_num_pages s = doc_pages d.
Proof.
  intros Hr Hl. revert s Hr. apply (reachable_ind e w (fun s => st_coord s <> CLoad -> st_num_pages s = doc_pages d)).
  - done.
  - intros s s' Hr IH [_ Ht]%step_transition Hc.
    destruct Ht; simpl in *; try (apply IH; congruence); try congruence.
    all: apply IH; eapply running_not_load; eauto using wf_coord, wf_reachable.
Qed.


Lemma halted_returned e s :
  wf e s -> halted e s = true -> st_terminated s = false -> st_coord s = CReturned.
Proof.
  intros Hwf Hh Hterm.
  assert (st_coord s = CReturned \/ st_coord s <> CReturned) as [|Hne]
    by (destruct (st_coord s); (by left) || (by right)); [done|].
  destruct (progress e s Hwf Hterm Hne) as [s' Hs].
  by destruct (proj1 (halted_true e s) Hh s').
Qed.


(** ** A document that cannot be loaded *)

Lemma load_failure_states e w s :
  load_from_file e (pdf_path e) = None -> reachable e w s ->
  s = init_state w \/ s = load_failed e w.
Proof.
  intros Hl. revert s. apply reachable_ind; [by left|].
  intros s s' _ Hs [_ Ht]%step_transition.
  destruct Hs as [-> | ->]; destruct Ht; simpl in *; try done; try congruence.
  by right.
Qed.

Lemma process_pdf_load_failure sched e w :
  load_from_file e (pdf_path e) = None -> process_pdf sched e w = load_failed e w.
Proof.
  intros Hl. destruct (process_pdf_halts sched e w) as [Hr Hh].
  destruct (load_failure_states e w _ Hl Hr) as [Heq|Heq]; [|done].
  rewrite Heq in Hh. apply halted_true with (s' := load_failed e w) in Hh.
  destruct Hh. exists Coordinator. unfold step_thread, coord_step. simpl.
  by rewrite Hl.
Qed.

(** ** The world along a run of [process_pdf] *)

Lemma world_along e w s :
  reachable e w s ->
  (st_coord s = CLoad -> st_world s = w /\ st_terminated s = false)
  /\ (st_coord s <> CLoad ->
      w_loaded (st_world s) = w_loaded w ++ [pdf_path e]
      /\ w_stderr (st_world s)
         = w_stderr w ++ match load_from_file e (pdf_path e) with
                         | None => [failed_to_open (pdf_path e)]
                         | Some _ => []
                         end).
Proof.
  revert s. apply reachable_ind; [by split|].
  intros s s' Hr [IH1 IH2] [_ Ht]%step_transition.
  pose proof (wf_coord _ _ (wf_reachable _ _ _ Hr)) as Hco.
  assert (forall i x, st_threads s !! i = Some x -> st_coord s <> CLoad) as Hrun
    by (intros; by eapply running_not_load).
  assert (forall x, st_writer s = Some x -> st_coord s <> CLoad) as Hwri
    by (intros; by eapply writing_not_load).
  destruct Ht; simpl.
  1-2: destruct (IH1 H) as [-> _]; rewrite H0; simpl; split; [done|];
       intros _; by rewrite ?app_nil_r.
  1-7: split; [done|]; intros _; apply IH2; congruence.
  1-5: split; [intros Hc; by destruct (Hrun _ _ H)|done].
  1-4: split; [intros Hc; by destruct (Hwri _ H)|done].
Qed.

Lemma process_pdf_world sched e w :
  let s := process_pdf sched e w in
  w_loaded (st_world s) = w_loaded w ++ [pdf_path e]
  /\ w_stderr (st_world s)
     = w_stderr w ++ match load_from_file e (pdf_path e) with
                     | None => [failed_to_open (pdf_path e)]
                     | Some _ => []
                     end.
Proof.
  intros s. destruct (process_pdf_halts sched e w) as [Hr Hh]. fold s in Hr, Hh.
  destruct (world_along e w s Hr) as [H1 H2]. apply H2. intros Hc.
  destruct (H1 Hc) as [_ Hterm].
  pose proof (halted_returned e s (wf_reachable _ _ _ Hr) Hh Hterm). congruence.
Qed.

(** ** When [create_directories] cannot throw *)


Lemma no_slash_take n s : no_slash s = true -> no_slash (take_str n s) = true.
Proof.
  revert s. induction n as [|n IH]; intros [|a s] H; simpl in *; try done.
  apply andb_true_iff in H as [-> H]. simpl. by apply IH.
Qed.

Lemma no_slash_filename p : no_slash (Path.filename p) = true.
Proof.
  unfold Path.filename.
  assert (match rfind "/" p with
          | Some i => no_slash (drop_str (S i) p) = true
          | None => no_slash p = true
          end) as H.
  { induction p as [|a p IH]; simpl; [done|].
    destruct (rfind "/" p) as [i|]; [done|].
    destruct (Ascii.eqb a "/"); simpl; done. }
  by destruct (rfind "/" p).
Qed.

Lemma no_slash_stem p : no_slash (Path.stem p) = true.
Proof.
  unfold Path.stem. destruct (Path.find_extension _);
    [apply no_slash_take|]; apply no_slash_filename.
Qed.





(** ** [to_string] is injective *)



(** ** What is on the disk along a run *)



(** The working directory does not change. *)
Lemma cwd_reachable e w s :
  reachable e w s -> fs_cwd (w_fs (st_world s)) = fs_cwd (w_fs w).
Proof.
  revert s. apply reachable_ind; [done|].
  intros s s' Hr IH [_ Ht]%step_transition.
  destruct Ht; simpl; try done.
  - pose proof (write_page_cwd (output_dir e) r (w_fs (st_world s))) as Hc.
    rewrite H0 in Hc. simpl in Hc. congruence.
  - pose proof (write_page_cwd (output_dir e) r (w_fs (st_world s))) as Hc.
    rewrite H0 in Hc. simpl in Hc. congruence.
Qed.


(** ** The text of every page that opens reaches the disk *)






(** ** C1: the claiming scheme *)

Lemma filter_snd_nil (l : list (nat * Z)) i :
  i ∉ l.*2 -> filter (λ c : nat * Z, c.2 = i) l = [].
Proof.
  induction l as [|c l IH]; intros Hi; [done|].
  rewrite fmap_cons, not_elem_of_cons in Hi. destruct Hi as [Hc Hl].
  rewrite filter_cons_False by (intros ?; by apply Hc). by apply IH.
Qed.

Lemma filter_snd_le (l : list (nat * Z)) i :
  NoDup l.*2 -> (length (filter (λ c : nat * Z, c.2 = i) l) <= 1)%nat.
Proof.
  induction l as [|c l IH]; intros Hnd; [simpl; lia|].
  rewrite fmap_cons in Hnd. apply NoDup_cons in Hnd as [Hc Hnd].
  destruct (decide (c.2 = i)) as [Heq|Hne].
  - rewrite filter_cons_True by done. rewrite filter_snd_nil by (by rewrite <- Heq).
    simpl. lia.
  - rewrite filter_cons_False by done. by apply IH.
Qed.

Lemma filter_snd_ge (l : list (nat * Z)) i :
  i ∈ l.*2 -> (1 <= length (filter (λ c : nat * Z, c.2 = i) l))%nat.
Proof.
  intros Hi. apply list_elem_of_fmap in Hi as (c & -> & Hc).
  assert (c ∈ filter (λ c' : nat * Z, c'.2 = c.2) l) as Hin
    by (by apply list_elem_of_filter).
  destruct (filter _ l); [by apply elem_of_nil in Hin|simpl; lia].
Qed.

Lemma filter_snd_two (l : list (nat * Z)) a b i :
  (a, i) ∈ l -> (b, i) ∈ l -> a <> b ->
  (2 <= length (filter (λ c : nat * Z, c.2 = i) l))%nat.
Proof.
  intros Ha Hb Hab.
  assert ((a, i) ∈ filter (λ c : nat * Z, c.2 = i) l) as Ha'
    by (by apply list_elem_of_filter).
  assert ((b, i) ∈ filter (λ c : nat * Z, c.2 = i) l) as Hb'
    by (by apply list_elem_of_filter).
  destruct (filter _ l) as [|x [|y l']]; simpl; try lia.
  - by apply elem_of_nil in Ha'.
  - apply list_elem_of_singleton in Ha', Hb'. congruence.
Qed.

(** A worker's step ends in [WDone] exactly from the test of an index at
    or past the page count. *)
Lemma worker_exit e s k s' :
  worker_step e k s = Some s' ->
  (st_threads s' !! k = Some WDone
   <-> exists id, st_threads s !! k = Some (WCheck id) /\ st_num_pages s <= id).
Proof.
  unfold worker_step. intros Hs.
  destruct (st_threads s !! k) as [[| id | r |]|] eqn:Hk; [| | |done|done].
  - simplify_eq. simpl. rewrite list_lookup_insert_eq by eauto using lookup_lt_Some.
    split; [done|]. by intros (id & ? & _).
  - destruct (Z.geb_spec id (st_num_pages s)) as [Hge|Hlt].
    + simplify_eq. simpl. rewrite list_lookup_insert_eq by eauto using lookup_lt_Some.
      split; [|done]. intros _. exists id. split; [done|lia].
    + assert (forall x, x <> WDone ->
                st_threads (set_threads (<[k:=x]> (st_threads s)) s) !! k = Some WDone
                <-> exists id0, Some (WCheck id) = Some (WCheck id0) /\ st_num_pages s <= id0) as Hx.
      { intros x Hx. simpl. rewrite list_lookup_insert_eq by eauto using lookup_lt_Some.
        split; [congruence|]. intros (id0 & ? & ?). simplify_eq. lia. }
      destruct (st_doc s) as [d|]; [|done].
      destruct (doc_create_page d id); simplify_eq; by apply Hx.
  - simplify_eq. simpl. rewrite list_lookup_insert_eq by eauto using lookup_lt_Some.
    split; [done|]. by intros (id & ? & _).
Qed.

Lemma no_wrap_of_bound e d :
  load_from_file e (pdf_path e) = Some d ->
  0 <= doc_pages d -> 1 <= thread_count e ->
  doc_pages d + thread_count e <= 2 ^ 31 ->
  no_wrap e.
Proof.
  intros Hl HP Htc Hb d' Hd'. assert (d' = d) as -> by congruence.
  unfold pool_size. lia.
Qed.

Lemma pushed_nodup s : claims_unique s -> NoDup (page_id <$> h_pushed (st_hist s)).
Proof. intros Hcu. by destruct (proj1 (NoDup_app _ _) (cu_nodup _ Hcu)). Qed.

(** C1, amended.  For a document with [P] pages that all open and a number
    of workers [N >= 1] with [P + N <= 2^31], the fetch-and-increment scheme
    hands every index of [0, P) to exactly one worker, exactly once; a worker
    leaves its loop exactly on an index [>= P]; and when [process_pdf] returns
    exactly [P] results have been produced, with the page indices [0..P-1].
    The bound excludes the wrap-around of the [int] counter. *)
Theorem claims_exactly_once_no_wrap e w d :
  load_from_file e (pdf_path e) = Some d ->
  (forall i, 0 <= i < doc_pages d -> doc_create_page d i <> None) ->
  0 <= doc_pages d ->
  1 <= thread_count e ->
  doc_pages d + thread_count e <= 2 ^ 31 ->
  claims_exactly_once e w (doc_pages d).
Proof.
  intros Hl Hopen HP Htc Hb s Hr.
  pose proof (wf_reachable _ _ _ Hr) as Hwf.
  pose proof (claims_ok_reachable _ _ _ Hr) as Hck.
  pose proof (claims_unique_reachable e w s (no_wrap_of_bound e d Hl HP Htc Hb) Hr) as Hcu.
  assert (NoDup (h_claims (st_hist s)).*2) as Hnd.
  { rewrite (cu_seq _ Hcu). apply NoDup_seqZ. }
  split; [|split; [|split]].
  - intros i _. by apply filter_snd_le.
  - by apply pushed_nodup.
  - intros k s' Hs. rewrite (worker_exit e s k s' Hs).
    assert (is_Some (st_threads s !! k)) as [x Hx].
    { unfold worker_step in Hs. by destruct (st_threads s !! k). }
    rewrite <- (num_pages_loaded e w s d Hr Hl); [done|].
    eapply running_not_load; eauto using wf_coord.
  - intros Hc.
    assert (st_num_pages s = doc_pages d) as HPs.
    { apply (num_pages_loaded e w s d Hr Hl). congruence. }
    assert (forall i, 0 <= i < doc_pages d -> i ∈ (h_claims (st_hist s)).*2) as Hall.
    { intros i Hi. eapply returned_all_claimed; eauto. lia. }
    assert (page_id <$> h_pushed (st_hist s) ≡ₚ seqZ 0 (doc_pages d)) as Hperm.
    { apply NoDup_Permutation.
      - by apply pushed_nodup.
      - apply NoDup_seqZ.
      - intros i. rewrite elem_of_seqZ. split.
        + intros (r & -> & Hin)%list_elem_of_fmap.
          destruct (ck_origin _ _ Hck r (or_introl Hin)) as (d' & pg & _ & Hcl & Hlt & _).
          rewrite (cu_seq _ Hcu) in Hcl. apply elem_of_seqZ in Hcl. lia.
        + intros Hi. assert (0 <= i < doc_pages d) as Hi' by lia.
          destruct (doc_create_page d i) as [pg|] eqn:Hpg; [|by destruct (Hopen i Hi')].
          pose proof (Hall i Hi') as Hin.
          apply list_elem_of_fmap in Hin as ([w0 i0] & Heq & Hin). simpl in Heq. subst i0.
          apply list_elem_of_fmap. exists (result_of e pg i). split; [done|].
          eapply returned_results; eauto. lia. }
    split; [|split].
    + intros i Hi. pose proof (filter_snd_le _ i Hnd).
      pose proof (filter_snd_ge _ i (Hall i Hi)). lia.
    + done.
    + apply Permutation_length in Hperm.
      rewrite length_fmap, length_seqZ in Hperm. lia.
Qed.

(** Worker [i] alone takes the counter from its value [c] to [c + n], as
    long as this stays within the page count. *)
Lemma sweep e i d n :
  0 <= n ->
  forall s,
    st_terminated s = false -> st_doc s = Some d ->
    st_threads s !! i = Some WFetch ->
    Int32.in_range (st_current_page s) ->
    st_current_page s + n <= st_num_pages s ->
    st_num_pages s <= 2147483647 ->
    exists s',
      rtc (step e) s s'
      /\ st_terminated s' = false /\ st_doc s' = Some d
      /\ st_threads s' = st_threads s
      /\ st_current_page s' = st_current_page s + n
      /\ st_num_pages s' = st_num_pages s
      /\ (forall c, c ∈ h_claims (st_hist s) -> c ∈ h_claims (st_hist s'))
      /\ (0 < n -> (i, st_current_page s) ∈ h_claims (st_hist s')).
Proof.
  intros Hn. pattern n. apply natlike_ind; [| |exact Hn]; clear n Hn.
  - intros s Hterm Hd Hi Hc Hb HP. exists s.
    repeat split; try done; try lia.
  - intros m Hm IH s Hterm Hd Hi Hc Hb HP.
    assert (-2147483648 <= st_current_page s) as Hc' by apply Hc.
    pose proof (lookup_lt_Some _ _ _ Hi) as Hlen.
    set (c := st_current_page s) in *.
    set (s1 := set_threads (<[i := WCheck c]> (st_threads s))
                 (set_current_page (Int32.wrap (c + 1))
                    (set_hist (log_claim i c (st_hist s)) s))).
    assert (step e s s1) as H1 by (apply step_transition; split; [done|by apply T_fetch]).
    assert (Int32.wrap (c + 1) = c + 1) as Hw
      by (apply wrap_id, in_range_bounds; lia).
    assert (exists s2, rtc (step e) s1 s2
              /\ st_terminated s2 = false /\ st_doc s2 = Some d
              /\ st_threads s2 = st_threads s
              /\ st_current_page s2 = c + 1
              /\ st_num_pages s2 = st_num_pages s
              /\ (forall x, x ∈ h_claims (st_hist s1) -> x ∈ h_claims (st_hist s2)))
      as (s2 & H12 & Hterm2 & Hd2 & Hth2 & Hc2 & HP2 & Hcl2).
    { assert (st_threads s1 !! i = Some (WCheck c)) as Hi1
        by (simpl; by apply list_lookup_insert_eq).
      destruct (doc_create_page d c) as [pg|] eqn:Hpg.
      - set (r := process_page (Some pg) (Path.stem (pdf_path e)) c).
        set (s1' := set_threads (<[i := WPush r]> (st_threads s1)) s1).
        assert (step e s1 s1') as Ha.
        { apply step_transition. split; [done|].
          eapply T_open; eauto. simpl. lia. }
        assert (st_threads s1' !! i = Some (WPush r)) as Hi1'.
        { simpl. apply list_lookup_insert_eq. by rewrite length_insert. }
        eexists. split; [eapply rtc_l; [exact Ha|]; apply rtc_once;
                         apply step_transition; split; [done|by apply T_push]|].
        simpl. rewrite !list_insert_insert_eq, list_insert_id by done.
        repeat split; try done.
      - eexists. split; [apply rtc_once; apply step_transition; split; [done|];
                         eapply T_skip; eauto; simpl; lia|].
        simpl. rewrite !list_insert_insert_eq, list_insert_id by done.
        repeat split; try done. }
    destruct (IH s2) as (s' & H2 & Hterm' & Hd' & Hth' & Hc'' & HP' & Hcl' & _);
      try done.
    + by rewrite Hth2.
    + rewrite Hc2. apply in_range_bounds. lia.
    + rewrite Hc2, HP2. lia.
    + by rewrite HP2.
    + exists s'. split; [eapply rtc_l; [exact H1|]; by etrans|].
      repeat split; try congruence.
      * rewrite Hc'', Hc2. lia.
      * intros x Hx. apply Hcl', Hcl2. simpl. apply elem_of_snoc. by left.
      * intros _. apply Hcl', Hcl2. simpl. apply elem_of_snoc. by right.
Qed.

Lemma big_doc_pages : doc_pages big_doc = 2147483647.
Proof. reflexivity. Qed.

Lemma big_doc_opens i :
  0 <= i < doc_pages big_doc -> doc_create_page big_doc i <> None.
Proof.
  rewrite big_doc_pages. intros Hi. simpl.
  change Int32.max_signed with 2147483647.
  destruct (Z.leb_spec 0 i); [|lia]. destruct (Z.leb_spec 2147483647 i); [lia|done].
Qed.

(** C1 as stated fails at the limit of [int]: with [INT_MAX] pages, all of
    which open, and two workers, the worker that draws [INT_MAX] wraps the
    counter to [INT_MIN]; the other worker then walks it up through the
    negative values, none of which opens, and claims page 0 a second time. *)
Lemma claims_twice_at_int_max :
  load_from_file big_env (pdf_path big_env) = Some big_doc
  /\ (forall i, 0 <= i < doc_pages big_doc -> doc_create_page big_doc i <> None)
  /\ 1 <= thread_count big_env
  /\ ~ claims_exactly_once big_env empty_world (doc_pages big_doc).
Proof.
  split; [reflexivity|]. split; [apply big_doc_opens|]. split; [simpl; lia|].
  intros Hclaim.
  (* the document is loaded and both workers are started *)
  assert (exists s3,
            exec big_env [Coordinator; Coordinator; Coordinator] (init_state empty_world)
            = Some s3
            /\ st_threads s3 = [WFetch; WFetch] /\ st_current_page s3 = 0
            /\ st_num_pages s3 = 2147483647 /\ st_doc s3 = Some big_doc
            /\ st_terminated s3 = false)
    as (s3 & Hex & Hth3 & Hc3 & HP3 & Hd3 & Hterm3).
  { eexists. split; [vm_compute; reflexivity|]. repeat split. }
  apply exec_rtc in Hex.
  (* worker 0 takes every page *)
  destruct (sweep big_env 0%nat big_doc 2147483647 ltac:(lia) s3)
    as (s4 & H34 & Hterm4 & Hd4 & Hth4 & Hc4 & HP4 & _ & Hcl4); try done.
  { by rewrite Hth3. }
  { rewrite Hc3. apply in_range_bounds. lia. }
  { rewrite Hc3, HP3. lia. }
  { rewrite HP3. lia. }
  rewrite Hc3 in Hc4, Hcl4. rewrite Hth3 in Hth4. specialize (Hcl4 ltac:(lia)).
  (* and draws INT_MAX, which wraps the counter *)
  set (s5 := set_threads (<[0%nat := WCheck (st_current_page s4)]> (st_threads s4))
               (set_current_page (Int32.wrap (st_current_page s4 + 1))
                  (set_hist (log_claim 0 (st_current_page s4) (st_hist s4)) s4))).
  assert (step big_env s4 s5) as H45.
  { apply step_transition. split; [done|]. apply T_fetch. by rewrite Hth4. }
  assert (st_current_page s5 = -2147483648) as Hc5.
  { simpl. rewrite Hc4. reflexivity. }
  (* worker 1 walks the counter up from INT_MIN to 0 *)
  destruct (sweep big_env 1%nat big_doc 2147483648 ltac:(lia) s5)
    as (s6 & H56 & Hterm6 & Hd6 & Hth6 & Hc6 & HP6 & Hcl6 & _); try done.
  { simpl. by rewrite Hth4. }
  { rewrite Hc5. apply in_range_bounds. lia. }
  { rewrite Hc5. simpl. rewrite HP4, HP3. lia. }
  { simpl. rewrite HP4, HP3. lia. }
  rewrite Hc5 in Hc6. simpl in Hc6.
  (* and claims page 0 again *)
  set (s7 := set_threads (<[1%nat := WCheck (st_current_page s6)]> (st_threads s6))
               (set_current_page (Int32.wrap (st_current_page s6 + 1))
                  (set_hist (log_claim 1 (st_current_page s6) (st_hist s6)) s6))).
  assert (step big_env s6 s7) as H67.
  { apply step_transition. split; [done|]. apply T_fetch.
    rewrite Hth6. simpl. by rewrite Hth4. }
  assert (reachable big_env empty_world s7) as Hr.
  { unfold reachable. etrans; [exact Hex|]. etrans; [exact H34|].
    eapply rtc_l; [exact H45|]. etrans; [exact H56|]. by apply rtc_once. }
  destruct (Hclaim s7 Hr) as (Honce & _).
  specialize (Honce 0 ltac:(rewrite big_doc_pages; lia)).
  assert ((0%nat, 0) ∈ h_claims (st_hist s7)) as Ha.
  { simpl. apply elem_of_snoc. left. apply Hcl6. simpl. apply elem_of_snoc. by left. }
  assert ((1%nat, 0) ∈ h_claims (st_hist s7)) as Hb.
  { simpl. apply elem_of_snoc. right. by rewrite Hc6. }
  pose proof (filter_snd_two _ _ _ _ Ha Hb ltac:(done)). lia.
Qed.

(** The amended C1 at the sample document: 2 pages, 4 workers. *)
Lemma claims_exactly_once_sample :
  claims_exactly_once sample_env sample_world (doc_pages sample_doc).
Proof.
  apply (claims_exactly_once_no_wrap sample_env sample_world sample_doc).
  - reflexivity.
  - intros i Hi. simpl in *. assert (i = 0 \/ i = 1) as [-> | ->] by lia; done.
  - simpl. lia.
  - simpl. lia.
  - simpl. lia.
Defined.

(** ** C2: [PageResultQueue::pop] *)

Lemma drained_after_pop q :
  queue_ q = [] -> finished_ q = true -> pop q = Some (None, q) /\ after_pop q = q.
Proof.
  intros Hq Hf. unfold after_pop, pop. rewrite Hq, Hf. simpl. done.
Qed.

(** C2.  [pop] waits exactly while the queue is empty and not marked
    finished.  On a non-empty queue it removes and returns the oldest item
    (items are pushed at the back).  On a finished, empty queue it returns
    false, leaves the queue as it is, and so does every later call. *)
Theorem pop_spec (q : PageResultQueue) :
  (pop q = None <-> queue_ q = [] /\ finished_ q = false)
  /\ (forall r, queue_ (push r q) = queue_ q ++ [r])
  /\ (forall r rest,
        queue_ q = r :: rest ->
        pop q = Some (Some r, {| queue_ := rest; finished_ := finished_ q |}))
  /\ (queue_ q = [] /\ finished_ q = true <-> pop q = Some (None, q))
  /\ (pop q = Some (None, q) ->
      forall n, pop (Nat.iter n after_pop q) = Some (None, Nat.iter n after_pop q)).
Proof.
  split; [|split; [|split; [|split]]].
  - unfold pop. destruct q as [[|r rest] []]; simpl; split; try done.
    + by intros [_ ?].
    + by intros [? _].
    + by intros [? _].
  - done.
  - intros r rest Hq. unfold pop. rewrite Hq. done.
  - unfold pop. destruct q as [[|r rest] []]; simpl; split; try done.
    + by intros [_ ?].
    + by intros [? _].
    + by intros [? _].
  - intros Hend n.
    assert (queue_ q = [] /\ finished_ q = true) as [Hq Hf].
    { unfold pop in Hend. destruct q as [[|r rest] []]; simpl in *; done. }
    assert (Nat.iter n after_pop q = q) as ->; [|done].
    induction n as [|n IH]; [done|]. simpl. rewrite IH.
    by apply drained_after_pop.
Qed.

(** C2 on a finished queue that holds one result: the result comes out
    first, and from then on every call returns false. *)
Lemma pop_spec_sample :
  let q := {| queue_ := [hello_result]; finished_ := true |} in
  pop q = Some (Some hello_result, {| queue_ := []; finished_ := true |})
  /\ forall n, pop (Nat.iter n after_pop (after_pop q))
               = Some (None, Nat.iter n after_pop (after_pop q)).
Proof.
  intros q. split.
  - apply (proj1 (proj2 (proj2 (pop_spec q))) hello_result []). reflexivity.
  - apply (proj2 (proj2 (proj2 (proj2 (pop_spec (after_pop q)))))). reflexivity.
Defined.

(** ** C3: the queue is marked finished after the workers, the writer is
    joined after that *)



(** ** C4: what the writer does with a result *)



(** ** C5: the exit codes of [main] *)

Lemma is_directory_exists fs p : FS.is_directory fs p = true -> FS.exists_ fs p = true.
Proof. unfold FS.is_directory, FS.exists_. by destruct (FS.status fs p). Qed.

Lemma bad_input_dir_test fs p :
  negb (FS.exists_ fs p) || negb (FS.is_directory fs p) = negb (FS.is_directory fs p).
Proof.
  destruct (FS.is_directory fs p) eqn:Hd; [|by rewrite orb_true_r].
  by rewrite (is_directory_exists _ _ Hd).
Qed.

Lemma create_directories_keeps_dir fs out p :
  FS.is_directory fs p = true ->
  FS.is_directory (FS.create_directories fs out).1 p = true.
Proof.
  apply is_directory_mono; [apply create_directories_cwd|].
  intros q. apply create_directories_dirs.
Qed.

Lemma iterator_of_directory fs dir :
  FS.is_directory fs dir = true -> is_Some (directory_iterator fs dir).
Proof. intros H. unfold directory_iterator. by rewrite H. Qed.





(** ** C6: a page that cannot be opened *)



(** ** C7: a document that cannot be loaded *)

(** C7.  When [load_from_file] returns null for a document that
    [process_directory] hands to [process_pdf], then [process_pdf] returns
    having written one diagnostic line naming the path to [std::cerr] and
    nothing else: the filesystem is as before, no worker and no writer thread
    exists in any state it goes through, and the loop of [process_directory]
    goes on with the remaining entries. *)
Theorem load_failure_is_reported sched lf out tc en rest w :
  is_pdf en = true ->
  lf (entry_path en) = None ->
  let e := {| load_from_file := lf; pdf_path := entry_path en;
              output_dir := out; thread_count := tc |} in
  let s := process_pdf sched e w in
  w_stderr (st_world s) = w_stderr w ++ [failed_to_open (entry_path en)]
  /\ w_fs (st_world s) = w_fs w
  /\ w_loaded (st_world s) = w_loaded w ++ [entry_path en]
  /\ st_coord s = CReturned /\ st_terminated s = false
  /\ (forall s0, reachable e w s0 ->
        st_threads s0 = [] /\ st_writer s0 = None
        /\ w_fs (st_world s0) = w_fs w)
  /\ process_entries sched lf out tc (en :: rest) w
     = process_entries sched lf out tc rest (st_world s).
Proof.
  intros Hpdf Hl e s.
  assert (s = load_failed e w) as Hs by (by apply process_pdf_load_failure).
  repeat split; try (by rewrite Hs).
  - by destruct (load_failure_states e w s0 Hl H) as [-> | ->].
  - by destruct (load_failure_states e w s0 Hl H) as [-> | ->].
  - by destruct (load_failure_states e w s0 Hl H) as [-> | ->].
  - simpl. rewrite Hpdf. fold e. fold s. by rewrite Hs.
Qed.

(** C7 at the sample directory: [in/broken.pdf] cannot be loaded. *)
Lemma load_failure_sample :
  let en := {| entry_path := "in/broken.pdf"; entry_status := File "junk" |} in
  let e := {| load_from_file := sample_engine; pdf_path := entry_path en;
              output_dir := "out"; thread_count := 4 |} in
  let s := process_pdf rotating e sample_world in
  w_stderr (st_world s) = w_stderr sample_world ++ [failed_to_open (entry_path en)]
  /\ w_fs (st_world s) = w_fs sample_world
  /\ w_loaded (st_world s) = w_loaded sample_world ++ [entry_path en]
  /\ st_coord s = CReturned /\ st_terminated s = false
  /\ (forall s0, reachable e sample_world s0 ->
        st_threads s0 = [] /\ st_writer s0 = None
        /\ w_fs (st_world s0) = w_fs sample_world)
  /\ process_entries rotating sample_engine "out" 4 [en] sample_world
     = process_entries rotating sample_engine "out" 4 [] (st_world s).
Proof.
  intros en e s.
  apply (load_failure_is_reported rotating sample_engine "out" 4 en [] sample_world);
    reflexivity.
Defined.

(** ** C8: [set_finished] *)

(** Once the queue is marked finished no thread pushes. *)
Lemma finished_no_push e s s' :
  wf e s -> finished_ (st_queue s) = true -> step e s s' ->
  h_pushed (st_hist s') = h_pushed (st_hist s)
  /\ finished_ (st_queue s') = true
  /\ queue_ (st_queue s') `suffix_of` queue_ (st_queue s).
Proof.
  intros Hwf Hf [_ Ht]%step_transition.
  pose proof (wf_finished _ _ Hwf Hf) as Hall.
  pose proof (wf_coord _ _ Hwf) as Hco. unfold coord_ok in Hco.
  destruct Ht; simpl; try done;
    try (by pose proof (Forall_done_insert _ _ _ Hall H)).
  - rewrite H in Hco. destruct Hco as (_ & _ & Hq). by rewrite Hq in Hf.
  - repeat split; try done. rewrite H0. by apply suffix_cons_r.
Qed.

(** C8.  [set_finished] only sets the flag, so applying it twice is the
    same as applying it once; and in [process_pdf] nothing is pushed once the
    flag is set: every later step leaves the log of pushes as it is and can
    only shorten the queue. *)
Theorem set_finished_idempotent :
  (forall q, set_finished (set_finished q) = set_finished q
             /\ finished_ (set_finished q) = true
             /\ queue_ (set_finished q) = queue_ q)
  /\ (forall e w s s',
        reachable e w s -> finished_ (st_queue s) = true -> step e s s' ->
        h_pushed (st_hist s') = h_pushed (st_hist s)
        /\ finished_ (st_queue s') = true
        /\ queue_ (st_queue s') `suffix_of` queue_ (st_queue s)).
Proof.
  split; [done|].
  intros e w s s' Hr. apply finished_no_push. by eapply wf_reachable.
Qed.

Lemma state_after_reachable e ts w : reachable e w (state_after e ts w).
Proof.
  unfold state_after. destruct (exec e ts (init_state w)) as [s|] eqn:Hs.
  - by apply exec_reachable in Hs.
  - apply rtc_refl.
Qed.

(** C8 at the sample run: the first worker has pushed the results of both
    pages and every worker has been joined when the coordinator calls
    [set_finished]; a second call would change nothing, and the one step left
    to take with the flag set, the writer's [pop], pushes nothing and
    shortens the queue. *)
Lemma set_finished_sample :
  let s0 := state_after sample_env joined_schedule sample_world in
  let s := state_after sample_env (joined_schedule ++ [Coordinator]) sample_world in
  let s' := state_after sample_env (joined_schedule ++ [Coordinator; Writer])
              sample_world in
  length (queue_ (st_queue s0)) = 2%nat
  /\ st_queue s = set_finished (st_queue s0)
  /\ set_finished (st_queue s) = st_queue s
  /\ h_pushed (st_hist s') = h_pushed (st_hist s)
  /\ finished_ (st_queue s') = true
  /\ queue_ (st_queue s') `suffix_of` queue_ (st_queue s)
  /\ length (queue_ (st_queue s')) = 1%nat.
Proof.
  intros s0 s s'.
  destruct set_finished_idempotent as [Hidem Hpush].
  assert (st_queue s = set_finished (st_queue s0)) as Hq by evaluate.
  split; [evaluate|]. split; [exact Hq|]. split.
  { rewrite Hq. apply (Hidem (st_queue s0)). }
  destruct (Hpush sample_env sample_world s s') as (H1 & H2 & H3).
  - apply state_after_reachable.
  - evaluate.
  - exists Writer. evaluate.
  - split; [exact H1|]. split; [exact H2|]. split; [exact H3|]. evaluate.
Defined.

(** ** C9: a thread count of zero or less *)

Lemma no_workers e w s :
  thread_count e <= 0 -> reachable e w s ->
  st_threads s = [] /\ h_pushed (st_hist s) = [] /\ h_written (st_hist s) = []
  /\ w_fs (st_world s) = w_fs w /\ st_terminated s = false.
Proof.
  intros Htc. revert s. apply reachable_ind; [done|].
  intros s s' Hr (Hth & Hpu & Hwr & Hfs & Hterm) [_ Ht]%step_transition.
  pose proof (wf_reachable _ _ _ Hr) as Hwf.
  pose proof (wf_fifo _ _ Hwf) as Hfifo. rewrite Hpu, Hwr in Hfifo. simpl in Hfifo.
  symmetry in Hfifo. apply app_eq_nil in Hfifo as [Hin Hq].
  pose proof (wf_coord _ _ Hwf) as Hco. unfold coord_ok in Hco.
  destruct Ht; simpl; try done;
    try (rewrite Hth in H; done).
  - rewrite H in Hco. simpl in Hco. lia.
  - rewrite H in Hin. done.
  - rewrite H in Hin. done.
Qed.

(** C9.  With a thread count of zero or less [process_pdf] starts no
    worker: in every reachable state there is no worker thread, nothing has
    been pushed or written and the filesystem is as it was; the joining loop
    is empty, so from its head the coordinator goes straight on to
    [set_finished]; and under every scheduler [process_pdf] returns, without
    [std::terminate], with the writer having seen the end when the document
    was loaded. *)
Theorem no_workers_run e w :
  thread_count e <= 0 ->
  (forall s, reachable e w s ->
     st_threads s = [] /\ h_pushed (st_hist s) = [] /\ h_written (st_hist s) = []
     /\ w_fs (st_world s) = w_fs w /\ st_terminated s = false
     /\ (forall k, st_coord s = CJoin k ->
           k = 0%nat /\ coord_step e s = Some (set_coord CSetFinished s))
     /\ (st_coord s = CSetFinished ->
         exists s', coord_step e s = Some s' /\ finished_ (st_queue s') = true))
  /\ (forall sched,
        let s := process_pdf sched e w in
        st_coord s = CReturned /\ st_terminated s = false
        /\ st_threads s = [] /\ h_written (st_hist s) = []
        /\ w_fs (st_world s) = w_fs w
        /\ (is_Some (load_from_file e (pdf_path e)) ->
            st_writer s = Some WrDone /\ finished_ (st_queue s) = true)).
Proof.
  intros Htc. split.
  - intros s Hr. destruct (no_workers e w s Htc Hr) as (Hth & Hpu & Hwr & Hfs & Hterm).
    repeat split; try done.
    + pose proof (wf_coord _ _ (wf_reachable _ _ _ Hr)) as Hco.
      unfold coord_ok in Hco. rewrite H, Hth in Hco. simpl in Hco.
      destruct Hco as (_ & _ & _ & ? & _). lia.
    + unfold coord_step. rewrite H, Hth. by rewrite lookup_nil.
    + intros Hc. eexists. unfold coord_step. rewrite Hc. split; [reflexivity|done].
  - intros sched s. destruct (process_pdf_halts sched e w) as [Hr Hh]. fold s in Hr, Hh.
    destruct (no_workers e w s Htc Hr) as (Hth & Hpu & Hwr & Hfs & Hterm).
    pose proof (wf_reachable _ _ _ Hr) as Hwf.
    pose proof (halted_returned e s Hwf Hh Hterm) as Hc.
    repeat split; try done.
    + by destruct (returned_loaded e s Hwf Hc H) as (? & _).
    + by destruct (returned_loaded e s Hwf Hc H) as (_ & _ & ? & _).
Qed.

(** C9 at the sample document with a thread count of 0. *)
Lemma no_workers_run_sample :
  thread_count idle_env <= 0
  /\ (forall sched,
        let s := process_pdf sched idle_env sample_world in
        st_coord s = CReturned /\ st_terminated s = false
        /\ st_threads s = [] /\ h_written (st_hist s) = []
        /\ w_fs (st_world s) = w_fs sample_world
        /\ (is_Some (load_from_file idle_env (pdf_path idle_env)) ->
            st_writer s = Some WrDone /\ finished_ (st_queue s) = true)).
Proof.
  split; [simpl; lia|].
  apply (no_workers_run idle_env sample_world). simpl. lia.
Defined.

(** ** C10: which entries [process_directory] hands to [process_pdf] *)

Lemma child_of_spec dir k name : FS.child_of dir k = Some name <-> k = dir ++ [name].
Proof.
  revert k. induction dir as [|d dir IH]; intros k; simpl.
  - destruct k as [|c [|c' k]]; split; intros H; simplify_eq; done.
  - destruct k as [|c k]; [split; intros H; simplify_eq|].
    destruct (String.eqb_spec d c) as [->|Hne].
    + rewrite IH. split; intros H; simplify_eq; done.
    + split; intros H; simplify_eq.
Qed.

Lemma is_pdf_spec en :
  is_pdf en = true
  <-> (exists c, entry_status en = File c) /\ Path.extension (entry_path en) = ".pdf".
Proof.
  unfold is_pdf, entry_is_regular_file. rewrite andb_true_iff, String.eqb_eq.
  destruct (entry_status en); split; intros [H1 H2]; try done.
  - by destruct H1.
  - split; [by eexists|done].
Qed.

Lemma elem_of_directory_iterator fs dir entries en :
  directory_iterator fs dir = Some entries ->
  en ∈ entries
  <-> exists name nd,
        fs_tree fs !! (FS.locate (fs_cwd fs) dir ++ [name]) = Some nd
        /\ en = {| entry_path := Path.append dir name; entry_status := nd |}.
Proof.
  unfold directory_iterator. destruct (FS.is_directory fs dir); [|done].
  intros Heq. simplify_eq. rewrite list_elem_of_omap. split.
  - intros ([k nd] & Hin & Hen). simpl in Hen.
    destruct (FS.child_of (FS.locate (fs_cwd fs) dir) k) as [name|] eqn:Hk;
      simplify_eq/=.
    apply child_of_spec in Hk as ->. apply elem_of_map_to_list in Hin. eauto.
  - intros (name & nd & Hl & ->). exists (FS.locate (fs_cwd fs) dir ++ [name], nd).
    split; [by apply elem_of_map_to_list|]. simpl.
    by rewrite (proj2 (child_of_spec _ _ name) eq_refl).
Qed.

Lemma process_entries_loaded sched lf out tc entries w w' :
  process_entries sched lf out tc entries w = (false, w') ->
  w_loaded w' = w_loaded w ++ (entry_path <$> List.filter is_pdf entries).
Proof.
  revert w. induction entries as [|en entries IH]; intros w H; simpl in *.
  - simplify_eq. by rewrite app_nil_r.
  - destruct (is_pdf en) eqn:Hpdf; [|by apply IH].
    set (e := {| load_from_file := lf; pdf_path := entry_path en;
                 output_dir := out; thread_count := tc |}) in *.
    destruct (st_terminated (process_pdf sched e w)); [done|].
    rewrite (IH _ H). destruct (process_pdf_world sched e w) as [-> _].
    simpl. by rewrite <- app_assoc.
Qed.

(** C10.  [process_directory] iterates over the entries directly inside the
    directory the input path leads to and hands to [process_pdf] exactly those
    that are regular files and whose [path::extension()] is, byte for byte,
    [.pdf]: after a
    run that completes, the paths passed to [load_from_file] are the paths of
    these entries, in the order of the iteration.  An entry with the extension
    [.PDF] is passed over. *)
Theorem input_discovery sched lf input out tc w entries w' :
  directory_iterator (w_fs w) input = Some entries ->
  process_directory sched lf input out tc w = (false, w') ->
  (forall en, en ∈ entries
     <-> exists name nd,
           fs_tree (w_fs w) !! (FS.locate (fs_cwd (w_fs w)) input ++ [name]) = Some nd
           /\ en = {| entry_path := Path.append input name; entry_status := nd |})
  /\ w_loaded w' = w_loaded w ++ (entry_path <$> List.filter is_pdf entries)
  /\ (forall en, is_pdf en = true
        <-> (exists c, entry_status en = File c)
            /\ Path.extension (entry_path en) = ".pdf")
  /\ (forall en, Path.extension (entry_path en) = ".PDF" -> is_pdf en = false).
Proof.
  intros Hit Hrun. unfold process_directory in Hrun. rewrite Hit in Hrun.
  repeat split.
  - by apply elem_of_directory_iterator.
  - by apply elem_of_directory_iterator.
  - by apply process_entries_loaded in Hrun.
  - by apply is_pdf_spec.
  - by apply is_pdf_spec.
  - apply is_pdf_spec.
  - intros en Hext. unfold is_pdf. rewrite Hext. by rewrite andb_false_r.
Qed.

(** C10 at the sample directory, which holds [report.pdf], [broken.pdf]
    and [notes.PDF]. *)
Lemma input_discovery_sample :
  let w' := (process_directory first_enabled sample_engine "in" "out" 4 sample_world).2 in
  (forall en, en ∈ sample_entries
     <-> exists name nd,
           fs_tree (w_fs sample_world)
             !! (FS.locate (fs_cwd (w_fs sample_world)) "in" ++ [name]) = Some nd
           /\ en = {| entry_path := Path.append "in" name; entry_status := nd |})
  /\ w_loaded w'
     = w_loaded sample_world ++ (entry_path <$> List.filter is_pdf sample_entries)
  /\ (forall en, is_pdf en = true
        <-> (exists c, entry_status en = File c)
            /\ Path.extension (entry_path en) = ".pdf")
  /\ (forall en, Path.extension (entry_path en) = ".PDF" -> is_pdf en = false).
Proof.
  intros w'.
  apply (input_discovery first_enabled sample_engine "in" "out" 4 sample_world
           sample_entries w').
  - evaluate.
  - evaluate.
Defined.

(** * Further properties of the program *)

(** ** The queue is first in, first out *)

Lemma push_all_queue rs q :
  queue_ (push_all rs q) = queue_ q ++ rs /\ finished_ (push_all rs q) = finished_ q.
Proof.
  revert q. induction rs as [|r rs IH]; intros q; simpl.
  - by rewrite app_nil_r.
  - destruct (IH (push r q)) as [-> ->]. simpl. by rewrite <- app_assoc.
Qed.

Lemma pop_n_spec n : forall q,
  pop_n n q = (take n (queue_ q), {| queue_ := drop n (queue_ q); finished_ := finished_ q |}).
Proof.
  induction n as [|n IH]; intros [l f]; simpl; [done|].
  unfold pop. simpl. destruct l as [|r l]; simpl.
  - by destruct f.
  - by rewrite IH.
Qed.

(** X1.  Whatever is pushed comes out of [pop] in the order of the pushes,
    behind what the queue held before; [push] never touches the finished
    flag. *)
Theorem queue_fifo (q : PageResultQueue) (rs : list PageResult) (n : nat) :
  pop_n n (push_all rs q)
  = (take n (queue_ q ++ rs),
     {| queue_ := drop n (queue_ q ++ rs); finished_ := finished_ q |}).
Proof.
  rewrite pop_n_spec. by destruct (push_all_queue rs q) as [-> ->].
Qed.

(** ** The results in flight *)

(** X2.  Every result a worker holds or has pushed is the [process_page] of a
    page of the document that opened: it carries the document's stem, an index
    below the page count, the text of that page, and no image. *)
Theorem results_carry_text e w s r :
  reachable e w s ->
  (r ∈ h_pushed (st_hist s) \/ exists k, st_threads s !! k = Some (WPush r)) ->
  exists d pg,
    load_from_file e (pdf_path e) = Some d
    /\ page_id r < doc_pages d
    /\ doc_create_page d (page_id r) = Some pg
    /\ r = process_page (Some pg) (Path.stem (pdf_path e)) (page_id r)
    /\ pdf_name r = Path.stem (pdf_path e)
    /\ text r = page_text pg
    /\ images r = [].
Proof.
  intros Hr Hin.
  destruct (ck_origin _ _ (claims_ok_reachable _ _ _ Hr) r Hin)
    as (d & pg & Hl & _ & Hlt & Hpg & Heq).
  exists d, pg. repeat split; try done.
  - rewrite <- (num_pages_loaded e w s d Hr Hl); [done|].
    intros Hc. destruct (ck_fresh _ _ (claims_ok_reachable _ _ _ Hr) Hc) as [_ Hnil].
    destruct Hin as [Hin|[k Hk]].
    + rewrite Hnil in Hin. by apply elem_of_nil in Hin.
    + eapply running_not_load; eauto using wf_coord, wf_reachable.
  - by rewrite Heq.
  - by rewrite Heq.
  - by rewrite Heq.
Qed.

(** X2 at the sample run, for the result of page 0. *)
Lemma results_carry_text_sample :
  exists d pg,
    load_from_file sample_env (pdf_path sample_env) = Some d
    /\ page_id hello_result < doc_pages d
    /\ doc_create_page d (page_id hello_result) = Some pg
    /\ hello_result
       = process_page (Some pg) (Path.stem (pdf_path sample_env)) (page_id hello_result)
    /\ pdf_name hello_result = Path.stem (pdf_path sample_env)
    /\ text hello_result = page_text pg
    /\ images hello_result = [].
Proof.
  apply (results_carry_text sample_env sample_world
           (state_after sample_env writing_schedule sample_world) hello_result).
  - apply state_after_reachable.
  - left.
    assert (h_pushed (st_hist (state_after sample_env writing_schedule sample_world))
            = [hello_result]) as -> by evaluate.
    apply list_elem_of_here.
Defined.

(** ** Workers never wait *)

(** X3.  A worker that has not left its loop can always take its next step: it
    waits neither for the writer nor for another worker, and the document it
    reads from is still open, being deleted only once every thread has been
    joined. *)
Theorem workers_never_wait e w s k x :
  reachable e w s ->
  st_terminated s = false ->
  st_threads s !! k = Some x -> x <> WDone ->
  (exists d, st_doc s = Some d
             /\ load_from_file e (pdf_path e) = Some d
             /\ st_num_pages s = doc_pages d)
  /\ is_Some (step_thread e (Worker k) s)
  /\ st_coord s <> CReturned.
Proof.
  intros Hr Hterm Hk Hx. pose proof (wf_reachable _ _ _ Hr) as Hwf.
  destruct (running_doc_open e s k x Hwf Hk Hx) as (d & Hd & HP & Hl).
  split; [by exists d|]. split.
  - unfold step_thread, worker_step. rewrite Hterm, Hk.
    destruct x as [|id|r|]; try done.
    destruct (id >=? st_num_pages s); [done|]. rewrite Hd.
    by destruct (doc_create_page d id).
  - intros Hc. pose proof (returned_all_done e s Hwf Hc) as Hall.
    pose proof (Forall_done_insert _ _ _ Hall Hk). congruence.
Qed.

(** X3 at the sample run, as the first worker holds index 0. *)
Lemma workers_never_wait_sample :
  let s := state_after sample_env (replicate 7 Coordinator ++ [Worker 0]) sample_world in
  (exists d, st_doc s = Some d
             /\ load_from_file sample_env (pdf_path sample_env) = Some d
             /\ st_num_pages s = doc_pages d)
  /\ is_Some (step_thread sample_env (Worker 0) s)
  /\ st_coord s <> CReturned.
Proof.
  intros s.
  apply (workers_never_wait sample_env sample_world s 0%nat (WCheck 0)).
  - apply state_after_reachable.
  - evaluate.
  - evaluate.
  - discriminate.
Defined.

(** ** The names of the documents [process_directory] selects *)

Lemma take_drop_str n s : take_str n s +:+ drop_str n s = s.
Proof.
  revert s. induction n as [|n IH]; intros [|a s]; simpl; try done.
  by rewrite append_cons, IH.
Qed.

Lemma stem_extension p : Path.stem p +:+ Path.extension p = Path.filename p.
Proof.
  unfold Path.stem, Path.extension.
  destruct (Path.find_extension (Path.filename p)).
  - apply take_drop_str.
  - apply append_nil_r.
Qed.

Lemma extension_stem_nonempty p :
  Path.extension p <> EmptyString -> Path.stem p <> EmptyString.
Proof.
  unfold Path.stem, Path.extension, Path.find_extension.
  destruct (_ && _); [done|].
  destruct (Path.filename p) as [|a f]; [done|].
  destruct (rfind "." (String a f)) as [[|i]|]; done.
Qed.

Lemma is_pdf_stem en : is_pdf en = true -> Path.stem (entry_path en) <> EmptyString.
Proof.
  intros [_ Hext]%is_pdf_spec. apply extension_stem_nonempty. by rewrite Hext.
Qed.

(** X4.  The document name of a selected entry is its file name without the
    final [.pdf]; it is not empty and holds no separator.  The directory of
    each of its pages is the place two levels below the output directory, at
    [output_dir/name/page], except for the files [..pdf] and [...pdf], whose
    names are dot and dot-dot: the pages of the first go to [output_dir/page],
    those of the second beside the output directory, to [page] in its
    parent. *)
Theorem selected_document_name en :
  is_pdf en = true ->
  let name := Path.stem (entry_path en) in
  name +:+ ".pdf" = Path.filename (entry_path en)
  /\ name <> EmptyString
  /\ no_slash name = true
  /\ (forall cwd out r,
        pdf_name r = name ->
        FS.locate cwd (page_dir out r)
        = if decide (name = ".") then FS.locate cwd out ++ [to_string (page_id r)]
          else if decide (name = "..")
               then FS.parent (FS.locate cwd out) ++ [to_string (page_id r)]
               else FS.locate cwd out ++ [name; to_string (page_id r)]).
Proof.
  intros Hpdf name. pose proof (is_pdf_stem en Hpdf) as Hne.
  apply is_pdf_spec in Hpdf as [_ Hext].
  split; [|split; [|split]].
  - unfold name. rewrite <- Hext. apply stem_extension.
  - done.
  - apply no_slash_stem.
  - intros cwd out r Hr.
    assert (no_slash (pdf_name r) = true) as Hn by (rewrite Hr; apply no_slash_stem).
    assert (pdf_name r <> EmptyString) as Hne' by (by rewrite Hr).
    destruct (page_names r Hn Hne') as [Hrel Hnames].
    unfold page_dir. rewrite (locate_append _ _ _ Hrel), Hnames, Hr. simpl.
    rewrite (enter_proper _ _ (to_string_proper _)).
    case_decide as H1; [by rewrite H1|]. case_decide as H2; [by rewrite H2|].
    rewrite enter_proper by done. by rewrite <- app_assoc.
Qed.

(** X4 at [in/report.pdf]. *)
Lemma selected_document_name_sample :
  let en := {| entry_path := "in/report.pdf"; entry_status := File "%PDF" |} in
  let name := Path.stem (entry_path en) in
  name +:+ ".pdf" = Path.filename (entry_path en)
  /\ name <> EmptyString
  /\ no_slash name = true
  /\ (forall cwd out r,
        pdf_name r = name ->
        FS.locate cwd (page_dir out r)
        = if decide (name = ".") then FS.locate cwd out ++ [to_string (page_id r)]
          else if decide (name = "..")
               then FS.parent (FS.locate cwd out) ++ [to_string (page_id r)]
               else FS.locate cwd out ++ [name; to_string (page_id r)]).
Proof.
  intros en. apply (selected_document_name en). reflexivity.
Defined.

(** ** The diagnostics of a run over a directory *)

Lemma process_entries_stderr sched lf out tc entries : forall w w',
  process_entries sched lf out tc entries w = (false, w') ->
  w_stderr w'
  = w_stderr w
    ++ ((fun en => failed_to_open (entry_path en)) <$> List.filter (fails_to_load lf) entries).
Proof.
  induction entries as [|en entries IH]; intros w w' H; simpl in *.
  - simplify_eq. by rewrite app_nil_r.
  - unfold fails_to_load at 1. destruct (is_pdf en) eqn:Hpdf; simpl; [|by apply IH].
    set (e := {| load_from_file := lf; pdf_path := entry_path en;
                 output_dir := out; thread_count := tc |}) in *.
    destruct (st_terminated (process_pdf sched e w)); [done|].
    rewrite (IH _ _ H). destruct (process_pdf_world sched e w) as [_ ->].
    simpl. destruct (lf (entry_path en)); simpl.
    + by rewrite app_nil_r.
    + by rewrite <- app_assoc.
Qed.

(** X5.  What a run of [process_directory] that completes adds to [std::cerr]
    is one line [Failed to open PDF: <path>] for each selected entry that
    cannot be loaded, in the order of the iteration, and nothing else: pages
    that fail to open and entries that are passed over leave no trace. *)
Theorem diagnostics sched lf input out tc w entries w' :
  directory_iterator (w_fs w) input = Some entries ->
  process_directory sched lf input out tc w = (false, w') ->
  w_stderr w'
  = w_stderr w
    ++ ((fun en => failed_to_open (entry_path en)) <$> List.filter (fails_to_load lf) entries).
Proof.
  intros Hit Hrun. unfold process_directory in Hrun. rewrite Hit in Hrun.
  by apply process_entries_stderr in Hrun.
Qed.

(** X5 at the sample directory: one line, for [in/broken.pdf]. *)
Lemma diagnostics_sample :
  w_stderr (process_directory first_enabled sample_engine "in" "out" 4 sample_world).2
  = w_stderr sample_world
    ++ ((fun en => failed_to_open (entry_path en))
          <$> List.filter (fails_to_load sample_engine) sample_entries).
Proof.
  apply (diagnostics first_enabled sample_engine "in" "out" 4 sample_world sample_entries).
  - evaluate.
  - evaluate.
Defined.

(** ** The text of every page that opens reaches the disk *)





(** ** What [process_pdf] leaves alone *)

(** X7.  Along every run of [process_pdf], also one that ends in
    [std::terminate], whatever existed on the filesystem still exists: a
    directory stays a directory, and a file keeps its content unless it sits
    at the place of the [text_layer.txt] of a result that has been written,
    which then holds the text of a result.  Whatever is new is such a file or
    a directory on the way to the directory of a page, for a result that has
    been written or that the writer holds. *)
Theorem existing_entries_kept e w s p :
  reachable e w s ->
  (forall n, fs_tree (w_fs w) !! p = Some n ->
     fs_tree (w_fs (st_world s)) !! p = Some n
     \/ exists c r,
          n = File c /\ r ∈ h_written (st_hist s)
          /\ p = FS.locate (fs_cwd (w_fs w)) (text_file (output_dir e) r)
          /\ fs_tree (w_fs (st_world s)) !! p = Some (File (text r)))
  /\ (forall n, fs_tree (w_fs w) !! p = None ->
        fs_tree (w_fs (st_world s)) !! p = Some n ->
        exists r,
          r ∈ h_written (st_hist s) ++ inflight (st_writer s)
          /\ output_name (fs_cwd (w_fs w)) (output_dir e) p r).
Proof.
  revert s. apply reachable_ind.
  { split; [by left|]. simpl. congruence. }
  intros s s' Hr [IH1 IH2] [_ Ht]%step_transition.
  pose proof (cwd_reachable e w s Hr) as Hcwd.
  assert (forall r fs ok,
            st_writer s = Some (WrWrite r) ->
            write_page (output_dir e) r (w_fs (st_world s)) = (fs, ok) ->
            (forall n, fs_tree (w_fs w) !! p = Some n ->
               fs_tree fs !! p = Some n
               \/ exists c r0,
                    n = File c
                    /\ r0 ∈ h_written (st_hist s) ++ (if ok then [r] else [])
                    /\ p = FS.locate (fs_cwd (w_fs w)) (text_file (output_dir e) r0)
                    /\ fs_tree fs !! p = Some (File (text r0)))
            /\ (forall n, fs_tree (w_fs w) !! p = None -> fs_tree fs !! p = Some n ->
                  exists r0, r0 ∈ h_written (st_hist s) ++ [r]
                             /\ output_name (fs_cwd (w_fs w)) (output_dir e) p r0))
    as Hstep.
  { intros r fs ok Hw Hwp. rewrite Hw in IH2. simpl in IH2. split.
    - intros n Hn.
      destruct (IH1 n Hn) as [Hsame|(c & r0 & -> & Hin & Hp & Hf)].
      + pose proof (write_page_keeps (output_dir e) r _ p n Hsame) as Hk.
        rewrite Hwp, Hcwd in Hk. simpl in Hk.
        destruct Hk as [Hk|([c ->] & Hp & -> & Hf)]; [by left|right].
        exists c, r. split; [done|]. split; [|done].
        apply elem_of_app. right. apply list_elem_of_here.
      + pose proof (write_page_keeps (output_dir e) r _ p _ Hf) as Hk.
        rewrite Hwp, Hcwd in Hk. simpl in Hk. right.
        destruct Hk as [Hk|(_ & Hp' & -> & Hf')].
        * exists c, r0. split; [done|]. split; [|done]. apply elem_of_app. by left.
        * exists c, r. split; [done|]. split; [|done].
          apply elem_of_app. right. apply list_elem_of_here.
    - intros n Hnone Hn.
      destruct (fs_tree (w_fs (st_world s)) !! p) as [n0|] eqn:Hp0.
      + destruct (IH2 n0 Hnone eq_refl) as (r0 & Hin & Hout). by exists r0.
      + exists r. split; [apply elem_of_app; right; apply list_elem_of_here|].
        rewrite <- Hcwd. apply (write_page_adds (output_dir e) r _ p Hp0).
        rewrite Hwp. simpl. congruence. }
  destruct Ht; simpl; try done.
  - pose proof (wf_coord _ _ (wf_reachable _ _ _ Hr)) as Hco. unfold coord_ok in Hco.
    rewrite H in Hco. destruct Hco as (_ & Hw & _). rewrite Hw in IH2. done.
  - rewrite H in IH2. simpl in IH2. split; [done|].
    intros n Hnone Hn. destruct (IH2 n Hnone Hn) as (r0 & Hin & Hout).
    exists r0. split; [|done]. rewrite app_nil_r in Hin. apply elem_of_app. by left.
  - rewrite H in IH2. done.
  - destruct (Hstep r fs true H H0) as [S1 S2]. split.
    + intros n Hn. destruct (S1 n Hn) as [?|(c & r0 & ? & ? & ? & ?)]; [by left|right].
      by exists c, r0.
    + intros n Hnone Hn. destruct (S2 n Hnone Hn) as (r0 & Hin & Hout).
      exists r0. by rewrite app_nil_r.
  - destruct (Hstep r fs false H H0) as [S1 S2]. split.
    + intros n Hn. destruct (S1 n Hn) as [?|(c & r0 & ? & Hin & ? & ?)]; [by left|right].
      rewrite app_nil_r in Hin. by exists c, r0.
    + intros n Hnone Hn. destruct (S2 n Hnone Hn) as (r0 & Hin & Hout).
      exists r0. by rewrite H.
Qed.

(** X7 at the sample run, for the document [in/report.pdf] itself. *)
Lemma existing_entries_kept_sample :
  let s := process_pdf rotating sample_env sample_world in
  let p := sample_cwd ++ ["in"; "report.pdf"] in
  (forall n, fs_tree (w_fs sample_world) !! p = Some n ->
     fs_tree (w_fs (st_world s)) !! p = Some n
     \/ exists c r,
          n = File c /\ r ∈ h_written (st_hist s)
          /\ p = FS.locate (fs_cwd (w_fs sample_world))
                   (text_file (output_dir sample_env) r)
          /\ fs_tree (w_fs (st_world s)) !! p = Some (File (text r)))
  /\ (forall n, fs_tree (w_fs sample_world) !! p = None ->
        fs_tree (w_fs (st_world s)) !! p = Some n ->
        exists r,
          r ∈ h_written (st_hist s) ++ inflight (st_writer s)
          /\ output_name (fs_cwd (w_fs sample_world)) (output_dir sample_env) p r).
Proof.
  intros s p. apply (existing_entries_kept sample_env sample_world s p).
  apply process_pdf_halts.
Defined.

(** ** The output does not depend on the schedule *)






(** ** Directories stay *)

Lemma dirs_kept e w s p :
  reachable e w s ->
  FS.lookup (fs_tree (w_fs w)) p = Some Dir ->
  FS.lookup (fs_tree (w_fs (st_world s))) p = Some Dir.
Proof.
  intros Hr H0. revert s Hr. apply reachable_ind; [done|].
  intros s s' Hr IH [_ Ht]%step_transition.
  destruct Ht; simpl; try done.
  - pose proof (write_page_dirs (output_dir e) r _ p IH) as Hd. by rewrite H1 in Hd.
  - pose proof (write_page_dirs (output_dir e) r _ p IH) as Hd. by rewrite H1 in Hd.
Qed.

Lemma process_pdf_keeps_dir sched e w p :
  FS.is_directory (w_fs w) p = true ->
  FS.is_directory (w_fs (st_world (process_pdf sched e w))) p = true.
Proof.
  destruct (process_pdf_halts sched e w) as [Hr _].
  apply is_directory_mono; [by apply (cwd_reachable e w _ Hr)|].
  intros q. by apply (dirs_kept e w).
Qed.

Lemma process_entries_keeps_dir sched lf out tc entries p : forall w,
  FS.is_directory (w_fs w) p = true ->
  FS.is_directory (w_fs (process_entries sched lf out tc entries w).2) p = true.
Proof.
  induction entries as [|en entries IH]; intros w Hd; simpl; [done|].
  destruct (is_pdf en); [|by apply IH].
  set (e := {| load_from_file := lf; pdf_path := entry_path en;
               output_dir := out; thread_count := tc |}).
  pose proof (process_pdf_keeps_dir sched e w p Hd) as Hd'.
  destruct (st_terminated (process_pdf sched e w)); [done|]. by apply IH.
Qed.

Lemma create_directories_is_directory fs out fs1 :
  FS.create_directories fs out = (fs1, true) -> FS.is_directory fs1 out = true.
Proof.
  intros Hmk. destruct (create_directories_spec _ _ _ _ Hmk) as (Hcwd & _ & _ & D).
  destruct (D eq_refl) as [Hne Hd]. apply is_directory_way; [done|]. by rewrite Hcwd.
Qed.

(** ** [main] on a filesystem with room for the output *)







(** What [main] does up to the loop of [process_directory], when the thread
    count parses, the input directory exists and [create_directories] does
    not throw. *)
Lemma main_unfold sched lf a0 input out arg rest tc w fs :
  stoi arg = StoiOk tc ->
  FS.is_directory (w_fs w) input = true ->
  FS.create_directories (w_fs w) out = (fs, true) ->
  exists entries,
    directory_iterator fs input = Some entries
    /\ FS.is_directory fs input = true
    /\ main sched lf (a0 :: input :: out :: arg :: rest) w
       = match process_entries sched lf out tc entries (with_fs fs w) with
         | (true, w') => (Terminated, w')
         | (false, w') => (Exit 0, w')
         end.
Proof.
  intros Harg Hin Hmk.
  pose proof (create_directories_keeps_dir _ out _ Hin) as Hin1.
  rewrite Hmk in Hin1. simpl in Hin1.
  destruct (iterator_of_directory _ _ Hin1) as [entries Hit].
  exists entries. split; [done|]. split; [done|].
  unfold main. simpl. rewrite Harg, bad_input_dir_test, Hin, Hmk. simpl.
  unfold process_directory. simpl. by rewrite Hit.
Qed.




(** X10.  Whenever [main] returns 0 the output directory exists, also when the
    input directory holds no document at all, and the input directory is still
    a directory. *)
Theorem output_directory_exists sched lf argv w w' :
  main sched lf argv w = (Exit 0, w') ->
  FS.is_directory (w_fs w') (nth 2 argv EmptyString) = true
  /\ FS.is_directory (w_fs w') (nth 1 argv EmptyString) = true.
Proof.
  unfold main. destruct (length argv <? 4)%nat; [done|].
  destruct (stoi _) as [tc| |]; try done.
  rewrite bad_input_dir_test.
  destruct (FS.is_directory (w_fs w) _) eqn:Hin; [|done]. simpl.
  destruct (FS.create_directories (w_fs w) _) as [fs []] eqn:Hmk; [|done].
  pose proof (create_directories_is_directory _ _ _ Hmk) as Hout.
  pose proof (create_directories_keeps_dir _ (nth 2 argv EmptyString) _ Hin) as Hin'.
  rewrite Hmk in Hin'. simpl in Hin'.
  unfold process_directory, directory_iterator. simpl. rewrite Hin'.
  set (entries := omap _ _).
  pose proof (process_entries_keeps_dir sched lf (nth 2 argv EmptyString) tc entries
                (nth 2 argv EmptyString) (with_fs fs w) Hout) as H1.
  pose proof (process_entries_keeps_dir sched lf (nth 2 argv EmptyString) tc entries
                (nth 1 argv EmptyString) (with_fs fs w) Hin') as H2.
  destruct (process_entries _ _ _ _ _ _) as [[] w'']; intros H; simplify_eq. done.
Qed.

(** X10 at the sample directory. *)
Lemma output_directory_exists_sample :
  let w' := (main first_enabled sample_engine sample_argv sample_world).2 in
  FS.is_directory (w_fs w') (nth 2 sample_argv EmptyString) = true
  /\ FS.is_directory (w_fs w') (nth 1 sample_argv EmptyString) = true.
Proof.
  intros w'.
  apply (output_directory_exists first_enabled sample_engine sample_argv sample_world w').
  evaluate.
Defined.

(** ** [main] does not depend on the schedule *)





(** ** How many indices are drawn *)

Lemma snd_inj_of_nodup (l : list (nat * Z)) a b i :
  NoDup l.*2 -> (a, i) ∈ l -> (b, i) ∈ l -> a = b.
Proof.
  induction l as [|[c j] l IH]; simpl; intros Hnd Ha Hb.
  - by apply elem_of_nil in Ha.
  - apply NoDup_cons in Hnd as [Hj Hnd].
    apply elem_of_cons in Ha as [Ha|Ha]; apply elem_of_cons in Hb as [Hb|Hb].
    + congruence.
    + simplify_eq. destruct Hj. by apply (list_elem_of_fmap_2 snd _ _ Hb).
    + simplify_eq. destruct Hj. by apply (list_elem_of_fmap_2 snd _ _ Ha).
    + by apply IH.
Qed.

(** One claim per worker, all different. *)
Lemma last_claims (l : list (nat * Z)) (P : Z) (m : nat) :
  (forall k, (k < m)%nat -> exists id, (k, id) ∈ l /\ P <= id) ->
  exists l1, length l1 = m /\ NoDup l1
             /\ forall c, c ∈ l1 -> c ∈ l /\ P <= c.2 /\ (c.1 < m)%nat.
Proof.
  induction m as [|m IH]; intros H.
  - exists []. split; [done|]. split; [apply NoDup_nil_2|].
    intros c Hc. by apply elem_of_nil in Hc.
  - destruct IH as (l1 & Hlen & Hnd & Hl1); [intros k Hk; apply H; lia|].
    destruct (H m) as (id & Hin & Hid); [lia|].
    exists ((m, id) :: l1). split; [simpl; lia|]. split.
    + apply NoDup_cons. split; [|done]. intros Hm. apply Hl1 in Hm. simpl in Hm. lia.
    + intros c [->|Hc]%elem_of_cons; [simpl; by auto with lia|].
      destruct (Hl1 c Hc) as (? & ? & ?). auto with lia.
Qed.

Lemma claims_lower_bound (l : list (nat * Z)) (P : Z) (m : nat) (n : Z) :
  0 <= P -> l.*2 = seqZ 0 n ->
  (forall k, (k < m)%nat -> exists id, (k, id) ∈ l /\ P <= id) ->
  P + Z.of_nat m <= Z.max P n.
Proof.
  intros HP Hseq H.
  destruct (last_claims l P m H) as (l1 & Hlen & Hnd & Hl1).
  assert (NoDup l.*2) as Hndl by (rewrite Hseq; apply NoDup_seqZ).
  assert (NoDup l1.*2) as Hnd1.
  { apply NoDup_fmap_2_strong; [|done]. intros [a i] [b j] Ha Hb Heq.
    simpl in Heq. subst j. f_equal.
    apply (snd_inj_of_nodup l a b i Hndl); by apply Hl1. }
  assert (l1.*2 ⊆ seqZ P (n - P)) as Hsub.
  { intros x ([a i] & -> & Hin)%list_elem_of_fmap. simpl.
    destruct (Hl1 _ Hin) as (Hl & Hi & _). simpl in Hi.
    apply (list_elem_of_fmap_2 snd) in Hl. rewrite Hseq in Hl. simpl in Hl.
    apply elem_of_seqZ in Hl. apply elem_of_seqZ. lia. }
  pose proof (submseteq_length _ _ (NoDup_submseteq _ _ Hnd1 Hsub)) as Hle.
  rewrite length_fmap, Hlen, length_seqZ in Hle. lia.
Qed.

(** X12.  While the counter does not wrap, the values [fetch_add] returns over
    a run are [0, 1, 2, ...] in this order, never more than the page count
    plus the number of workers of them; when [process_pdf] returns they are
    exactly that many: each page index once, and for each worker the one index
    at or past the end on which it left its loop.  The counter then holds
    their number. *)
Theorem claims_in_total e w s d :
  load_from_file e (pdf_path e) = Some d ->
  0 <= doc_pages d -> 1 <= thread_count e ->
  doc_pages d + thread_count e <= 2 ^ 31 ->
  reachable e w s ->
  (exists n, (h_claims (st_hist s)).*2 = seqZ 0 n
             /\ 0 <= n <= doc_pages d + thread_count e)
  /\ (st_coord s = CReturned ->
      (h_claims (st_hist s)).*2 = seqZ 0 (doc_pages d + thread_count e)
      /\ st_current_page s = Int32.wrap (doc_pages d + thread_count e)).
Proof.
  intros Hl HP Htc Hb Hr.
  pose proof (wf_reachable _ _ _ Hr) as Hwf.
  pose proof (claims_ok_reachable _ _ _ Hr) as Hck.
  pose proof (claims_unique_reachable e w s (no_wrap_of_bound e d Hl HP Htc Hb) Hr)
    as [Hseq Hctr Hbound _ _].
  set (n := Z.of_nat (length (h_claims (st_hist s)))) in *.
  assert (pool_size e = thread_count e) as Hpool by (unfold pool_size; lia).
  assert (n <= doc_pages d + thread_count e) as Hup.
  { assert (st_coord s = CLoad \/ st_coord s <> CLoad) as [Hc|Hc]
      by (destruct (st_coord s); (by left) || (by right)).
    - destruct (ck_fresh _ _ Hck Hc) as [Hnil _]. unfold n. rewrite Hnil. simpl. lia.
    - rewrite (num_pages_loaded e w s d Hr Hl Hc) in Hbound.
      pose proof (sum_over_bounds (exhausted (doc_pages d)) (st_threads s) 0 1
                    (exhausted_bounds (doc_pages d))) as Hs.
      pose proof (pool_bound e s Hwf). lia. }
  split; [exists n; split; [done|unfold n; lia]|].
  intros Hc.
  assert (st_num_pages s = doc_pages d) as HPs
    by (apply (num_pages_loaded e w s d Hr Hl); congruence).
  destruct (returned_loaded e s Hwf Hc) as (_ & Hlen & _); [by rewrite Hl|].
  pose proof (returned_all_done e s Hwf Hc) as Hall.
  assert (doc_pages d + Z.of_nat (length (st_threads s)) <= Z.max (doc_pages d) n)
    as Hlow.
  { apply (claims_lower_bound (h_claims (st_hist s))); [done|done|].
    intros k Hk. destruct (lookup_lt_is_Some_2 (st_threads s) k Hk) as [x Hx].
    pose proof (Forall_done_insert _ _ _ Hall Hx) as ->.
    destruct (ck_done _ _ Hck _ Hx) as (id & Hin & Hid).
    exists id. split; [done|lia]. }
  assert (n = doc_pages d + thread_count e) as Hn by lia.
  by rewrite Hseq, Hctr, Hn.
Qed.

(** X12 at the sample document: two pages and four workers, six indices
    drawn. *)
Lemma claims_in_total_sample :
  let s := process_pdf rotating sample_env sample_world in
  (exists n, (h_claims (st_hist s)).*2 = seqZ 0 n
             /\ 0 <= n <= doc_pages sample_doc + thread_count sample_env)
  /\ (st_coord s = CReturned ->
      (h_claims (st_hist s)).*2
      = seqZ 0 (doc_pages sample_doc + thread_count sample_env)
      /\ st_current_page s = Int32.wrap (doc_pages sample_doc + thread_count sample_env)).
Proof.
  intros s.
  apply (claims_in_total sample_env sample_world s sample_doc).
  - reflexivity.
  - simpl. lia.
  - simpl. lia.
  - simpl. lia.
  - apply process_pdf_halts.
Defined.

(** ** A second run *)




(** ** A thread count of zero or less, seen from [main] *)

Lemma process_entries_idle sched lf out tc entries : forall w,
  tc <= 0 ->
  (process_entries sched lf out tc entries w).1 = false
  /\ w_fs (process_entries sched lf out tc entries w).2 = w_fs w.
Proof.
  induction entries as [|en entries IH]; intros w Htc; simpl; [done|].
  destruct (is_pdf en); [|by apply IH].
  set (e := {| load_from_file := lf; pdf_path := entry_path en;
               output_dir := out; thread_count := tc |}).
  destruct (process_pdf_halts sched e w) as [Hr _].
  destruct (no_workers e w _ Htc Hr) as (_ & _ & _ & Hfs & ->).
  destruct (IH (st_world (process_pdf sched e w)) Htc) as [H1 H2].
  split; [done|]. by rewrite H2.
Qed.

(** X14.  When the thread count parses to zero or less, [main] still creates
    the output directory, passes every selected entry of the input directory
    to [load_from_file], in the order of the listing, reports those that do
    not load and returns 0, but nothing is written: the filesystem is left as
    [create_directories] made it, whatever it held before. *)
Theorem main_without_workers sched lf a0 input out arg rest tc fs w :
  stoi arg = StoiOk tc -> tc <= 0 ->
  FS.is_directory (w_fs w) input = true ->
  FS.create_directories (w_fs w) out = (fs, true) ->
  exists entries w',
    directory_iterator fs input = Some entries
    /\ main sched lf (a0 :: input :: out :: arg :: rest) w = (Exit 0, w')
    /\ w_fs w' = fs
    /\ w_loaded w' = w_loaded w ++ (entry_path <$> List.filter is_pdf entries)
    /\ w_stderr w'
       = w_stderr w
         ++ ((fun en => failed_to_open (entry_path en))
               <$> List.filter (fails_to_load lf) entries).
Proof.
  intros Harg Htc Hin Hmk.
  destruct (main_unfold sched lf a0 input out arg rest tc w fs Harg Hin Hmk)
    as (entries & Hit & _ & ->).
  destruct (process_entries_idle sched lf out tc entries (with_fs fs w) Htc)
    as [Hok Hfs].
  destruct (process_entries sched lf out tc entries (with_fs fs w)) as [b w'] eqn:Hpe.
  simpl in *. subst b. exists entries, w'.
  split; [done|]. split; [done|]. split; [done|]. split.
  - apply (process_entries_loaded _ _ _ _ _ _ _ Hpe).
  - apply (process_entries_stderr _ _ _ _ _ _ _ Hpe).
Qed.

(** X14 at the sample directory, for the thread count [-2]. *)
Lemma main_without_workers_sample :
  let fs := {| fs_cwd := sample_cwd;
               fs_tree := <[ sample_cwd ++ ["out"] := Dir ]> (fs_tree sample_fs) |} in
  exists entries w',
    directory_iterator fs "in" = Some entries
    /\ main first_enabled sample_engine ["pdf_split"; "in"; "out"; "-2"] sample_world
       = (Exit 0, w')
    /\ w_fs w' = fs
    /\ w_loaded w' = w_loaded sample_world ++ (entry_path <$> List.filter is_pdf entries)
    /\ w_stderr w'
       = w_stderr sample_world
         ++ ((fun en => failed_to_open (entry_path en))
               <$> List.filter (fails_to_load sample_engine) entries).
Proof.
  intros fs.
  apply (main_without_workers first_enabled sample_engine "pdf_split" "in" "out" "-2"
           [] (-2) fs sample_world).
  - reflexivity.
  - lia.
  - evaluate.
  - evaluate.
Defined.

(** ** When the process is terminated *)










(** ** The pool of workers *)

(** X16.  The spawning loop creates one worker per iteration and
    [max(0, thread_count)] of them in all; its counter [i] counts the workers
    created so far and never passes [thread_count], so that [++i] does not
    overflow.  From the creation of the writer on, the pool has that size. *)
Theorem pool_is_thread_count e w s :
  reachable e w s ->
  (forall i, st_coord s = CSpawn i ->
     0 <= i <= Z.max 0 (thread_count e)
     /\ Z.of_nat (length (st_threads s)) = i
     /\ (Int32.in_range (thread_count e) ->
         Int32.in_range i /\ (i < thread_count e -> Int32.in_range (i + 1))))
  /\ (is_Some (load_from_file e (pdf_path e)) ->
      st_coord s <> CLoad -> (forall i, st_coord s <> CSpawn i) ->
      Z.of_nat (length (st_threads s)) = Z.max 0 (thread_count e))
  /\ Z.of_nat (length (st_threads s)) <= Z.max 0 (thread_count e).
Proof.
  intros Hr. pose proof (wf_reachable _ _ _ Hr) as Hwf.
  pose proof (wf_coord _ _ Hwf) as Hco. unfold coord_ok in Hco.
  split; [|split].
  - intros i Hc. rewrite Hc in Hco. simpl in Hco.
    destruct Hco as (Hi & Hlen & _). unfold pool_size in Hi.
    split; [done|]. split; [done|].
    intros Htc. pose proof (proj1 (in_range_bounds _) Htc) as Hb.
    split; [|intros Hlt]; apply in_range_bounds; lia.
  - intros [d Hl] Hload Hspawn.
    destruct (st_coord s) eqn:Hc; simpl in Hco; try done.
    + by destruct (Hspawn i).
    + by destruct Hco as (? & _).
    + by destruct Hco as (? & _).
    + by destruct Hco as (? & _).
    + by destruct Hco as (? & _).
    + destruct Hco as [(_ & _ & Hnone & _)|(_ & ? & _)]; [congruence|done].
  - apply (pool_bound e s Hwf).
Qed.

(** X16 at the sample run, as the spawning loop has run. *)
Lemma pool_is_thread_count_sample :
  let s := state_after sample_env (replicate 7 Coordinator) sample_world in
  (forall i, st_coord s = CSpawn i ->
     0 <= i <= Z.max 0 (thread_count sample_env)
     /\ Z.of_nat (length (st_threads s)) = i
     /\ (Int32.in_range (thread_count sample_env) ->
         Int32.in_range i /\ (i < thread_count sample_env -> Int32.in_range (i + 1))))
  /\ (is_Some (load_from_file sample_env (pdf_path sample_env)) ->
      st_coord s <> CLoad -> (forall i, st_coord s <> CSpawn i) ->
      Z.of_nat (length (st_threads s)) = Z.max 0 (thread_count sample_env))
  /\ Z.of_nat (length (st_threads s)) <= Z.max 0 (thread_count sample_env).
Proof.
  intros s. apply (pool_is_thread_count sample_env sample_world s).
  apply state_after_reachable.
Defined.

(** ** An output path that cannot be created *)




(** ** Documents do not collide *)



(** ** The documents of a directory, in any order *)












(** ** Running the program again *)







(** ** The whole program *)



(** ** The library models on examples *)

Example stem_report : Path.stem "in/report.pdf" = "report".
Proof. reflexivity. Qed.

Example stem_two_dots : Path.stem "in/a.b.pdf" = "a.b".
Proof. reflexivity. Qed.

Example extension_report : Path.extension "in/report.pdf" = ".pdf".
Proof. reflexivity. Qed.

Example extension_hidden : Path.extension "in/.pdf" = EmptyString.
Proof. reflexivity. Qed.

Example extension_upper : Path.extension "in/report.PDF" = ".PDF".
Proof. reflexivity. Qed.

Example append_page :
  Path.append "out" ("report" +:+ "/" +:+ to_string 12) = "out/report/12".
Proof. reflexivity. Qed.

Example append_after_separator : Path.append "out/" "report/0" = "out/report/0".
Proof. reflexivity. Qed.

Example components_absolute :
  Path.components "/tmp//out/" = [EmptyString; "tmp"; "out"].
Proof. reflexivity. Qed.

Example to_string_negative : to_string (-7) = "-7".
Proof. reflexivity. Qed.

Example stoi_prefix : stoi " 42abc" = StoiOk 42.
Proof. reflexivity. Qed.

Example stoi_invalid : stoi "abc" = StoiInvalidArgument.
Proof. reflexivity. Qed.

Example stoi_out_of_range : stoi "2147483648" = StoiOutOfRange.
Proof. reflexivity. Qed.

Example stoi_negative : stoi "-3" = StoiOk (-3).
Proof. reflexivity. Qed.

(** Where paths lead: dot stays, dot-dot goes up, an empty name between or
    after separators stays. *)
Example locate_dotted :
  FS.locate ["home"; "user"] "./out/../out//x/" = ["home"; "user"; "out"; "x"].
Proof. reflexivity. Qed.

Example locate_above_root : FS.locate ["home"] "../../tmp" = ["tmp"].
Proof. reflexivity. Qed.

Example is_directory_dotted :
  FS.is_directory sample_fs "./in" = true
  /\ FS.is_directory sample_fs "in/../in/." = true
  /\ FS.is_directory sample_fs "/home/user/in/" = true
  /\ FS.is_directory sample_fs EmptyString = false.
Proof. vm_compute. repeat split. Qed.

(** A regular file followed by a separator is not found. *)
Example status_after_file :
  FS.status sample_fs "in/report.pdf" = Some (File "%PDF")
  /\ FS.status sample_fs "in/report.pdf/" = None
  /\ FS.status sample_fs "in/report.pdf/.." = None.
Proof. vm_compute. repeat split. Qed.

(** The entries of a listing are named after the path the directory was
    given by. *)
Example directory_iterator_dotted :
  option_map (List.map entry_path) (directory_iterator sample_fs "./in")
  = Some ["./in/report.pdf"; "./in/broken.pdf"; "./in/notes.PDF"]
  /\ option_map (List.map entry_path) (directory_iterator sample_fs "in/")
     = Some ["in/report.pdf"; "in/broken.pdf"; "in/notes.PDF"].
Proof. vm_compute. repeat split. Qed.

Example stem_of_dots :
  Path.stem "in/...pdf" = ".." /\ Path.stem "in/..pdf" = "."
  /\ Path.stem "in/.pdf" = ".pdf".
Proof. repeat split. Qed.

(** [create_directories] keeps the directories it made before it met a
    regular file. *)
Example create_directories_partial :
  let run := FS.create_directories (w_fs blocked_world) "new/../out/report" in
  run.2 = false
  /\ fs_tree (w_fs blocked_world) !! (sample_cwd ++ ["new"]) = None
  /\ fs_tree run.1 !! (sample_cwd ++ ["new"]) = Some Dir
  /\ fs_tree run.1 !! (sample_cwd ++ ["out"]) = Some (File "not a directory").
Proof. vm_compute. repeat split. Qed.

(** The scenario of the specification: [report.pdf] with the pages
    [Hello] and [World], four workers. *)
Example sample_run_output :
  let w' := (main rotating sample_engine sample_argv sample_world).2 in
  FS.status (w_fs w') "out/report/0/text_layer.txt" = Some (File "Hello")
  /\ FS.status (w_fs w') "out/report/1/text_layer.txt" = Some (File "World")
  /\ w_loaded w' = ["in/report.pdf"; "in/broken.pdf"]
  /\ w_stderr w' = [failed_to_open "in/broken.pdf"].
Proof. vm_compute. repeat split. Qed.

(** The same scenario with the directories named [./in/] and
    [../user/./out]: the same filesystem results. *)
Example dotted_run_output :
  let run := main rotating dotted_engine dotted_argv sample_world in
  run.1 = Exit 0
  /\ w_fs run.2 = w_fs (main rotating sample_engine sample_argv sample_world).2
  /\ w_loaded run.2 = ["./in/report.pdf"; "./in/broken.pdf"]
  /\ w_stderr run.2 = [failed_to_open "./in/broken.pdf"].
Proof. repeat split; evaluate. Qed.

(** The output directory taken by a regular file: the first page the writer
    handles ends the process. *)
Example blocked_run_output :
  st_terminated (process_pdf first_enabled sample_env blocked_world) = true
  /\ (main first_enabled sample_engine sample_argv blocked_world).1 = Terminated.
Proof. vm_compute. repeat split. Qed.

(** A document named [...pdf] has the stem dot-dot: its pages are written
    beside the output directory, not inside it. *)
Example escaping_run_output :
  let run := main first_enabled escaping_engine ["pdf_split"; "in"; "out"; "1"]
               escaping_world in
  run.1 = Exit 0
  /\ fs_tree (w_fs run.2) !! ["work"; "0"; "text_layer.txt"] = Some (File "Hello")
  /\ fs_tree (w_fs run.2) !! ["work"; "1"; "text_layer.txt"] = Some (File "World")
  /\ fs_tree (w_fs run.2) !! ["work"; "out"] = Some Dir
  /\ FS.status (w_fs run.2) "out/../0/text_layer.txt" = Some (File "Hello").
Proof. vm_compute. repeat split. Qed.
